(** * plate-geometry: grid construction, mesh synthesis, plate grouping and
      STAAD export, as a shallow embedding of the JavaScript sources

    The embedded code is [utils.js] (clamp, round3, uniqSorted,
    findClosestIndex) and the four memoised computations of [App.jsx]
    (grid lines, nodes/members/plates, plate groups, export text).

    Numbers.  A JavaScript number is an IEEE-754 binary64 value; it is
    embedded as Rocq's primitive [float], whose operations are the
    processor's.  Counters, array indices and identifiers, which the code
    only ever increments from small integers, are embedded as [Z].  The
    results of [Math.round] and [Math.floor] that the code uses as loop
    bounds are integral numbers, possibly infinite or NaN; they are
    embedded as [intnum] and the index arithmetic on them is exact.  It is
    exact on doubles as well as long as the operands stay below 2^53; a
    larger bound is cut back to the grid by [Math.max]/[Math.min] before
    use, so the rounding of doubles can only show where two operands of
    that magnitude cancel (a pedestal size below -2^53 mesh steps against
    a plate thickness above 2^53 mesh steps).

    Strings are [string]; the object and the [Map]s that are keyed by
    template strings are [gmap string Z]; the [Set]s of plate ids are
    [gset Z]; a [Set] of doubles is a duplicate-free list in insertion
    order. *)

From Stdlib Require Import ZArith QArith Qround Qabs List Bool String Ascii Lia.
From Stdlib Require Import Floats DecimalString DecimalZ.
From stdpp Require Import gmap strings sorting.
Import ListNotations.

Set Warnings "-inexact-float".
Open Scope Z_scope.

(** ** JavaScript numbers *)

(** An integral number as [Math.round], [Math.floor] and [Math.ceil] return
    it: NaN, an infinity, or an integer. *)
Inductive intnum : Set :=
| INaN
| INegInf
| IFin (z : Z)
| IPosInf.

Definition SF_signed (s : bool) (m : positive) : Z :=
  if s then Z.neg m else Z.pos m.

(** [Math.round]: the integer nearest to the argument, a tie going up. The
    finite double (-1)^s * m * 2^e is decoded exactly. *)
Definition SF_round (f : spec_float) : intnum :=
  match f with
  | S754_nan => INaN
  | S754_infinity s => if s then INegInf else IPosInf
  | S754_zero _ => IFin 0
  | S754_finite s m e =>
      IFin (match e with
            | Zneg p => (2 * SF_signed s m + 2 ^ Z.pos p) / 2 ^ (Z.pos p + 1)
            | _ => SF_signed s m * 2 ^ e
            end)
  end.

(** [Math.floor]. *)
Definition SF_floor (f : spec_float) : intnum :=
  match f with
  | S754_nan => INaN
  | S754_infinity s => if s then INegInf else IPosInf
  | S754_zero _ => IFin 0
  | S754_finite s m e =>
      IFin (match e with
            | Zneg p => SF_signed s m / 2 ^ Z.pos p
            | _ => SF_signed s m * 2 ^ e
            end)
  end.

Definition Math_round_x (x : float) : intnum := SF_round (Prim2SF x).
Definition Math_floor_x (x : float) : intnum := SF_floor (Prim2SF x).

(** The double nearest to an integer (exact below 2^53). *)
Definition float_of_Z (z : Z) : float :=
  SF2Prim (binary_normalize prec emax z 0 false).

(** [Math.round] as a double: doubles of magnitude 2^52 and more are
    integers already; a result of zero keeps the sign of the argument. *)
Definition Math_round (x : float) : float :=
  match Math_round_x x with
  | IFin z =>
      if (abs x <? 0x1p52)%float
      then if z =? 0 then (if get_sign x then neg_zero else zero) else float_of_Z z
      else x
  | _ => x
  end.

(** [Math.max] and [Math.min] of two numbers: NaN is contagious and +0 is
    larger than -0. *)
Definition Math_max (x y : float) : float :=
  if is_nan x || is_nan y then nan
  else if (x <? y)%float then y
  else if (y <? x)%float then x
  else if get_sign x then y else x.

Definition Math_min (x y : float) : float :=
  if is_nan x || is_nan y then nan
  else if (x <? y)%float then x
  else if (y <? x)%float then y
  else if get_sign x then x else y.

(** *** Number to string

    [Number::toString] of ECMAScript in radix 10: the shortest decimal
    [s * 10^(n-k)] with [k] digits that reads back as the same double, the
    one nearest to the double when several exist. The double is [m * 2^e];
    [lo] and [hi] are the midpoints to its two neighbours. *)

Definition string_of_Z (z : Z) : string :=
  NilZero.string_of_int (Z.to_int z).

Definition pow10Q (n : Z) : Q :=
  match n with
  | Zneg p => 1 # (10 ^ p)%positive
  | _ => inject_Z (10 ^ n)
  end.

Definition pow2Q (n : Z) : Q :=
  match n with
  | Zneg p => 1 # (2 ^ p)%positive
  | _ => inject_Z (2 ^ n)
  end.

(** The least [n] from [g] on with [v < 10^n]. *)
Fixpoint dec_magnitude (fuel : nat) (v : Q) (g : Z) : Z :=
  match fuel with
  | O => g
  | S fuel' => if Qle_bool (pow10Q g) v then dec_magnitude fuel' v (g + 1) else g
  end.

Definition nearest_even (x : Q) : Z :=
  let f := Qfloor x in
  match Qcompare (x - inject_Z f)%Q (1 # 2) with
  | Lt => f
  | Gt => f + 1
  | Eq => if Z.even f then f else f + 1
  end.

(** The [k]-digit [s] with [s * 10^(n-k)] inside the rounding interval and
    nearest to [v], with its distance to [v]. *)
Definition digit_candidate (lo v hi : Q) (incl : bool) (k n : Z)
  : option (Z * Z * Q) :=
  let u := pow10Q (n - k) in
  let a := Qceiling (lo / u)%Q in
  let b := Qfloor (hi / u)%Q in
  let a := if incl then a else if Qeq_bool (inject_Z a * u)%Q lo then a + 1 else a in
  let b := if incl then b else if Qeq_bool (inject_Z b * u)%Q hi then b - 1 else b in
  let a := Z.max a (10 ^ (k - 1)) in
  let b := Z.min b (10 ^ k - 1) in
  if a <=? b
  then let s := Z.max a (Z.min b (nearest_even (v / u)%Q)) in
       Some (s, n, Qabs (inject_Z s * u - v)%Q)
  else None.

Definition closer (c1 c2 : option (Z * Z * Q)) : option (Z * Z * Q) :=
  match c1, c2 with
  | Some (_, _, d1), Some (_, _, d2) => if Qle_bool d1 d2 then c1 else c2
  | Some _, None => c1
  | None, _ => c2
  end.

Fixpoint shortest_digits (fuel : nat) (lo v hi : Q) (incl : bool) (k nv : Z)
  : Z * Z * Z :=
  let c := closer (digit_candidate lo v hi incl k nv)
             (closer (digit_candidate lo v hi incl k (nv + 1))
                     (digit_candidate lo v hi incl k (nv - 1))) in
  match c, fuel with
  | Some (s, n, _), _ => (s, k, n)
  | None, S fuel' => shortest_digits fuel' lo v hi incl (k + 1) nv
  | None, O => (nearest_even (v / pow10Q (nv - k))%Q, k, nv)
  end.

Definition zeros (n : Z) : string :=
  string_of_list_ascii (repeat "0"%char (Z.to_nat n)).

Definition format_digits (s k n : Z) : string :=
  let d := string_of_Z s in
  if (k <=? n) && (n <=? 21) then d +:+ zeros (n - k)
  else if (0 <? n) && (n <=? 21)
  then substring 0 (Z.to_nat n) d +:+ "." +:+ substring (Z.to_nat n) (Z.to_nat (k - n)) d
  else if (-6 <? n) && (n <=? 0) then "0." +:+ zeros (- n) +:+ d
  else
    let e := n - 1 in
    let es := (if e <? 0 then "-" else "+") +:+ string_of_Z (Z.abs e) in
    if k =? 1 then d +:+ "e" +:+ es
    else substring 0 1 d +:+ "." +:+ substring 1 (Z.to_nat (k - 1)) d +:+ "e" +:+ es.

Definition Number_toString (x : float) : string :=
  match Prim2SF x with
  | S754_nan => "NaN"
  | S754_zero _ => "0"
  | S754_infinity s => if s then "-Infinity" else "Infinity"
  | S754_finite sg m e =>
      let boundary := (Z.pos m =? 2 ^ 52) && (-1074 <? e) in
      let v := (inject_Z (Z.pos m) * pow2Q e)%Q in
      let lo := (inject_Z (4 * Z.pos m - (if boundary then 1 else 2)) * pow2Q (e - 2))%Q in
      let hi := (inject_Z (4 * Z.pos m + 2) * pow2Q (e - 2))%Q in
      let g := ((Z.log2 (Z.pos m) + e) * 30103) / 100000 - 1 in
      let nv := dec_magnitude 4 v g in
      let '(s, k, n) :=
        shortest_digits 16 (Qred lo) (Qred v) (Qred hi) (Z.even (Z.pos m)) 1 nv in
      (if sg then "-" else "") +:+ format_digits s k n
  end.

(** *** Sets and arrays of numbers *)

(** The equality of [Set] and [Array.prototype.includes]. *)
Definition sameValueZero (x y : float) : bool :=
  (x =? y)%float || (is_nan x && is_nan y).

Definition includes (arr : list float) (x : float) : bool :=
  existsb (sameValueZero x) arr.

(** The value a [Set] keeps for [x]: -0 is stored as +0. *)
Definition stored (x : float) : float := if is_zero x then zero else x.

(** [set.add(x)]: a new value goes to the end. *)
Definition Set_add (s : list float) (x : float) : list float :=
  if includes s x then s else s ++ [stored x].

(** [new Set(arr)]. *)
Definition Set_of (arr : list float) : list float :=
  fold_left Set_add arr [].

(** [arr.sort((x, y) => x - y)], as a stable insertion sort: [y] goes before
    [x] exactly when the comparator on [(y, x)] is negative. *)
Fixpoint sort_insert (x : float) (sorted : list float) : list float :=
  match sorted with
  | [] => [x]
  | y :: rest =>
      if (y - x <? 0)%float then y :: sort_insert x rest else x :: sorted
  end.

Definition sort_numeric (arr : list float) : list float :=
  fold_right sort_insert [] arr.

(** The integers [lo], [lo + 1], ..., [lo + n - 1]. *)
Definition zseq (lo : Z) (n : nat) : list Z :=
  map (fun i => lo + Z.of_nat i) (seq 0 n).

(** ** utils.js *)

Definition clamp (v a b : float) : float := Math_min (Math_max v a) b.

Definition round3 (n : float) : float := (Math_round (n * 1000) / 1000)%float.

Definition eps_default : float := 1e-6%float.

(** The value [uniqSorted] stores for [x]. *)
Definition snap (eps x : float) : float := (Math_round (x / eps) * eps)%float.

Definition uniqSorted (arr : list float) (eps : float) : list float :=
  sort_numeric (Set_of (map (snap eps) arr)).

Fixpoint findClosestIndex_from (arr : list float) (target : float)
    (i : Z) (closest : float) (closestIndex : Z) : Z :=
  match arr with
  | [] => closestIndex
  | a :: rest =>
      let diff := abs (a - target) in
      if (diff <? closest)%float
      then findClosestIndex_from rest target (i + 1) diff i
      else findClosestIndex_from rest target (i + 1) closest closestIndex
  end.

Definition findClosestIndex (arr : list float) (target : float) : Z :=
  findClosestIndex_from arr target 0 infinity (-1).

(** ** App.jsx: the data model *)

(** A pedestal as the store holds it ([points]). *)
Record point : Set := {
  p_id : Z;
  p_x : float;
  p_z : float;
  p_length : float;
  p_width : float
}.

Inductive node_type : Set := surface | pedestal.

Record node : Set := {
  n_id : Z;
  n_x : float;
  n_y : float;
  n_z : float;
  n_type : node_type
}.

Record member : Set := {
  m_id : Z;
  startNode : Z;
  endNode : Z;
  pointData : point
}.

Record plate : Set := {
  pl_id : Z;
  pl_nodes : list Z
}.

(** ** App.jsx: grid lines *)

(** The number of rounds of [for (let j = 1; j <= k; j++)] with
    [k = Math.floor(span / step)]; [None] when the loop never ends, which is
    the case when [k] is infinite or when [j] stops growing at 2^53. *)
Definition division_count (span step : float) : option Z :=
  match Math_floor_x (span / step) with
  | IFin k => if k <? 2 ^ 53 then Some k else None
  | IPosInf => None
  | INaN | INegInf => Some 0
  end.

(** The inner loop of [addDivisions] on the interval from [a] to [b]. *)
Definition add_interior (lines : list float) (a b step : float) (k : Z)
  : list float :=
  fold_left
    (fun lines j =>
       let t := (a + float_of_Z j * step)%float in
       if ((a + 1e-9 <? t) && (t <? b - 1e-9))%float then Set_add lines t else lines)
    (zseq 1 (Z.to_nat k)) lines.

(** The outer loop of [addDivisions], over the adjacent pairs of [cuts]. *)
Fixpoint divide_cuts (cuts : list float) (step : float) (lines : list float)
  : option (list float) :=
  match cuts with
  | a :: (b :: _) as rest =>
      let span := (b - a)%float in
      if (span <=? 0)%float then divide_cuts rest step lines
      else match division_count span step with
           | Some k => divide_cuts rest step (add_interior lines a b step k)
           | None => None
           end
  | _ => Some lines
  end.

Definition addDivisions (cuts : list float) (max step : float)
  : option (list float) :=
  option_map sort_numeric (divide_cuts cuts step (Set_of cuts)).

Record grid : Set := {
  xLines : list float;
  zLines : list float
}.

Definition xCuts (points : list point) (length : float) : list float :=
  uniqSorted (0%float :: length :: map (fun p => clamp (p_x p) 0 length) points)
             eps_default.

Definition zCuts (points : list point) (width : float) : list float :=
  uniqSorted (0%float :: width :: map (fun p => clamp (p_z p) 0 width) points)
             eps_default.

Definition gridLines (points : list point) (length width mesh : float)
  : option grid :=
  match addDivisions (xCuts points length) length mesh,
        addDivisions (zCuts points width) width mesh with
  | Some xL, Some zL => Some {| xLines := xL; zLines := zL |}
  | _, _ => None
  end.

(** ** App.jsx: nodes, members and plates *)

(** The key [`${round3(x)},${round3(z)}`]. *)
Definition coordKey (x z : float) : string :=
  Number_toString (round3 x) +:+ "," +:+ Number_toString (round3 z).

(** The key [`${xi},${zi}`]. *)
Definition cellKey (xi zi : Z) : string :=
  string_of_Z xi +:+ "," +:+ string_of_Z zi.

(** The variables the node loops assign. *)
Record synth : Type := {
  allNodes : list node;
  surfaceNodesByCoord : gmap string Z;
  newMembers : list member;
  nodeIdCounter : Z
}.

Definition synth_init : synth :=
  {| allNodes := []; surfaceNodesByCoord := ∅; newMembers := []; nodeIdCounter := 1 |}.

Definition surface_node (z : float) (st : synth) (x : float) : synth :=
  let id := nodeIdCounter st in
  {| allNodes := allNodes st ++
       [{| n_id := id; n_x := x; n_y := 0; n_z := z; n_type := surface |}];
     surfaceNodesByCoord := <[coordKey x z := id]> (surfaceNodesByCoord st);
     newMembers := newMembers st;
     nodeIdCounter := id + 1 |}.

Definition surface_row (xLines : list float) (st : synth) (z : float) : synth :=
  fold_left (surface_node z) xLines st.

Definition surface_nodes (xLines zLines : list float) : synth :=
  fold_left (surface_row xLines) zLines synth_init.

(** The body of [points.forEach] under [pedestalHeight > 1e-9]; a node id is
    truthy when it is defined and not 0. *)
Definition pedestal_node (pedestalHeight : float) (st : synth) (point : point)
  : synth :=
  match surfaceNodesByCoord st !! coordKey (p_x point) (p_z point) with
  | Some surfaceNodeId =>
      if surfaceNodeId =? 0 then st
      else
        let newPedestalNodeId := nodeIdCounter st in
        {| allNodes := allNodes st ++
             [{| n_id := newPedestalNodeId; n_x := p_x point; n_y := pedestalHeight;
                 n_z := p_z point; n_type := pedestal |}];
           surfaceNodesByCoord := surfaceNodesByCoord st;
           newMembers := newMembers st ++
             [{| m_id := Z.of_nat (length (newMembers st)) + 1;
                 startNode := surfaceNodeId;
                 endNode := newPedestalNodeId;
                 pointData := point |}];
           nodeIdCounter := newPedestalNodeId + 1 |}
  | None => st
  end.

Definition pedestal_nodes (pedestalHeight : float) (points : list point)
    (st : synth) : synth :=
  if (1e-9 <? pedestalHeight)%float
  then fold_left (pedestal_node pedestalHeight) points st
  else st.

(** The variables the plate loops assign. *)
Record plating : Type := {
  newPlates : list plate;
  plateIdByCoord : gmap string Z;
  plateIdCounter : Z
}.

Definition plating_init : plating :=
  {| newPlates := []; plateIdByCoord := ∅; plateIdCounter := 1 |}.

Definition nodeIdAt (nX xi zi : Z) : Z := zi * nX + xi + 1.

(** The node order of the plate of cell [(xi, zi)]. *)
Definition plate_order (nX : Z) (zOrientation : string) (xi zi : Z) : list Z :=
  let tl := nodeIdAt nX xi zi in
  let tr := nodeIdAt nX (xi + 1) zi in
  let br := nodeIdAt nX (xi + 1) (zi + 1) in
  let bl := nodeIdAt nX xi (zi + 1) in
  if String.eqb zOrientation "up" then [bl; br; tr; tl] else [tl; tr; br; bl].

Definition plate_cell (nX : Z) (zOrientation : string) (zi : Z)
    (st : plating) (xi : Z) : plating :=
  let currentPlateId := plateIdCounter st in
  let order := plate_order nX zOrientation xi zi in
  {| newPlates := newPlates st ++ [{| pl_id := currentPlateId; pl_nodes := order |}];
     plateIdByCoord := <[cellKey xi zi := currentPlateId]> (plateIdByCoord st);
     plateIdCounter := currentPlateId + 1 |}.

Definition plate_row (xLines : list float) (zOrientation : string)
    (st : plating) (zi : Z) : plating :=
  fold_left (plate_cell (Z.of_nat (length xLines)) zOrientation zi)
            (zseq 0 (length xLines - 1)) st.

Definition plate_cells (xLines zLines : list float) (zOrientation : string)
  : plating :=
  fold_left (plate_row xLines zOrientation) (zseq 0 (length zLines - 1)) plating_init.

(** What the second [useMemo] returns. *)
Record mesh : Type := {
  nodes : list node;
  members : list member;
  plates : list plate;
  plateIds : gmap string Z
}.

Definition synthesize (xLines zLines : list float) (pedestalHeight : float)
    (points : list point) (zOrientation : string) : mesh :=
  let st := pedestal_nodes pedestalHeight points (surface_nodes xLines zLines) in
  let pl := plate_cells xLines zLines zOrientation in
  {| nodes := allNodes st;
     members := newMembers st;
     plates := newPlates pl;
     plateIds := plateIdByCoord pl |}.

(** ** App.jsx: plate groups *)

(** [Math.floor(i - n / 2)] for an index [i]. *)
Definition floor_sub_half (i : Z) (n : intnum) : intnum :=
  match n with
  | INaN => INaN
  | INegInf => IPosInf
  | IPosInf => INegInf
  | IFin k => IFin ((2 * i - k) / 2)
  end.

(** [Math.ceil(i + n / 2)] for an index [i]. *)
Definition ceil_add_half (i : Z) (n : intnum) : intnum :=
  match n with
  | INaN => INaN
  | INegInf => INegInf
  | IPosInf => IPosInf
  | IFin k => IFin (- ((- (2 * i + k)) / 2))
  end.

Definition intnum_add (a b : intnum) : intnum :=
  match a, b with
  | INaN, _ | _, INaN => INaN
  | IPosInf, INegInf | INegInf, IPosInf => INaN
  | IPosInf, _ | _, IPosInf => IPosInf
  | INegInf, _ | _, INegInf => INegInf
  | IFin x, IFin y => IFin (x + y)
  end.

Definition intnum_opp (a : intnum) : intnum :=
  match a with
  | INaN => INaN
  | INegInf => IPosInf
  | IPosInf => INegInf
  | IFin x => IFin (- x)
  end.

Definition intnum_sub (a b : intnum) : intnum := intnum_add a (intnum_opp b).

(** The values of [i] in
    [for (let i = Math.max(0, start); i < Math.min(count, stop); i++)]. *)
Definition index_range (count : Z) (start stop : intnum) : list Z :=
  match start, stop with
  | INaN, _ | _, INaN => []
  | IPosInf, _ | _, INegInf => []
  | _, _ =>
      let lo := match start with IFin s => Z.max 0 s | _ => 0 end in
      let hi := match stop with IFin e => Z.min count e | _ => count end in
      zseq lo (Z.to_nat (hi - lo))
  end.

(** The index ranges of one group of one pedestal, on both axes. *)
Record ranges : Set := {
  start_x : intnum;
  end_x : intnum;
  start_z : intnum;
  end_z : intnum
}.

Definition moment_ranges (g : grid) (mesh_size : float) (p : point) : ranges :=
  let px_idx := findClosestIndex (xLines g) (p_x p) in
  let pz_idx := findClosestIndex (zLines g) (p_z p) in
  let num_x_plates_moment := Math_round_x (p_length p / mesh_size) in
  let num_z_plates_moment := Math_round_x (p_width p / mesh_size) in
  {| start_x := floor_sub_half px_idx num_x_plates_moment;
     end_x := ceil_add_half px_idx num_x_plates_moment;
     start_z := floor_sub_half pz_idx num_z_plates_moment;
     end_z := ceil_add_half pz_idx num_z_plates_moment |}.

Definition widen (r : ranges) (numPlatesToAdd : intnum) : ranges :=
  {| start_x := intnum_sub (start_x r) numPlatesToAdd;
     end_x := intnum_add (end_x r) numPlatesToAdd;
     start_z := intnum_sub (start_z r) numPlatesToAdd;
     end_z := intnum_add (end_z r) numPlatesToAdd |}.

Definition one_way_ranges (g : grid) (mesh_size plateThickness : float) (p : point)
  : ranges :=
  widen (moment_ranges g mesh_size p) (Math_round_x (plateThickness / mesh_size)).

Definition two_way_ranges (g : grid) (mesh_size plateThickness : float) (p : point)
  : ranges :=
  widen (moment_ranges g mesh_size p)
        (Math_round_x (plateThickness / (2 * mesh_size))).

(** The cells [(xi, zi)] the two nested loops visit. *)
Definition range_cells (g : grid) (r : ranges) : list (Z * Z) :=
  let nx_plates := Z.of_nat (length (xLines g)) - 1 in
  let nz_plates := Z.of_nat (length (zLines g)) - 1 in
  flat_map (fun xi => map (fun zi => (xi, zi)) (index_range nz_plates (start_z r) (end_z r)))
           (index_range nx_plates (start_x r) (end_x r)).

(** The plate ids the loop body adds: those the map holds and that are truthy. *)
Definition cell_plate (ids : gmap string Z) (c : Z * Z) : list Z :=
  match ids !! cellKey (fst c) (snd c) with
  | Some plateId => if plateId =? 0 then [] else [plateId]
  | None => []
  end.

Definition range_plates (ids : gmap string Z) (g : grid) (r : ranges) : list Z :=
  flat_map (cell_plate ids) (range_cells g r).

(** The three sets of one pedestal ([momentPlatesForPedestal] and the two
    others of the bounding-box computation). *)
Definition momentPlatesForPedestal (ids : gmap string Z) (g : grid)
    (mesh_size : float) (p : point) : gset Z :=
  list_to_set (range_plates ids g (moment_ranges g mesh_size p)).

Definition oneWayShearPlatesForPedestal (ids : gmap string Z) (g : grid)
    (mesh_size plateThickness : float) (p : point) : gset Z :=
  list_to_set (range_plates ids g (one_way_ranges g mesh_size plateThickness p)).

Definition twoWayShearPlatesForPedestal (ids : gmap string Z) (g : grid)
    (mesh_size plateThickness : float) (p : point) : gset Z :=
  list_to_set (range_plates ids g (two_way_ranges g mesh_size plateThickness p)).

(** The three sets the grouping loop fills. *)
Record plate_sets : Type := {
  momentPlates : gset Z;
  oneWayShearPlates : gset Z;
  twoWayShearPlates_set : gset Z
}.

Definition group_point (ids : gmap string Z) (g : grid)
    (mesh_size plateThickness : float) (st : plate_sets) (p : point) : plate_sets :=
  {| momentPlates :=
       momentPlates st ∪ momentPlatesForPedestal ids g mesh_size p;
     oneWayShearPlates :=
       oneWayShearPlates st ∪ oneWayShearPlatesForPedestal ids g mesh_size plateThickness p;
     twoWayShearPlates_set :=
       twoWayShearPlates_set st ∪ twoWayShearPlatesForPedestal ids g mesh_size plateThickness p |}.

Definition group_points (ids : gmap string Z) (g : grid)
    (mesh_size plateThickness : float) (points : list point) : plate_sets :=
  fold_left (group_point ids g mesh_size plateThickness) points
    {| momentPlates := ∅; oneWayShearPlates := ∅; twoWayShearPlates_set := ∅ |}.

(** [Array.from(set).sort((a, b) => a - b)] on plate ids. *)
Definition sorted_ids (s : gset Z) : list Z := merge_sort Z.le (elements s).

(** What the third [useMemo] returns. *)
Record groups : Set := {
  groupedPlates : list Z;
  shearPlates : list Z;
  twoWayShearPlates : list Z
}.

Definition classify (points : list point) (g : grid) (ids : gmap string Z)
    (mesh_size plateThickness : float) : groups :=
  let st := group_points ids g mesh_size plateThickness points in
  {| groupedPlates := sorted_ids (momentPlates st);
     shearPlates := sorted_ids (oneWayShearPlates st);
     twoWayShearPlates := sorted_ids (twoWayShearPlates_set st) |}.

(** ** App.jsx: export text *)

Definition toUpperCase_ascii (c : ascii) : ascii :=
  let n := nat_of_ascii c in
  if ((97 <=? n) && (n <=? 122))%nat then ascii_of_nat (n - 32) else c.

Fixpoint toUpperCase (s : string) : string :=
  match s with
  | EmptyString => EmptyString
  | String c rest => String (toUpperCase_ascii c) (toUpperCase rest)
  end.

(** One round of [for (const id of ids)] in [formatGroupLines], on the pair
    of [lines] and [currentLine]. *)
Definition group_step (st : list string * string) (id : Z) : list string * string :=
  let idStr := string_of_Z id in
  let potentialNextLine := snd st +:+ " " +:+ idStr in
  if (60 <? String.length potentialNextLine)%nat
  then (fst st ++ [snd st +:+ " -"], idStr)
  else (fst st, potentialNextLine).

Definition formatGroupLines (groupName : string) (ids : list Z) : list string :=
  let st := fold_left group_step ids ([], "_" +:+ toUpperCase groupName) in
  if String.eqb (snd st) ("_" +:+ toUpperCase groupName)
  then fst st
  else fst st ++ [snd st].

(** One round of the packing of joints and of plate incidences, on the pair
    of the lines pushed so far and [currentLine]; [charLimit] is 74. *)
Definition pack_step (st : list string * string) (tokenStr : string)
  : list string * string :=
  if String.eqb (snd st) "" then (fst st, tokenStr)
  else if (String.length (snd st +:+ "; " +:+ tokenStr) <=? 74)%nat
  then (fst st, snd st +:+ "; " +:+ tokenStr)
  else (fst st ++ [snd st +:+ ";"], tokenStr).

Definition pack_lines (tokens : list string) : list string :=
  let st := fold_left pack_step tokens ([], ""%string) in
  if String.eqb (snd st) "" then fst st else fst st ++ [snd st +:+ ";"].

Definition jointStr (n : node) : string :=
  string_of_Z (n_id n) +:+ " " +:+ Number_toString (round3 (n_x n)) +:+ " " +:+
  Number_toString (round3 (n_y n)) +:+ " " +:+ Number_toString (round3 (n_z n)).

Definition plateStr (p : plate) : string :=
  string_of_Z (pl_id p) +:+ " " +:+ String.concat " " (map string_of_Z (pl_nodes p)).

Definition joint_lines (nodes : list node) : list string :=
  pack_lines (map jointStr nodes).

Definition incidence_lines (plates : list plate) : list string :=
  pack_lines (map plateStr plates).

Definition group_lines (gr : groups) : list string :=
  if (0 <? length (groupedPlates gr))%nat || (0 <? length (shearPlates gr))%nat
     || (0 <? length (twoWayShearPlates gr))%nat
  then ["START GROUP DEFINITION"; "ELEMENT"]%string
       ++ (if (0 <? length (groupedPlates gr))%nat
           then formatGroupLines "MOMENT" (groupedPlates gr) else [])
       ++ (if (0 <? length (shearPlates gr))%nat
           then formatGroupLines "1_WAY_SHEAR" (shearPlates gr) else [])
       ++ (if (0 <? length (twoWayShearPlates gr))%nat
           then formatGroupLines "2_WAY_SHEAR" (twoWayShearPlates gr) else [])
       ++ ["END GROUP DEFINITION"%string]
  else [].

Definition property_lines (plates : list plate) (plateThickness : float)
  : list string :=
  if (0 <? length plates)%nat
  then ["ELEMENT PROPERTY"%string;
        "1 TO " +:+ string_of_Z (Z.of_nat (length plates)) +:+ " THICKNESS " +:+
        Number_toString (round3 plateThickness) +:+ ";"]
  else [].

(** The first [members.forEach]: the lines, [memberIdMap] and
    [memberIdCounter]. *)
Definition incidence_step (st : list string * gmap Z Z * Z) (m : member)
  : list string * gmap Z Z * Z :=
  let '(lines, memberIdMap, memberIdCounter) := st in
  let memberId := memberIdCounter in
  (lines ++ [string_of_Z memberId +:+ " " +:+ string_of_Z (startNode m) +:+ " " +:+
             string_of_Z (endNode m) +:+ ";"],
   <[p_id (pointData m) := memberId]> memberIdMap,
   memberIdCounter + 1).

(** The second [members.forEach]. *)
Definition prism_line (memberIdMap : gmap Z Z) (m : member) : list string :=
  match memberIdMap !! p_id (pointData m) with
  | Some memberId =>
      if memberId =? 0 then []
      else [string_of_Z memberId +:+ " PRISM YD " +:+
            Number_toString (round3 (p_length (pointData m))) +:+ " ZD " +:+
            Number_toString (round3 (p_width (pointData m))) +:+ ";"]
  | None => []
  end.

Definition material_lines : list string :=
  ["DEFINE MATERIAL START"; "ISOTROPIC CONCRETE"; "E 2.17185e+07"; "POISSON 0.17";
   "DENSITY 23.5616"; "ALPHA 1e-05"; "DAMP 0.05"; "G 9.28139e+06"; "TYPE CONCRETE";
   "STRENGTH FCU 27579"; "END DEFINE MATERIAL"; "CONSTANTS";
   "MATERIAL CONCRETE ALL"; "MEMBER PROPERTY"]%string.

Definition member_lines (plates : list plate) (members : list member)
  : list string :=
  let lastPlateId := match last plates with
                     | Some p => pl_id p
                     | None => 0
                     end in
  if (0 <? length members)%nat
  then
    let '(lines, memberIdMap, _) :=
      fold_left incidence_step members (["MEMBER INCIDENCES"%string], ∅, lastPlateId + 1) in
    lines ++ material_lines ++ flat_map (prism_line memberIdMap) members
  else [].

(** The lines of the export; [formattedDate] stands for
    [format(new Date(), 'dd-MMM-yy')]. *)
Definition header_lines (formattedDate : string) : list string :=
  ["STAAD SPACE"; "START JOB INFORMATION"; "ENGINEER DATE " +:+ formattedDate;
   "END JOB INFORMATION"; "INPUT WIDTH 79"; "UNIT METER KN"]%string.

Definition body_lines (m : mesh) (gr : groups) (plateThickness : float)
  : list string :=
  ["JOINT COORDINATES"%string]
  ++ joint_lines (nodes m)
  ++ ["ELEMENT INCIDENCES SHELL"%string]
  ++ incidence_lines (plates m)
  ++ group_lines gr
  ++ property_lines (plates m) plateThickness
  ++ member_lines (plates m) (members m)
  ++ ["FINISH"%string].

Definition exportLines (formattedDate : string) (m : mesh) (gr : groups)
    (plateThickness : float) : list string :=
  header_lines formattedDate ++ body_lines m gr plateThickness.

Definition exportText (formattedDate : string) (m : mesh) (gr : groups)
    (plateThickness : float) : string :=
  String.concat (String "010" EmptyString) (exportLines formattedDate m gr plateThickness).

(** ** The pipeline on the store's fields *)

(** The fields of the store that the computations read. *)
Record store : Set := {
  s_length : float;
  s_width : float;
  s_mesh : float;
  s_pedestalHeight : float;
  s_plateThickness : float;
  s_zOrientation : string;
  s_points : list point
}.

Record model : Type := {
  model_grid : grid;
  model_mesh : mesh;
  model_groups : groups;
  model_lines : list string
}.

Definition run (formattedDate : string) (s : store) : option model :=
  match gridLines (s_points s) (s_length s) (s_width s) (s_mesh s) with
  | Some g =>
      let m := synthesize (xLines g) (zLines g) (s_pedestalHeight s) (s_points s)
                          (s_zOrientation s) in
      let gr := classify (s_points s) g (plateIds m) (s_mesh s) (s_plateThickness s) in
      Some {| model_grid := g; model_mesh := m; model_groups := gr;
              model_lines := exportLines formattedDate m gr (s_plateThickness s) |}
  | None => None
  end.

(** ** Notions used in the statements *)

(** [s.includes(pat)] on strings. *)
Fixpoint has_substring (pat s : string) : bool :=
  String.prefix pat s ||
  match s with
  | EmptyString => false
  | String _ rest => has_substring pat rest
  end.

(** The store's initial state with no pedestal: plan 6 by 4, mesh 0.2. *)
Definition plain_store : store :=
  {| s_length := 6; s_width := 4; s_mesh := 0.2; s_pedestalHeight := 0;
     s_plateThickness := 0.3; s_zOrientation := "down"; s_points := [] |}.

(** The pairs [(x, z)] in the order in which [for z ... for x ...] meets them. *)
Definition row_major {A B : Type} (xs : list A) (zs : list B) : list (A * B) :=
  flat_map (fun z => map (fun x => (x, z)) xs) zs.

(** A pedestal lands on the grid when the key of its center is the key of
    a surface node. *)
Definition on_grid (xLines zLines : list float) (p : point) : bool :=
  existsb (fun c => String.eqb (coordKey (fst c) (snd c)) (coordKey (p_x p) (p_z p)))
          (row_major xLines zLines).

(** The test of [points.forEach]: the key of the pedestal's center has a
    truthy node id. *)
Definition attaches (byCoord : gmap string Z) (p : point) : bool :=
  match byCoord !! coordKey (p_x p) (p_z p) with
  | Some surfaceNodeId => negb (surfaceNodeId =? 0)
  | None => false
  end.

(** A pedestal node and the member that were pushed together for one pedestal. *)
Definition pedestal_pair (byCoord : gmap string Z) (pedestalHeight : float)
    (points : list point) (n : node) (mb : member) : Prop :=
  endNode mb = n_id n
  /\ byCoord !! coordKey (p_x (pointData mb)) (p_z (pointData mb)) = Some (startNode mb)
  /\ In (pointData mb) points
  /\ attaches byCoord (pointData mb) = true
  /\ n_x n = p_x (pointData mb) /\ n_z n = p_z (pointData mb)
  /\ n_y n = pedestalHeight /\ n_type n = pedestal.

(** The store with one pedestal of 0.5 by 0.3 at (3, 2) and pedestals 0.5 high. *)
Definition pedestal_store : store :=
  {| s_length := 6; s_width := 4; s_mesh := 0.2; s_pedestalHeight := 0.5;
     s_plateThickness := 0.3; s_zOrientation := "down";
     s_points := [{| p_id := 1; p_x := 3; p_z := 2; p_length := 0.5; p_width := 0.3 |}] |}.


(** [m * 2^e] in units of [2^-scale]: an integer for every exponent that a
    quotient or a product of two doubles meets. *)
Definition scale : Z := 2200.

Definition scaled (m e : Z) : Z := m * 2 ^ (e + scale).

(** The number a rounding step works on lies in the interval of [mrs] at
    exponent [e]: with [x = X / (D * 2^scale)],
    [m * 2^e <= x < (m + 1) * 2^e], and the round bit tells that [x] is in
    the upper half. *)
Definition encloses (X D : Z) (mrs : shr_record) (e : Z) : Prop :=
  0 <= shr_m mrs
  /\ - scale <= e
  /\ scaled (shr_m mrs) e * D <= X < scaled (shr_m mrs + 1) e * D
  /\ (shr_r mrs = true -> scaled (2 * shr_m mrs + 1) e * D <= 2 * X).

(** What [binary_round_aux] returns for the mantissa [m] and exponent [e]
    it ends with. *)
Definition rounded (sx : bool) (m e : Z) : spec_float :=
  match m with
  | Zpos p => if e <=? emax - prec then S754_finite sx p e else S754_infinity sx
  | Z0 => S754_zero sx
  | Zneg _ => S754_nan
  end.

(** The expansion [k2] widens a range no more than [k1] does. *)
Definition expansion_le (k2 k1 : intnum) : Prop :=
  match k2, k1 with
  | INaN, _ => True
  | INegInf, _ => True
  | IFin a, IFin b => a <= b
  | IFin _, IPosInf => True
  | IPosInf, IPosInf => True
  | _, _ => False
  end.

(** [count] multiples of [step], from 0 on, as doubles. *)
Definition multiples (step : float) (count : nat) : list float :=
  map (fun j => (float_of_Z j * step)%float) (zseq 0 count).

(** ** App.jsx and PedestalList.jsx: editing the pedestals *)

(** [v || d] on numbers: [d] when [v] is falsy, that is NaN, +0 or -0. *)
Definition or_default (v d : float) : float :=
  if is_nan v || is_zero v then d else v.









(** The four [onChange] handlers of a row of [PedestalList]; [parsed] is
    [parseFloat(e.target.value)]. *)
Definition onChangeX (id : Z) (parsed length : float) (arr : list point)
  : list point :=
  let v := clamp (or_default parsed 0) 0 length in
  map (fun q => if p_id q =? id
                then {| p_id := p_id q; p_x := v; p_z := p_z q;
                        p_length := p_length q; p_width := p_width q |}
                else q) arr.

Definition onChangeZ (id : Z) (parsed width : float) (arr : list point)
  : list point :=
  let v := clamp (or_default parsed 0) 0 width in
  map (fun q => if p_id q =? id
                then {| p_id := p_id q; p_x := p_x q; p_z := v;
                        p_length := p_length q; p_width := p_width q |}
                else q) arr.

Definition onChangeLength (id : Z) (parsed : float) (arr : list point)
  : list point :=
  let v := Math_max 0.1 (or_default parsed 0.1) in
  map (fun q => if p_id q =? id
                then {| p_id := p_id q; p_x := p_x q; p_z := p_z q;
                        p_length := v; p_width := p_width q |}
                else q) arr.

Definition onChangeWidth (id : Z) (parsed : float) (arr : list point)
  : list point :=
  let v := Math_max 0.1 (or_default parsed 0.1) in
  map (fun q => if p_id q =? id
                then {| p_id := p_id q; p_x := p_x q; p_z := p_z q;
                        p_length := p_length q; p_width := v |}
                else q) arr.

(** The values the number fields of [App] store for a parsed input: plan
    length and width, mesh, pedestal height and plate thickness. *)
Definition planSizeInput (parsed : float) : float :=
  Math_max 0.1 (or_default parsed 0.1).

Definition meshInput (parsed : float) : float :=
  Math_max 0.01 (or_default parsed 0.5).

Definition pedestalHeightInput (parsed : float) : float := or_default parsed 0.

Definition plateThicknessInput (parsed : float) : float := or_default parsed 0.01.

(** ** Notions used in the statements, continued *)

(** A comparison that holds for [<=]. *)
Definition below (c : comparison) : bool :=
  match c with Gt => false | _ => true end.

(** The numbers of [l] grow strictly from each position to the later ones. *)
Definition increasing (l : list float) : Prop :=
  forall i j a b, (i < j)%nat ->
    nth_error l i = Some a -> nth_error l j = Some b -> (a <? b)%float = true.

(** A line other than the three lines that open the optional sections of
    the export. *)
Definition plain_line (l : string) : Prop :=
  l <> "START GROUP DEFINITION"%string /\ l <> "ELEMENT PROPERTY"%string
  /\ l <> "MEMBER INCIDENCES"%string.

(** ** App.jsx: the bounding boxes of the groups *)

(** The rectangle drawn for a group of a pedestal. *)
Record box : Set := {
  box_x : float;
  box_y : float;
  box_width : float;
  box_height : float
}.

(** The four variables [minX], [maxX], [minZ], [maxZ]. *)
Record extent : Set := {
  minX : float;
  maxX : float;
  minZ : float;
  maxZ : float
}.

Definition extent_init : extent :=
  {| minX := infinity; maxX := neg_infinity; minZ := infinity; maxZ := neg_infinity |}.

(** The body of [plate.nodes.forEach]. *)
Definition extent_node (nodes : list node) (e : extent) (nodeId : Z) : extent :=
  match List.find (fun n => n_id n =? nodeId) nodes with
  | Some node =>
      {| minX := Math_min (minX e) (n_x node);
         maxX := Math_max (maxX e) (n_x node);
         minZ := Math_min (minZ e) (n_z node);
         maxZ := Math_max (maxZ e) (n_z node) |}
  | None => e
  end.

(** The body of [plateIds.forEach]. *)
Definition extent_plate (plates : list plate) (nodes : list node) (e : extent)
    (plateId : Z) : extent :=
  match List.find (fun p => pl_id p =? plateId) plates with
  | Some plate => fold_left (extent_node nodes) (pl_nodes plate) e
  | None => e
  end.

(** [getBoundingBoxForPlates]; [None] stands for null. *)
Definition getBoundingBoxForPlates (plates : list plate) (nodes : list node)
    (plateIds : list Z) : option box :=
  match plateIds with
  | [] => None
  | _ =>
      let e := fold_left (extent_plate plates nodes) plateIds extent_init in
      Some {| box_x := minX e; box_y := minZ e;
              box_width := maxX e - minX e; box_height := maxZ e - minZ e |}
  end.

(** [Array.from(set)] for a [Set] that was filled with [ids] one by one: the
    ids in the order of their first insertion. *)
Definition Array_from_Set (ids : list Z) : list Z :=
  fold_left (fun s id => if existsb (Z.eqb id) s then s else s ++ [id]) ids [].

(** The box of one group of one pedestal, from the index ranges of the
    group. *)
Definition group_box (m : mesh) (g : grid) (r : ranges) : option box :=
  getBoundingBoxForPlates (plates m) (nodes m)
    (Array_from_Set (range_plates (plateIds m) g r)).

(** The three arrays of boxes. *)
Record group_boxes : Set := {
  moment_boxes : list box;
  oneWayShear_boxes : list box;
  twoWayShear_boxes : list box
}.

(** [if (box) boxes.push(box)]. *)
Definition push_box (boxes : list box) (b : option box) : list box :=
  match b with
  | Some b => boxes ++ [b]
  | None => boxes
  end.

(** The body of [points.forEach] in [pedestalGroupBoundingBoxes]. *)
Definition boxes_point (m : mesh) (g : grid) (mesh_size plateThickness : float)
    (st : group_boxes) (p : point) : group_boxes :=
  {| moment_boxes :=
       push_box (moment_boxes st) (group_box m g (moment_ranges g mesh_size p));
     oneWayShear_boxes :=
       push_box (oneWayShear_boxes st)
                (group_box m g (one_way_ranges g mesh_size plateThickness p));
     twoWayShear_boxes :=
       push_box (twoWayShear_boxes st)
                (group_box m g (two_way_ranges g mesh_size plateThickness p)) |}.

Definition pedestalGroupBoundingBoxes (m : mesh) (g : grid)
    (mesh_size plateThickness : float) (points : list point) : group_boxes :=
  fold_left (boxes_point m g mesh_size plateThickness) points
    {| moment_boxes := []; oneWayShear_boxes := []; twoWayShear_boxes := [] |}.

(** * Properties *)

(** ** Loops *)

Lemma zseq_length (lo : Z) (n : nat) : List.length (zseq lo n) = n.
Proof. unfold zseq. now rewrite length_map, length_seq. Qed.

Lemma zseq_snoc (lo : Z) (n : nat) :
  zseq lo (S n) = zseq lo n ++ [lo + Z.of_nat n].
Proof. unfold zseq. now rewrite seq_S, map_app. Qed.

Lemma in_zseq (lo : Z) (n : nat) (i : Z) :
  In i (zseq lo n) <-> lo <= i < lo + Z.of_nat n.
Proof.
  unfold zseq. rewrite in_map_iff. split.
  - intros (k & <- & Hk). apply in_seq in Hk. lia.
  - intros H. exists (Z.to_nat (i - lo)). split; [lia|]. apply in_seq. lia.
Qed.

Lemma fold_left_map_arg {A B S : Type} (f : S -> B -> S) (g : A -> B)
    (l : list A) (st : S) :
  fold_left f (map g l) st = fold_left (fun st a => f st (g a)) l st.
Proof. revert st. induction l as [|a l IH]; intros st; simpl; auto. Qed.

Lemma fold_left_nested {A B S : Type} (f : B -> S -> A -> S)
    (xs : list A) (zs : list B) (st : S) :
  fold_left (fun st z => fold_left (f z) xs st) zs st =
  fold_left (fun st c => f (snd c) st (fst c)) (row_major xs zs) st.
Proof.
  revert st. induction zs as [|z zs IH]; intros st; simpl; [reflexivity|].
  rewrite fold_left_app, fold_left_map_arg. simpl. apply IH.
Qed.

Lemma row_major_length {A B : Type} (xs : list A) (zs : list B) :
  List.length (row_major xs zs) = (List.length zs * List.length xs)%nat.
Proof.
  unfold row_major. induction zs as [|z zs IH]; simpl; [reflexivity|].
  now rewrite length_app, length_map, IH.
Qed.

Lemma in_row_major {A B : Type} (xs : list A) (zs : list B) (c : A * B) :
  In c (row_major xs zs) <-> In (fst c) xs /\ In (snd c) zs.
Proof.
  unfold row_major. rewrite in_flat_map. split.
  - intros (z & Hz & Hc). apply in_map_iff in Hc as (x & <- & Hx). simpl. auto.
  - intros [Hx Hz]. exists (snd c). split; [assumption|].
    apply in_map_iff. exists (fst c). now destruct c.
Qed.

(** ** Surface nodes *)

Lemma surface_nodes_flat (xL zL : list float) :
  surface_nodes xL zL =
  fold_left (fun st c => surface_node (snd c) st (fst c)) (row_major xL zL) synth_init.
Proof. unfold surface_nodes, surface_row. apply fold_left_nested. Qed.

Lemma surface_fold_spec (cs : list (float * float)) :
  let st := fold_left (fun st c => surface_node (snd c) st (fst c)) cs synth_init in
  map n_id (allNodes st) = zseq 1 (List.length cs)
  /\ map (fun n => (n_x n, n_z n)) (allNodes st) = cs
  /\ Forall (fun n => n_type n = surface) (allNodes st)
  /\ nodeIdCounter st = 1 + Z.of_nat (List.length cs)
  /\ newMembers st = []
  /\ (forall k id, surfaceNodesByCoord st !! k = Some id ->
        1 <= id <= Z.of_nat (List.length cs)
        /\ exists c, In c cs /\ coordKey (fst c) (snd c) = k)
  /\ (forall c, In c cs -> is_Some (surfaceNodesByCoord st !! coordKey (fst c) (snd c))).
Proof.
  induction cs as [|c cs IH] using rev_ind; simpl.
  - repeat apply conj;
      [reflexivity | reflexivity | constructor | reflexivity | reflexivity | | ].
    + intros k id; rewrite lookup_empty; discriminate.
    + intros c [].
  - rewrite fold_left_app. simpl.
    set (st := fold_left _ cs synth_init) in *.
    destruct IH as (Hid & Hxz & Hty & Hctr & Hmem & Hval & Hkey).
    rewrite length_app, Nat.add_1_r. simpl.
    repeat apply conj.
    + rewrite map_app, Hid, zseq_snoc, Hctr. reflexivity.
    + rewrite map_app, Hxz. now destruct c.
    + apply Forall_app. split; [assumption|]. now constructor.
    + rewrite Hctr. lia.
    + assumption.
    + intros k id H.
      destruct (decide (coordKey (fst c) (snd c) = k)) as [<-|Hne].
      * rewrite lookup_insert_eq in H. injection H as <-. split; [lia|].
        exists c. split; [apply in_or_app; right; now left | reflexivity].
      * rewrite lookup_insert_ne in H by assumption.
        apply Hval in H as (Hr & c' & Hc' & Hk). split; [lia|].
        exists c'. split; [|assumption]. apply in_or_app. now left.
    + intros c' Hc'. apply in_app_or in Hc' as [Hc'|[<-|[]]].
      * destruct (decide (coordKey (fst c) (snd c) = coordKey (fst c') (snd c'))) as [He|Hne].
        -- rewrite <- He, lookup_insert_eq. eauto.
        -- rewrite lookup_insert_ne by assumption. now apply Hkey.
      * rewrite lookup_insert_eq. eauto.
Qed.

(** ** Pedestal nodes and members *)

Lemma pedestal_fold_spec (h : float) (ps : list point) (st0 : synth) :
  let st := fold_left (pedestal_node h) ps st0 in
  surfaceNodesByCoord st = surfaceNodesByCoord st0
  /\ exists extra mems,
      allNodes st = allNodes st0 ++ extra
      /\ newMembers st = newMembers st0 ++ mems
      /\ List.length extra = List.length (List.filter (attaches (surfaceNodesByCoord st0)) ps)
      /\ map n_id extra = zseq (nodeIdCounter st0) (List.length extra)
      /\ nodeIdCounter st = nodeIdCounter st0 + Z.of_nat (List.length extra)
      /\ Forall2 (pedestal_pair (surfaceNodesByCoord st0) h ps) extra mems.
Proof.
  induction ps as [|p ps IH] using rev_ind; simpl.
  - split; [reflexivity|]. exists [], []. rewrite !app_nil_r. simpl.
    repeat apply conj; try reflexivity; [lia | constructor].
  - rewrite fold_left_app. simpl.
    set (st := fold_left _ ps st0) in *.
    destruct IH as (Hmap & extra & mems & Hn & Hm & Hlen & Hids & Hctr & Hpairs).
    assert (Hweak : Forall2 (pedestal_pair (surfaceNodesByCoord st0) h (ps ++ [p])) extra mems).
    { eapply Forall2_impl; [exact Hpairs|].
      intros n mb (? & ? & ? & ?). repeat apply conj; try tauto.
      apply in_or_app. now left. }
    rewrite List.filter_app, length_app.
    assert (Hatt : attaches (surfaceNodesByCoord st0) p =
                   match surfaceNodesByCoord st0 !! coordKey (p_x p) (p_z p) with
                   | Some sid => negb (sid =? 0)
                   | None => false
                   end) by reflexivity.
    cbn [List.filter]. unfold pedestal_node. rewrite Hmap.
    destruct (surfaceNodesByCoord st0 !! coordKey (p_x p) (p_z p)) as [sid|] eqn:Hlk.
    + destruct (sid =? 0) eqn:Hz; rewrite Hatt; cbn [negb List.length].
      * split; [assumption|]. exists extra, mems.
        rewrite Nat.add_0_r. repeat apply conj; assumption.
      * split; [reflexivity|].
        eexists (extra ++ [_]), (mems ++ [_]). cbn [allNodes newMembers nodeIdCounter].
        rewrite Hn, Hm, <- !app_assoc, !length_app. cbn [List.length].
        repeat apply conj; try reflexivity.
        -- lia.
        -- rewrite map_app, Hids, Nat.add_1_r, zseq_snoc, Hctr. reflexivity.
        -- rewrite Hctr. lia.
        -- apply Forall2_app; [assumption|]. constructor; [|constructor].
           unfold pedestal_pair, attaches. cbn [endNode n_id pointData startNode n_x n_y n_z n_type].
           rewrite Hlk, Hz.
           repeat apply conj; try reflexivity.
           apply in_or_app. right. now left.
    + rewrite Hatt. cbn [List.length]. split; [assumption|]. exists extra, mems.
      rewrite Nat.add_0_r. repeat apply conj; assumption.
Qed.

(** ** Plates *)

Lemma plate_cells_flat (xL zL : list float) (o : string) :
  plate_cells xL zL o =
  fold_left (fun st c => plate_cell (Z.of_nat (List.length xL)) o (snd c) st (fst c))
    (row_major (zseq 0 (List.length xL - 1)) (zseq 0 (List.length zL - 1)))
    plating_init.
Proof. unfold plate_cells, plate_row. apply fold_left_nested. Qed.

Lemma plate_fold_spec (nX : Z) (o : string) (cs : list (Z * Z)) :
  let st := fold_left (fun st c => plate_cell nX o (snd c) st (fst c)) cs plating_init in
  map pl_id (newPlates st) = zseq 1 (List.length cs)
  /\ map pl_nodes (newPlates st) = map (fun c => plate_order nX o (fst c) (snd c)) cs
  /\ plateIdCounter st = 1 + Z.of_nat (List.length cs)
  /\ (forall k id, plateIdByCoord st !! k = Some id -> 1 <= id <= Z.of_nat (List.length cs))
  /\ (forall c, In c cs -> is_Some (plateIdByCoord st !! cellKey (fst c) (snd c))).
Proof.
  induction cs as [|c cs IH] using rev_ind; simpl.
  - repeat apply conj; [reflexivity | reflexivity | reflexivity | | ].
    + intros k id; rewrite lookup_empty; discriminate.
    + intros c [].
  - rewrite fold_left_app. simpl.
    set (st := fold_left _ cs plating_init) in *.
    destruct IH as (Hid & Hnodes & Hctr & Hval & Hkey).
    rewrite length_app, Nat.add_1_r. simpl.
    repeat apply conj.
    + rewrite map_app, Hid, zseq_snoc, Hctr. reflexivity.
    + rewrite !map_app, Hnodes. reflexivity.
    + rewrite Hctr. lia.
    + intros k id H.
      destruct (decide (cellKey (fst c) (snd c) = k)) as [<-|Hne].
      * rewrite lookup_insert_eq in H. injection H as <-. lia.
      * rewrite lookup_insert_ne in H by assumption. apply Hval in H. lia.
    + intros c' Hc'. apply in_app_or in Hc' as [Hc'|[<-|[]]].
      * destruct (decide (cellKey (fst c) (snd c) = cellKey (fst c') (snd c'))) as [He|Hne].
        -- rewrite <- He, lookup_insert_eq. eauto.
        -- rewrite lookup_insert_ne by assumption. now apply Hkey.
      * rewrite lookup_insert_eq. eauto.
Qed.

Lemma zseq_app (lo : Z) (a b : nat) :
  zseq lo (a + b) = zseq lo a ++ zseq (lo + Z.of_nat a) b.
Proof.
  induction b as [|b IH].
  - rewrite Nat.add_0_r. unfold zseq at 3. simpl. now rewrite app_nil_r.
  - rewrite Nat.add_succ_r, !zseq_snoc, IH, <- app_assoc. do 3 f_equal. lia.
Qed.

(** ** The mesh as a whole *)

Lemma attaches_on_grid (xL zL : list float) (p : point) :
  attaches (surfaceNodesByCoord (surface_nodes xL zL)) p = on_grid xL zL p.
Proof.
  rewrite surface_nodes_flat. unfold attaches, on_grid.
  destruct (surface_fold_spec (row_major xL zL)) as (_ & _ & _ & _ & _ & Hval & Hkey).
  destruct (_ !! coordKey (p_x p) (p_z p)) as [sid|] eqn:Hlk.
  - apply Hval in Hlk as (Hr & c & Hc & Hk).
    replace (sid =? 0) with false by (symmetry; apply Z.eqb_neq; lia). simpl.
    symmetry. apply existsb_exists. exists c. split; [assumption|].
    now apply String.eqb_eq.
  - symmetry. apply not_true_iff_false. intros H.
    apply existsb_exists in H as (c & Hc & Hk). apply String.eqb_eq in Hk.
    apply Hkey in Hc. rewrite Hk, Hlk in Hc. now destruct Hc.
Qed.

Lemma in_ids_node (l : list node) (n0 : nat) (lo id : Z) :
  map n_id l = zseq lo n0 -> lo <= id < lo + Z.of_nat n0 ->
  exists n, In n l /\ n_id n = id.
Proof.
  intros Hl Hid. apply in_zseq in Hid. rewrite <- Hl in Hid.
  apply in_map_iff in Hid as (n & Hn & Hin). eauto.
Qed.

(** The nodes are the surface nodes, row by row, then one pedestal node for
    each member. *)
Lemma synthesize_nodes (xL zL : list float) (h : float) (pts : list point)
    (o : string) :
  let m := synthesize xL zL h pts o in
  let byCoord := surfaceNodesByCoord (surface_nodes xL zL) in
  exists surf extra,
    nodes m = surf ++ extra
    /\ map n_id surf = zseq 1 (List.length zL * List.length xL)
    /\ Forall (fun n => n_type n = surface) surf
    /\ map n_id extra = zseq (1 + Z.of_nat (List.length zL * List.length xL))
                             (List.length extra)
    /\ List.length extra =
       (if (1e-9 <? h)%float then List.length (List.filter (on_grid xL zL) pts) else 0%nat)
    /\ Forall2 (pedestal_pair byCoord h pts) extra (members m)
    /\ (forall k id, byCoord !! k = Some id ->
          1 <= id <= Z.of_nat (List.length zL * List.length xL)).
Proof.
  cbn zeta. unfold synthesize; cbn [nodes members].
  pose proof (surface_fold_spec (row_major xL zL)) as Hs. cbn zeta in Hs.
  rewrite <- surface_nodes_flat, row_major_length in Hs.
  destruct Hs as (Hid & _ & Hty & Hctr & Hmem & Hval & _).
  exists (allNodes (surface_nodes xL zL)).
  unfold pedestal_nodes. destruct (1e-9 <? h)%float.
  - destruct (pedestal_fold_spec h pts (surface_nodes xL zL))
      as (_ & extra & mems & Hn & Hm & Hlen & Hids & _ & Hpairs).
    exists extra. rewrite Hn, Hm, Hmem. cbn [app].
    repeat apply conj; try assumption; try (now rewrite Hids, Hctr).
    + reflexivity.
    + rewrite Hlen. f_equal. apply List.filter_ext. intros p. apply attaches_on_grid.
    + intros k id H. now apply Hval in H.
  - exists []. rewrite app_nil_r, Hmem.
    repeat apply conj; try assumption; try reflexivity.
    + constructor.
    + intros k id H. now apply Hval in H.
Qed.

Lemma synthesize_plates (xL zL : list float) (h : float) (pts : list point)
    (o : string) :
  let m := synthesize xL zL h pts o in
  let cs := row_major (zseq 0 (List.length xL - 1)) (zseq 0 (List.length zL - 1)) in
  map pl_id (plates m) = zseq 1 (List.length cs)
  /\ map pl_nodes (plates m) =
     map (fun c => plate_order (Z.of_nat (List.length xL)) o (fst c) (snd c)) cs
  /\ (forall k id, plateIds m !! k = Some id -> 1 <= id <= Z.of_nat (List.length cs))
  /\ (forall c, In c cs -> is_Some (plateIds m !! cellKey (fst c) (snd c))).
Proof.
  cbn zeta. unfold synthesize; cbn [plates plateIds]. rewrite plate_cells_flat.
  destruct (plate_fold_spec (Z.of_nat (List.length xL)) o
              (row_major (zseq 0 (List.length xL - 1)) (zseq 0 (List.length zL - 1))))
    as (H1 & H2 & _ & H3 & H4).
  repeat apply conj; assumption.
Qed.

(** ** Plate groups: what a range visits *)

Lemma in_index_range (count : Z) (start stop : intnum) (i : Z) :
  In i (index_range count start stop) -> 0 <= i < count.
Proof.
  unfold index_range.
  destruct start, stop; cbn; try contradiction; rewrite in_zseq; lia.
Qed.

Lemma in_range_cells (g : grid) (r : ranges) (c : Z * Z) :
  In c (range_cells g r) ->
  0 <= fst c < Z.of_nat (List.length (xLines g)) - 1
  /\ 0 <= snd c < Z.of_nat (List.length (zLines g)) - 1.
Proof.
  unfold range_cells. rewrite in_flat_map. intros (xi & Hxi & Hc).
  apply in_map_iff in Hc as (zi & <- & Hzi). simpl.
  apply in_index_range in Hxi, Hzi. lia.
Qed.

Lemma in_range_plates (ids : gmap string Z) (g : grid) (r : ranges) (id : Z) :
  In id (range_plates ids g r) <->
  exists c, In c (range_cells g r) /\ ids !! cellKey (fst c) (snd c) = Some id /\ id <> 0.
Proof.
  unfold range_plates. rewrite in_flat_map. unfold cell_plate. split.
  - intros (c & Hc & Hid). exists c. split; [assumption|].
    destruct (ids !! cellKey (fst c) (snd c)) as [pid|]; [|contradiction].
    destruct (pid =? 0) eqn:Hz; [contradiction|].
    destruct Hid as [<-|[]]. split; [reflexivity|]. now apply Z.eqb_neq.
  - intros (c & Hc & Hlk & Hnz). exists c. split; [assumption|].
    rewrite Hlk. apply Z.eqb_neq in Hnz. rewrite Hnz. now left.
Qed.

Lemma in_sorted_ids (s : gset Z) (id : Z) : In id (sorted_ids s) <-> id ∈ s.
Proof.
  unfold sorted_ids. rewrite <- list_elem_of_In, merge_sort_Permutation.
  apply elem_of_elements.
Qed.

Lemma exists_in_snoc {A : Type} (P : A -> Prop) (l : list A) (a : A) :
  (exists x, In x (l ++ [a]) /\ P x) <-> (exists x, In x l /\ P x) \/ P a.
Proof.
  split.
  - intros (x & Hx & H). apply in_app_or in Hx as [Hx|[<-|[]]]; [left; eauto | now right].
  - intros [(x & Hx & H)|H]; [exists x | exists a]; (split; [|assumption]);
      apply in_or_app; [now left | right; now left].
Qed.

Lemma group_points_spec (ids : gmap string Z) (g : grid) (ms t : float)
    (pts : list point) (id : Z) :
  let st := group_points ids g ms t pts in
  (id ∈ momentPlates st <->
     exists p, In p pts /\ id ∈ momentPlatesForPedestal ids g ms p)
  /\ (id ∈ oneWayShearPlates st <->
     exists p, In p pts /\ id ∈ oneWayShearPlatesForPedestal ids g ms t p)
  /\ (id ∈ twoWayShearPlates_set st <->
     exists p, In p pts /\ id ∈ twoWayShearPlatesForPedestal ids g ms t p).
Proof.
  cbn zeta. unfold group_points.
  induction pts as [|p pts IH] using rev_ind.
  - cbn. split; [|split];
      (split; [intros H; now apply not_elem_of_empty in H | intros (p & [] & _)]).
  - rewrite fold_left_app. cbn [fold_left group_point momentPlates oneWayShearPlates
      twoWayShearPlates_set].
    destruct IH as (IH1 & IH2 & IH3).
    split; [|split]; rewrite elem_of_union, exists_in_snoc.
    + now rewrite IH1.
    + now rewrite IH2.
    + now rewrite IH3.
Qed.

(** ** Equality of doubles *)

Lemma SFeqb_true (X Y : spec_float) :
  SFeqb X Y = true ->
  X = Y \/ exists s1 s2, X = S754_zero s1 /\ Y = S754_zero s2.
Proof.
  unfold SFeqb, SFcompare.
  destruct X as [s1|s1| |s1 m1 e1], Y as [s2|s2| |s2 m2 e2]; intros H;
    try discriminate H; try (right; eauto; fail);
    try (destruct s1; discriminate H); try (destruct s2; discriminate H).
  - destruct s1, s2; try discriminate H; now left.
  - change (PosDef.Pos.compare_cont Eq m1 m2) with (Pos.compare m1 m2) in H.
    destruct s1, s2; try discriminate H;
      destruct (Z.compare_spec e1 e2); try discriminate H; subst;
      destruct (Pos.compare_spec m1 m2); try discriminate H; subst; now left.
Qed.

Lemma SFeqb_refl (X : spec_float) : X <> S754_nan -> SFeqb X X = true.
Proof.
  unfold SFeqb, SFcompare. destruct X as [s|s| |s m e]; try reflexivity.
  - now destruct s.
  - congruence.
  - intros _. change (PosDef.Pos.compare_cont Eq m m) with (Pos.compare m m).
    destruct s; rewrite (Z.compare_refl e), (Pos.compare_refl m); reflexivity.
Qed.

Lemma is_zero_spec (x : float) :
  is_zero x = true <-> exists s, Prim2SF x = S754_zero s.
Proof.
  unfold is_zero. rewrite FloatAxioms.eqb_spec. change (Prim2SF zero) with (S754_zero false).
  split.
  - intros H. apply SFeqb_true in H as [H|(s1 & s2 & H & _)]; eauto.
  - intros (s & ->). reflexivity.
Qed.

Lemma is_nan_spec (x : float) : is_nan x = true <-> Prim2SF x = S754_nan.
Proof.
  unfold is_nan. rewrite FloatAxioms.eqb_spec, negb_true_iff. split.
  - intros H. destruct (Prim2SF x) eqn:E; try reflexivity;
      rewrite SFeqb_refl in H by discriminate; discriminate.
  - intros ->. reflexivity.
Qed.

Lemma stored_idem (x : float) : stored (stored x) = stored x.
Proof.
  unfold stored. destruct (is_zero x) eqn:E; [reflexivity|]. now rewrite E.
Qed.

(** [sameValueZero] is equality of what a [Set] stores. *)
Lemma sameValueZero_stored (x y : float) :
  sameValueZero x y = true <-> stored x = stored y.
Proof.
  unfold sameValueZero, stored. split.
  - rewrite orb_true_iff, andb_true_iff. intros [H|[Hx Hy]].
    + rewrite FloatAxioms.eqb_spec in H. apply SFeqb_true in H as [H|(s1 & s2 & Hx & Hy)].
      * apply Prim2SF_inj in H. now subst.
      * assert (Zx : is_zero x = true) by (apply is_zero_spec; eauto).
        assert (Zy : is_zero y = true) by (apply is_zero_spec; eauto).
        now rewrite Zx, Zy.
    + apply is_nan_spec in Hx, Hy. assert (x = y) by (apply Prim2SF_inj; congruence).
      now subst.
  - destruct (is_zero x) eqn:Zx, (is_zero y) eqn:Zy; intros H.
    + apply is_zero_spec in Zx as (s1 & Hx), Zy as (s2 & Hy).
      rewrite FloatAxioms.eqb_spec, Hx, Hy. reflexivity.
    + subst y. discriminate.
    + subst x. discriminate.
    + subst y. unfold is_nan. now destruct (x =? x)%float.
Qed.

(** ** Sets of doubles *)

Lemma includes_stored (s : list float) (x : float) :
  Forall (fun e => stored e = e) s ->
  includes s x = true <-> In (stored x) s.
Proof.
  intros Hs. unfold includes. rewrite existsb_exists. split.
  - intros (e & He & H). apply sameValueZero_stored in H.
    rewrite List.Forall_forall in Hs. rewrite H, (Hs e He). exact He.
  - intros H. exists (stored x). split; [assumption|].
    apply sameValueZero_stored. now rewrite stored_idem.
Qed.

Lemma Set_add_spec (s : list float) (x : float) :
  NoDup s -> Forall (fun e => stored e = e) s ->
  NoDup (Set_add s x)
  /\ Forall (fun e => stored e = e) (Set_add s x)
  /\ (forall e, In e (Set_add s x) <-> In e s \/ e = stored x).
Proof.
  intros Hnd Hs. unfold Set_add.
  destruct (includes s x) eqn:E.
  - apply includes_stored in E; [|assumption].
    repeat apply conj; try assumption.
    intros e. split; [auto | intros [H| ->]; assumption].
  - assert (Hnot : ~ In (stored x) s).
    { intros H. apply includes_stored in H; [congruence | assumption]. }
    repeat apply conj.
    + apply NoDup_ListNoDup. apply NoDup_ListNoDup in Hnd.
      apply List.NoDup_rev in Hnd. rewrite <- (rev_involutive (s ++ _)), rev_app_distr.
      apply List.NoDup_rev. cbn. constructor; [|assumption].
      now rewrite <- in_rev.
    + apply Forall_app. split; [assumption|]. constructor; [apply stored_idem | constructor].
    + intros e. rewrite in_app_iff. cbn. intuition congruence.
Qed.

Lemma Set_fold_spec (arr s : list float) :
  NoDup s -> Forall (fun e => stored e = e) s ->
  NoDup (fold_left Set_add arr s)
  /\ Forall (fun e => stored e = e) (fold_left Set_add arr s)
  /\ (forall e, In e (fold_left Set_add arr s) <->
               In e s \/ exists x, In x arr /\ e = stored x).
Proof.
  revert s. induction arr as [|x arr IH]; intros s Hnd Hs; cbn [fold_left].
  - repeat apply conj; try assumption. intros e. split; [auto|].
    intros [H|(x & [] & _)]. assumption.
  - destruct (Set_add_spec s x Hnd Hs) as (Hnd' & Hs' & Hin).
    destruct (IH _ Hnd' Hs') as (H1 & H2 & H3).
    repeat apply conj; try assumption.
    intros e. rewrite H3, Hin. split.
    + intros [[H| ->]|(y & Hy & ->)]; [now left | right; exists x | right; exists y];
        (split; [|reflexivity]); [now left | now right].
    + intros [H|(y & [<-|Hy] & ->)]; [left; now left | left; now right | right; eauto].
Qed.

Lemma Set_of_spec (arr : list float) :
  NoDup (Set_of arr)
  /\ Forall (fun e => stored e = e) (Set_of arr)
  /\ (forall e, In e (Set_of arr) <-> exists x, In x arr /\ e = stored x).
Proof.
  destruct (Set_fold_spec arr []) as (H1 & H2 & H3); [constructor | constructor |].
  repeat apply conj; try assumption.
  intros e. rewrite H3. split; [intros [[]|H]; assumption | auto].
Qed.

(** ** Sorting *)

Lemma sort_insert_perm (x : float) (l : list float) :
  Permutation (sort_insert x l) (x :: l).
Proof.
  induction l as [|y l IH]; cbn; [reflexivity|].
  destruct (y - x <? 0)%float; [|reflexivity].
  rewrite IH. apply perm_swap.
Qed.

Lemma sort_numeric_perm (l : list float) : Permutation (sort_numeric l) l.
Proof.
  unfold sort_numeric. induction l as [|x l IH]; cbn; [reflexivity|].
  rewrite sort_insert_perm. now constructor.
Qed.

(** ** addDivisions *)

Lemma add_interior_spec (lines : list float) (a b step : float) (k : Z) :
  NoDup lines -> Forall (fun e => stored e = e) lines ->
  NoDup (add_interior lines a b step k)
  /\ Forall (fun e => stored e = e) (add_interior lines a b step k)
  /\ (forall e, In e lines -> In e (add_interior lines a b step k)).
Proof.
  unfold add_interior. generalize (zseq 1 (Z.to_nat k)) as js.
  intros js. revert lines. induction js as [|j js IH]; intros lines Hnd Hs; cbn [fold_left].
  - auto.
  - destruct (_ && _).
    + destruct (Set_add_spec lines (a + float_of_Z j * step)%float Hnd Hs) as (H1 & H2 & H3).
      destruct (IH _ H1 H2) as (H4 & H5 & H6).
      repeat apply conj; try assumption.
      intros e He. apply H6, H3. now left.
    + now apply IH.
Qed.



(** No two entries of [lines] are the same number. *)
Lemma distinct_entries (lines : list float) :
  NoDup lines -> Forall (fun e => stored e = e) lines ->
  forall i j a b, i <> j -> nth_error lines i = Some a -> nth_error lines j = Some b ->
    sameValueZero a b = false.
Proof.
  intros Hnd Hs i j a b Hij Ha Hb. apply not_true_iff_false. intros H.
  apply sameValueZero_stored in H. rewrite List.Forall_forall in Hs.
  rewrite (Hs a), (Hs b) in H by (eapply nth_error_In; eassumption). subst b.
  apply NoDup_ListNoDup in Hnd. rewrite List.NoDup_nth_error in Hnd.
  apply Hij, Hnd; [|congruence].
  apply nth_error_Some. congruence.
Qed.





(** ** Rounding to binary64

    The quotient of two doubles is followed through [SFdiv]: the result of
    [binary_round_aux] is at least every double below the exact value and at
    most twice the exact value. That is all the comparison of
    [t / (2 * m)] with [t / m] needs. *)

Lemma scaled_pos (m e : Z) : 0 <= m -> 0 <= scaled m e.
Proof. intros H. unfold scaled. apply Z.mul_nonneg_nonneg; [assumption|]. apply Z.pow_nonneg. lia. Qed.

Lemma pow2_pos (k : Z) : 0 < 2 ^ k \/ k < 0.
Proof. destruct (Z_lt_le_dec k 0); [now right|left]. now apply Z.pow_pos_nonneg. Qed.

Lemma scaled_shift (m e k : Z) :
  0 <= k -> - scale <= e -> scaled m (e + k) = scaled (m * 2 ^ k) e.
Proof.
  intros Hk He. unfold scaled.
  replace (e + k + scale) with (k + (e + scale)) by lia.
  rewrite Z.pow_add_r by lia. ring.
Qed.

Lemma scaled_le_cancel (a b e : Z) : - scale <= e -> scaled a e <= scaled b e <-> a <= b.
Proof.
  intros He. unfold scaled.
  assert (0 < 2 ^ (e + scale)) by (apply Z.pow_pos_nonneg; lia). nia.
Qed.

Lemma scaled_lt_cancel (a b e : Z) : - scale <= e -> scaled a e < scaled b e <-> a < b.
Proof.
  intros He. unfold scaled.
  assert (0 < 2 ^ (e + scale)) by (apply Z.pow_pos_nonneg; lia). nia.
Qed.

(** *** Digits *)

Lemma digits2_size (p : positive) : digits2_pos p = Pos.size p.
Proof. induction p as [p IH|p IH|]; cbn; now rewrite ?IH. Qed.

Lemma Zdigits2_bounds (m : Z) :
  0 < m -> 2 ^ (Zdigits2 m - 1) <= m < 2 ^ Zdigits2 m.
Proof.
  destruct m as [|p|p]; try lia. intros _. cbn [Zdigits2]. rewrite digits2_size.
  split.
  - pose proof (Pos.size_le p) as H.
    assert (E : 2 ^ Z.pos (Pos.size p) = 2 * 2 ^ (Z.pos (Pos.size p) - 1)).
    { rewrite <- Z.pow_succ_r by lia. f_equal. lia. }
    assert (H' : 2 ^ Z.pos (Pos.size p) <= Z.pos p~0)
      by (rewrite <- Pos2Z.inj_pow; apply Pos2Z.pos_le_pos; exact H).
    lia.
  - rewrite <- Pos2Z.inj_pow. apply Pos2Z.pos_lt_pos. apply Pos.size_gt.
Qed.

Lemma Zdigits2_nonneg (m : Z) : 0 <= Zdigits2 m.
Proof. destruct m; cbn; lia. Qed.

Lemma Zdigits2_lower (m k : Z) : 0 <= k -> 2 ^ k <= m -> k + 1 <= Zdigits2 m.
Proof.
  intros Hk H. assert (0 < m) by (pose proof (Z.pow_pos_nonneg 2 k); lia).
  destruct (Zdigits2_bounds m) as [_ Hu]; [assumption|].
  destruct (Z_lt_le_dec k (Zdigits2 m)); [lia|].
  assert (2 ^ Zdigits2 m <= 2 ^ k)
    by (apply Z.pow_le_mono_r; [lia | assumption]).
  lia.
Qed.

Lemma Zdigits2_upper (m k : Z) : 0 <= k -> 0 <= m < 2 ^ k -> Zdigits2 m <= k.
Proof.
  intros Hk [H0 H]. destruct (Z.eq_dec m 0) as [->|Hne]; [cbn; lia|].
  destruct (Zdigits2_bounds m) as [Hl _]; [lia|].
  destruct (Z_lt_le_dec k (Zdigits2 m)); [|lia].
  assert (2 ^ k <= 2 ^ (Zdigits2 m - 1)) by (apply Z.pow_le_mono_r; lia).
  lia.
Qed.

Lemma fexp_mono (a b : Z) : a <= b -> fexp prec emax a <= fexp prec emax b.
Proof. unfold fexp. lia. Qed.

Lemma fexp_ge_emin (a : Z) : -1074 <= fexp prec emax a.
Proof. unfold fexp, SpecFloat.emin, prec, emax. lia. Qed.

Lemma fexp_eq (a : Z) : fexp prec emax a = Z.max (a - 53) (-1074).
Proof. reflexivity. Qed.

(** *** Shifting right *)

Lemma shr_1_spec (mrs : shr_record) :
  0 <= shr_m mrs ->
  shr_m mrs = 2 * shr_m (shr_1 mrs) + (if shr_r (shr_1 mrs) then 1 else 0)
  /\ 0 <= shr_m (shr_1 mrs).
Proof.
  destruct mrs as [m r s]. cbn [shr_m]. intros H.
  destruct m as [|[p|p|]|p]; cbn; lia.
Qed.

Lemma shr_1_encloses (X D : Z) (mrs : shr_record) (e : Z) :
  0 < D -> encloses X D mrs e -> encloses X D (shr_1 mrs) (e + 1).
Proof.
  intros HD (Hm & He & [Hl Hu] & Hr).
  destruct (shr_1_spec mrs Hm) as [Hdiv Hm'].
  set (m := shr_m mrs) in *. set (m' := shr_m (shr_1 mrs)) in *.
  unfold encloses. fold m'.
  rewrite !(scaled_shift _ e 1) by lia. change (2 ^ 1) with 2.
  assert (HP : 0 < 2 ^ (e + scale)) by (apply Z.pow_pos_nonneg; lia).
  unfold scaled in *.
  repeat apply conj; try lia.
  - destruct (shr_r (shr_1 mrs)); nia.
  - destruct (shr_r (shr_1 mrs)); nia.
  - intros Hr'. rewrite Hr' in Hdiv. nia.
Qed.

Lemma iter_shr_encloses (X D : Z) (n : positive) (mrs : shr_record) (e : Z) :
  0 < D -> encloses X D mrs e ->
  encloses X D (SpecFloat.iter_pos shr_1 n mrs) (e + Z.pos n).
Proof.
  intros HD. revert mrs e.
  induction n as [n IH|n IH|]; intros mrs e H; cbn [SpecFloat.iter_pos].
  - replace (e + Z.pos n~1) with (e + 1 + Z.pos n + Z.pos n) by lia.
    apply IH, IH. now apply shr_1_encloses.
  - replace (e + Z.pos n~0) with (e + Z.pos n + Z.pos n) by lia.
    now apply IH, IH.
  - now apply shr_1_encloses.
Qed.

(** The first of the two shifts of [binary_round_aux], which brings the
    mantissa to the exponent of the format. *)
Lemma shr_fexp_encloses (X D mx ex : Z) (lx : location) :
  0 < D -> 0 <= mx ->
  encloses X D (shr_record_of_loc mx lx) ex ->
  ex <= fexp prec emax (Zdigits2 mx + ex) ->
  let '(mrs, e) := shr_fexp prec emax mx ex lx in
  e = fexp prec emax (Zdigits2 mx + ex) /\ encloses X D mrs e.
Proof.
  intros HD Hmx Henc Hle. unfold shr_fexp, shr.
  destruct (fexp prec emax (Zdigits2 mx + ex) - ex) as [|n|n] eqn:E; try lia.
  - split; [lia | assumption].
  - split; [lia|]. now apply iter_shr_encloses.
Qed.

Lemma round_nearest_even_spec (mrs : shr_record) :
  let m' := round_nearest_even (shr_m mrs) (loc_of_shr_record mrs) in
  m' = shr_m mrs \/ (m' = shr_m mrs + 1 /\ shr_r mrs = true).
Proof.
  destruct mrs as [m [|] [|]]; cbn; auto.
  destruct (Z.even m); auto.
Qed.

Lemma shr_record_of_loc_m (m : Z) (l : location) : shr_m (shr_record_of_loc m l) = m.
Proof. now destruct l as [|[]]. Qed.

Lemma mul_lt_cancel (a b D X : Z) : 0 < D -> a * D <= X -> X < b * D -> a < b.
Proof. intros. nia. Qed.

(** The second shift of [binary_round_aux] undoes a carry into a 54th bit. *)
Lemma shr_fexp_exact (m e : Z) :
  0 <= m <= 2 ^ 53 -> -1074 <= e ->
  shr_fexp prec emax m e loc_Exact =
  if m =? 2 ^ 53
  then ({| shr_m := 2 ^ 52; shr_r := false; shr_s := false |}, e + 1)
  else ({| shr_m := m; shr_r := false; shr_s := false |}, e).
Proof.
  intros Hm He. unfold shr_fexp, shr. cbn [shr_record_of_loc].
  destruct (Z.eqb_spec m (2 ^ 53)) as [->|Hne].
  - replace (fexp prec emax (Zdigits2 (2 ^ 53) + e) - e) with 1
      by (rewrite fexp_eq; change (Zdigits2 (2 ^ 53)) with 54; lia).
    reflexivity.
  - assert (Hd : Zdigits2 m <= 53) by (apply Zdigits2_upper; lia).
    assert (Hn : fexp prec emax (Zdigits2 m + e) - e <= 0) by (rewrite fexp_eq; lia).
    destruct (fexp prec emax (Zdigits2 m + e) - e); try lia; reflexivity.
Qed.

(** *** The result of [binary_round_aux] *)

Lemma binary_round_aux_spec (X D : Z) (sx : bool) (mx ex : Z) (lx : location) :
  0 < D -> 0 <= X -> 0 <= mx ->
  encloses X D (shr_record_of_loc mx lx) ex ->
  ex <= fexp prec emax (Zdigits2 mx + ex) ->
  exists m3 e3,
    binary_round_aux prec emax sx mx ex lx = rounded sx m3 e3
    /\ 0 <= m3 < 2 ^ 53 /\ -1074 <= e3
    /\ (-1074 < e3 -> 2 ^ 52 <= m3)
    /\ scaled m3 e3 * D <= 2 * X
    /\ (forall mc ec, 0 <= mc < 2 ^ 53 -> -1074 <= ec ->
          scaled mc ec * D <= X -> scaled mc ec <= scaled m3 e3).
Proof.
  intros HD HX Hmx Henc0 Hnorm.
  pose proof (shr_fexp_encloses X D mx ex lx HD Hmx Henc0 Hnorm) as H1.
  unfold binary_round_aux.
  destruct (shr_fexp prec emax mx ex lx) as [mrs1 e1]. destruct H1 as [He1 Henc1].
  pose proof (round_nearest_even_spec mrs1) as Hrne. cbn zeta in Hrne.
  set (m1 := shr_m mrs1) in *.
  set (m2 := round_nearest_even m1 (loc_of_shr_record mrs1)) in *.
  destruct Henc0 as (_ & Hex & [Hl0 Hu0] & _). rewrite shr_record_of_loc_m in Hl0, Hu0.
  destruct Henc1 as (Hm1 & He1s & [Hl1 Hu1] & Hr1). fold m1 in Hm1, Hl1, Hu1, Hr1.
  set (d := Zdigits2 mx) in *.
  assert (Hd : 0 <= d) by apply Zdigits2_nonneg.
  rewrite fexp_eq in Hnorm, He1.
  assert (Hk : 0 <= e1 - ex) by lia.
  assert (Hmin : -1074 <= e1) by lia.
  assert (Hpk : 0 < 2 ^ (e1 - ex)) by (apply Z.pow_pos_nonneg; lia).
  assert (Hmxd : mx + 1 <= 2 ^ d).
  { destruct (Z.eq_dec mx 0) as [->|Hne]; [cbn; lia|].
    destruct (Zdigits2_bounds mx); [lia|]. fold d in H0. lia. }
  (* the mantissa after the first shift has at most 53 bits *)
  assert (Hm1lt : m1 < 2 ^ 53).
  { assert (H : scaled m1 e1 < scaled (mx + 1) ex)
      by exact (mul_lt_cancel _ _ D X HD Hl1 Hu0).
    replace e1 with (ex + (e1 - ex)) in H by lia.
    rewrite scaled_shift in H by lia. apply scaled_lt_cancel in H; [|lia].
    assert (Hd53 : 2 ^ d <= 2 ^ 53 * 2 ^ (e1 - ex)).
    { rewrite <- Z.pow_add_r by lia. apply Z.pow_le_mono_r; lia. }
    nia. }
  (* and exactly 53 above the smallest exponent *)
  assert (Hm1ge : -1074 < e1 -> 2 ^ 52 <= m1).
  { intros Hgt. assert (Ee : e1 = d + ex - 53) by lia.
    assert (Hpos : 0 < mx).
    { destruct (Z.eq_dec mx 0) as [E0|Hne]; [|lia].
      subst mx. cbn in d. subst d. lia. }
    destruct (Zdigits2_bounds mx Hpos) as [Hlow _]. fold d in Hlow.
    assert (H : scaled mx ex < scaled (m1 + 1) e1)
      by exact (mul_lt_cancel _ _ D X HD Hl0 Hu1).
    replace e1 with (ex + (e1 - ex)) in H by lia.
    rewrite scaled_shift in H by lia. apply scaled_lt_cancel in H; [|lia].
    assert (E : 2 ^ (d - 1) = 2 ^ 52 * 2 ^ (e1 - ex)).
    { rewrite <- Z.pow_add_r by lia. f_equal. lia. }
    nia. }
  assert (Hm2 : m1 <= m2 <= m1 + 1) by (destruct Hrne as [->|[-> _]]; lia).
  (* at most twice the exact value *)
  assert (HP3 : scaled m2 e1 * D <= 2 * X).
  { destruct Hrne as [->|[-> Hr]]; [lia|].
    specialize (Hr1 Hr). unfold scaled in *.
    assert (0 < 2 ^ (e1 + scale)) by (apply Z.pow_pos_nonneg; lia). nia. }
  (* at least every double below the exact value *)
  assert (HP1 : forall mc ec, 0 <= mc < 2 ^ 53 -> -1074 <= ec ->
            scaled mc ec * D <= X -> scaled mc ec <= scaled m2 e1).
  { intros mc ec Hmc Hec Hc.
    assert (H : scaled mc ec < scaled (m1 + 1) e1)
      by exact (mul_lt_cancel _ _ D X HD Hc Hu1).
    assert (Hmono : scaled m1 e1 <= scaled m2 e1) by (apply scaled_le_cancel; lia).
    destruct (Z_le_gt_dec e1 ec) as [Hle|Hgt].
    - replace ec with (e1 + (ec - e1)) in H |- * by lia.
      rewrite scaled_shift in H |- * by lia.
      apply scaled_lt_cancel in H; [|lia].
      assert (scaled (mc * 2 ^ (ec - e1)) e1 <= scaled m1 e1)
        by (apply scaled_le_cancel; lia).
      lia.
    - assert (H52 : 2 ^ 52 <= m1) by (apply Hm1ge; lia).
      assert (Hs : scaled m1 e1 = scaled (m1 * 2 ^ (e1 - ec)) ec).
      { replace e1 with (ec + (e1 - ec)) at 1 by lia.
        apply scaled_shift; unfold scale; lia. }
      assert (H2 : 2 * 2 ^ (e1 - ec - 1) = 2 ^ (e1 - ec)).
      { rewrite <- Z.pow_succ_r by lia. f_equal. lia. }
      assert (0 < 2 ^ (e1 - ec - 1)) by (apply Z.pow_pos_nonneg; lia).
      assert (scaled mc ec <= scaled (m1 * 2 ^ (e1 - ec)) ec)
        by (apply scaled_le_cancel; [unfold scale; lia | nia]).
      lia. }
  rewrite shr_fexp_exact by lia.
  destruct (Z.eqb_spec m2 (2 ^ 53)) as [E53|Hne]; cbn [shr_m].
  - (* the rounding carried into a 54th bit *)
    exists (2 ^ 52), (e1 + 1).
    assert (Es : scaled (2 ^ 52) (e1 + 1) = scaled m2 e1).
    { rewrite scaled_shift by lia. rewrite E53. reflexivity. }
    rewrite Es. repeat apply conj; try assumption; try reflexivity; try lia.
  - exists m2, e1.
    repeat apply conj; try assumption; try reflexivity; try lia.
Qed.

(** *** Doubles *)

Lemma valid_finite (x : float) (s : bool) (m : positive) (e : Z) :
  Prim2SF x = S754_finite s m e ->
  Z.pos m < 2 ^ 53 /\ -1074 <= e <= 971.
Proof.
  intros E. pose proof (Prim2SF_valid x) as H. rewrite E in H.
  cbn [SpecFloat.valid_binary] in H. unfold bounded, canonical_mantissa in H.
  apply andb_true_iff in H as [Hc Hb].
  apply Z.eqb_eq in Hc. apply Z.leb_le in Hb. rewrite fexp_eq in Hc.
  change (emax - prec) with 971 in Hb.
  assert (Hd : Z.pos (digits2_pos m) <= 53) by lia.
  split; [|lia].
  destruct (Zdigits2_bounds (Z.pos m)) as [_ Hu]; [lia|]. cbn [Zdigits2] in Hu.
  assert (2 ^ Z.pos (digits2_pos m) <= 2 ^ 53) by (apply Z.pow_le_mono_r; lia).
  lia.
Qed.

Lemma positive_float (x : float) :
  (0 <? x)%float = true ->
  Prim2SF x = S754_infinity false \/ exists m e, Prim2SF x = S754_finite false m e.
Proof.
  rewrite FloatAxioms.ltb_spec. change (Prim2SF 0) with (S754_zero false).
  unfold SFltb, SFcompare.
  destruct (Prim2SF x) as [s|s| |s m e]; try discriminate;
    destruct s; try discriminate; eauto.
Qed.

Lemma location_upper_half (my r : Z) (l : location) :
  0 <= r < my -> l = new_location my r ->
  shr_r (shr_record_of_loc 0 l) = true -> my <= 2 * r.
Proof.
  intros Hr -> H. unfold new_location, new_location_even, new_location_odd in H.
  destruct (Z.even my) eqn:Ev.
  - destruct (r =? 0) eqn:E0; [discriminate|].
    destruct (Z.compare_spec (2 * r) my) as [E|E|E]; cbn in H; try discriminate; lia.
  - destruct (r =? 0) eqn:E0; [discriminate|].
    destruct (Z.compare_spec (2 * r + 1) my) as [E|E|E]; cbn in H; try discriminate; lia.
Qed.

Lemma shr_record_of_loc_r (m m' : Z) (l : location) :
  shr_r (shr_record_of_loc m l) = shr_r (shr_record_of_loc m' l).
Proof. now destruct l as [|[]]. Qed.

(** *** Division *)

Lemma quotient_encloses (q r mm m' A B : Z) :
  0 < A -> 0 < B -> 0 < mm -> m' = mm * q + r -> 0 <= r < mm ->
  q * A * (mm * B) <= m' * (A * B)
  /\ m' * (A * B) < (q + 1) * A * (mm * B)
  /\ (mm <= 2 * r -> (2 * q + 1) * A * (mm * B) <= 2 * (m' * (A * B))).
Proof.
  intros HA HB Hmm -> Hr. assert (HAB : 0 < A * B) by nia.
  replace (q * A * (mm * B)) with (mm * q * (A * B)) by ring.
  replace ((q + 1) * A * (mm * B)) with ((mm * q + mm) * (A * B)) by ring.
  replace ((2 * q + 1) * A * (mm * B)) with ((2 * (mm * q) + mm) * (A * B)) by ring.
  repeat split; try intros; nia.
Qed.

Lemma SFdiv_finite_spec (mt : positive) (et : Z) (mm : positive) (em : Z) :
  Z.pos mt < 2 ^ 53 -> -1074 <= et <= 971 ->
  Z.pos mm < 2 ^ 53 -> -1074 <= em <= 971 ->
  exists m3 e3,
    SFdiv prec emax (S754_finite false mt et) (S754_finite false mm em)
    = rounded false m3 e3
    /\ 0 <= m3 < 2 ^ 53 /\ -1074 <= e3
    /\ (-1074 < e3 -> 2 ^ 52 <= m3)
    /\ scaled m3 e3 * scaled (Z.pos mm) em <= 2 * (scaled (Z.pos mt) et * 2 ^ scale)
    /\ (forall mc ec, 0 <= mc < 2 ^ 53 -> -1074 <= ec ->
          scaled mc ec * scaled (Z.pos mm) em <= scaled (Z.pos mt) et * 2 ^ scale ->
          scaled mc ec <= scaled m3 e3).
Proof.
  intros Hmt Het Hmm Hem. cbn [SFdiv xorb]. unfold SFdiv_core_binary.
  set (d1 := Zdigits2 (Z.pos mt)). set (d2 := Zdigits2 (Z.pos mm)).
  set (e' := Z.min (fexp prec emax (d1 + et - (d2 + em))) (et - em)).
  set (s := et - em - e').
  assert (Hs : 0 <= s) by (unfold s, e'; lia).
  set (m' := match s with
             | 0 => Z.pos mt
             | Z.pos _ => Z.shiftl (Z.pos mt) s
             | Z.neg _ => 0
             end).
  assert (Em' : m' = Z.pos mt * 2 ^ s).
  { unfold m'. destruct s as [|p|p] eqn:Es; try lia.
    now rewrite Z.shiftl_mul_pow2. }
  clearbody m'.
  pose proof (Z_div_mod m' (Z.pos mm) ltac:(lia)) as Hdiv.
  destruct (Z.div_eucl m' (Z.pos mm)) as [q r]. destruct Hdiv as [Hdiv Hr].
  assert (H2s : 0 < 2 ^ s) by (apply Z.pow_pos_nonneg; lia).
  assert (Hq : 0 <= q) by nia.
  assert (He' : - scale <= e').
  { unfold e', scale. pose proof (fexp_ge_emin (d1 + et - (d2 + em))). lia. }
  assert (HA : 0 < 2 ^ (e' + scale)) by (apply Z.pow_pos_nonneg; lia).
  assert (HB : 0 < 2 ^ (em + scale)) by (apply Z.pow_pos_nonneg; unfold scale; lia).
  assert (EX : scaled (Z.pos mt) et * 2 ^ scale
               = m' * (2 ^ (e' + scale) * 2 ^ (em + scale))).
  { unfold scaled. rewrite Em'.
    assert (E : 2 ^ (et + scale) * 2 ^ scale
                = 2 ^ s * (2 ^ (e' + scale) * 2 ^ (em + scale))).
    { rewrite <- !Z.pow_add_r by (unfold scale in *; lia). f_equal. unfold s. lia. }
    rewrite <- !Z.mul_assoc, E. ring. }
  destruct (quotient_encloses q r (Z.pos mm) m' _ _ HA HB ltac:(lia) Hdiv Hr)
    as (Hlow & Hupp & Hhalf).
  apply binary_round_aux_spec.
  - unfold scaled. apply Z.mul_pos_pos; lia.
  - rewrite EX. apply Z.mul_nonneg_nonneg; [|nia].
    rewrite Em'. apply Z.mul_nonneg_nonneg; lia.
  - exact Hq.
  - unfold encloses. rewrite shr_record_of_loc_m.
    rewrite EX. unfold scaled. repeat apply conj; try lia.
    intros Hbit. rewrite (shr_record_of_loc_r _ 0) in Hbit.
    apply Hhalf. exact (location_upper_half _ _ _ Hr eq_refl Hbit).
  - (* the quotient has enough bits for the format *)
    destruct (Z_le_gt_dec 0 (d1 - 1 + s - d2)) as [Hk|Hk].
    + apply Z.le_trans with (fexp prec emax (d1 + et - (d2 + em))); [unfold e'; lia|].
      apply fexp_mono.
      assert (Hq2 : 2 ^ (d1 - 1 + s - d2) <= q).
      { destruct (Zdigits2_bounds (Z.pos mt)) as [Hl1 _]; [lia|].
        destruct (Zdigits2_bounds (Z.pos mm)) as [_ Hu2]; [lia|].
        fold d1 in Hl1. fold d2 in Hu2.
        assert (Hd2 : 0 <= d2) by apply Zdigits2_nonneg.
        assert (Hd1 : 1 <= d1) by (unfold d1; cbn; lia).
        assert (E : 2 ^ (d1 - 1) * 2 ^ s = 2 ^ (d1 - 1 + s - d2) * 2 ^ d2).
        { rewrite <- !Z.pow_add_r by lia. f_equal. lia. }
        assert (0 < 2 ^ (d1 - 1 + s - d2)) by (apply Z.pow_pos_nonneg; lia).
        assert (Hge : 2 ^ (d1 - 1 + s - d2) * Z.pos mm <= m').
        { rewrite Em'. clear - Hl1 Hu2 E H2s H. nia. }
        clear - Hge Hdiv Hr H. nia. }
      pose proof (Zdigits2_lower q _ Hk Hq2). unfold s in *. lia.
    + assert (e' <= -1074).
      { unfold s in Hk. unfold e' in *. rewrite fexp_eq in *. lia. }
      pose proof (fexp_ge_emin (Zdigits2 q + e')). lia.
Qed.

(** *** Doubling *)

Lemma SFmul_two_spec (mm : positive) (em : Z) :
  Z.pos mm < 2 ^ 53 -> -1074 <= em <= 971 ->
  exists m3 e3,
    SFmul prec emax (S754_finite false 4503599627370496 (-51)) (S754_finite false mm em)
    = rounded false m3 e3
    /\ 0 <= m3 < 2 ^ 53 /\ -1074 <= e3
    /\ (-1074 < e3 -> 2 ^ 52 <= m3)
    /\ 2 * scaled (Z.pos mm) em <= scaled m3 e3.
Proof.
  intros Hmm Hem. cbn [SFmul xorb].
  rewrite Pos2Z.inj_mul. change (Z.pos 4503599627370496) with (2 ^ 52).
  set (X := scaled (2 ^ 52 * Z.pos mm) (-51 + em)).
  assert (HP : 0 < 2 ^ (-51 + em + scale)) by (apply Z.pow_pos_nonneg; unfold scale; lia).
  assert (Hmx : 2 ^ 52 <= 2 ^ 52 * Z.pos mm) by lia.
  destruct (binary_round_aux_spec X 1 false (2 ^ 52 * Z.pos mm) (-51 + em) loc_Exact)
    as (m3 & e3 & E & Hm3 & He3 & Hn & _ & HP1).
  - lia.
  - unfold X, scaled. nia.
  - lia.
  - unfold encloses. cbn [shr_record_of_loc shr_m shr_r]. fold X.
    repeat apply conj; try (unfold scale; lia); try discriminate.
    unfold X, scaled. nia.
  - pose proof (Zdigits2_lower (2 ^ 52 * Z.pos mm) 52 ltac:(lia) Hmx).
    rewrite fexp_eq. lia.
  - exists m3, e3. repeat apply conj; try assumption; try lia.
    assert (E2 : 2 * scaled (Z.pos mm) em = scaled (Z.pos mm) (em + 1)).
    { rewrite scaled_shift by (unfold scale; lia). unfold scaled. ring. }
    rewrite E2. apply HP1; [lia | lia |].
    rewrite Z.mul_1_r. unfold X.
    replace (em + 1) with (-51 + em + 52) by lia.
    rewrite scaled_shift by (unfold scale; lia).
    apply Z.eq_le_incl. f_equal. ring.
Qed.

(** *** Math.round of a rounded result *)

Lemma pow2_scale_succ : 2 ^ (scale + 1) = 2 * 2 ^ scale.
Proof. rewrite Z.pow_add_r by (unfold scale; lia). change (2 ^ 1) with 2. ring. Qed.

Lemma SF_round_finite (p : positive) (e : Z) :
  - scale <= e ->
  SF_round (S754_finite false p e)
  = IFin ((2 * scaled (Z.pos p) e + 2 ^ scale) / 2 ^ (scale + 1)).
Proof.
  intros He. cbn [SF_round SF_signed]. f_equal. unfold scaled.
  assert (HS : 0 < 2 ^ scale) by (apply Z.pow_pos_nonneg; unfold scale; lia).
  rewrite pow2_scale_succ.
  destruct e as [|k|k].
  - rewrite Z.add_0_l, Z.pow_0_r, Z.mul_1_r.
    apply Z.div_unique with (r := 2 ^ scale); [lia | ring].
  - rewrite Z.pow_add_r by (unfold scale; lia).
    apply Z.div_unique with (r := 2 ^ scale); [lia | ring].
  - assert (Hk : Z.pos k <= scale) by lia.
    assert (E : 2 ^ scale = 2 ^ (scale - Z.pos k) * 2 ^ Z.pos k).
    { rewrite <- Z.pow_add_r by lia. f_equal. lia. }
    replace (Z.neg k + scale) with (scale - Z.pos k) by lia.
    assert (HK : 0 < 2 ^ (scale - Z.pos k)) by (apply Z.pow_pos_nonneg; lia).
    assert (Hk2 : 0 < 2 ^ Z.pos k) by (apply Z.pow_pos_nonneg; lia).
    rewrite (Z.pow_add_r 2 (Z.pos k) 1) by lia. change (2 ^ 1) with 2.
    replace (2 * (Z.pos p * 2 ^ (scale - Z.pos k)) + 2 ^ scale)
      with (2 ^ (scale - Z.pos k) * (2 * Z.pos p + 2 ^ Z.pos k)) by (rewrite E; ring).
    replace (2 * 2 ^ scale) with (2 ^ (scale - Z.pos k) * (2 ^ Z.pos k * 2))
      by (rewrite E; ring).
    rewrite Z.div_mul_cancel_l by lia. reflexivity.
Qed.

Lemma round_rounded_nonneg (a e : Z) :
  0 <= a -> -1074 <= e ->
  expansion_le (IFin 0) (SF_round (rounded false a e)).
Proof.
  intros Ha He. unfold rounded. destruct a as [|p|p]; try lia.
  - cbn. lia.
  - destruct (e <=? emax - prec); [|exact I].
    rewrite SF_round_finite by (unfold scale; lia). cbn [expansion_le].
    apply Z.div_pos.
    + pose proof (scaled_pos (Z.pos p) e ltac:(lia)).
      assert (0 < 2 ^ scale) by (apply Z.pow_pos_nonneg; unfold scale; lia). lia.
    + apply Z.pow_pos_nonneg; unfold scale; lia.
Qed.

Lemma round_rounded_le (a2 e2 a1 e1 : Z) :
  0 <= a2 < 2 ^ 53 -> -1074 <= e2 -> (-1074 < e2 -> 2 ^ 52 <= a2) ->
  0 <= a1 < 2 ^ 53 -> -1074 <= e1 ->
  scaled a2 e2 <= scaled a1 e1 ->
  expansion_le (SF_round (rounded false a2 e2)) (SF_round (rounded false a1 e1)).
Proof.
  intros Ha2 He2 Hn2 Ha1 He1 Hle.
  destruct (Z.eq_dec a2 0) as [->|Hnz]; [now apply round_rounded_nonneg|].
  assert (Hs2 : 0 < scaled a2 e2).
  { unfold scaled. apply Z.mul_pos_pos; [lia|]. apply Z.pow_pos_nonneg; unfold scale; lia. }
  assert (Hpos1 : 0 < a1).
  { destruct (Z.eq_dec a1 0) as [->|]; [|lia]. unfold scaled in Hle at 2. lia. }
  unfold rounded. destruct a2 as [|p2|p2]; try lia. destruct a1 as [|p1|p1]; try lia.
  change (emax - prec) with 971.
  destruct (Z.leb_spec e1 971) as [H1|H1].
  - destruct (Z.leb_spec e2 971) as [H2|H2].
    + rewrite !SF_round_finite by (unfold scale; lia). cbn [expansion_le].
      apply Z.div_le_mono; [apply Z.pow_pos_nonneg; unfold scale; lia | lia].
    + (* the smaller value cannot overflow when the larger one does not *)
      exfalso. specialize (Hn2 ltac:(lia)).
      assert (Hb1 : scaled (Z.pos p1) e1 < scaled (2 ^ 53) 971).
      { apply Z.lt_le_trans with (scaled (2 ^ 53) e1).
        - apply scaled_lt_cancel; [unfold scale; lia | lia].
        - unfold scaled. apply Z.mul_le_mono_nonneg_l; [lia|].
          apply Z.pow_le_mono_r; [lia | unfold scale; lia]. }
      assert (Hb2 : scaled (2 ^ 52) 972 <= scaled (Z.pos p2) e2).
      { apply Z.le_trans with (scaled (2 ^ 52) e2).
        - unfold scaled. apply Z.mul_le_mono_nonneg_l; [lia|].
          apply Z.pow_le_mono_r; [lia | unfold scale; lia].
        - apply scaled_le_cancel; [unfold scale; lia | lia]. }
      assert (E : scaled (2 ^ 52) 972 = scaled (2 ^ 53) 971).
      { replace 972 with (971 + 1) by lia. rewrite scaled_shift by (unfold scale; lia).
        reflexivity. }
      lia.
  - destruct (e2 <=? 971); [|exact I].
    rewrite SF_round_finite by (unfold scale; lia). exact I.
Qed.

(** *** The two expansions *)

Lemma rounded_positive (m e : Z) :
  0 < m ->
  exists p, m = Z.pos p
    /\ rounded false m e = if e <=? 971 then S754_finite false p e else S754_infinity false.
Proof. intros H. destruct m as [|p|p]; try lia. exists p. split; reflexivity. Qed.

Lemma scaled_positive (m e : Z) : 0 < m -> -1074 <= e -> 0 < scaled m e.
Proof.
  intros. unfold scaled. apply Z.mul_pos_pos; [lia|].
  apply Z.pow_pos_nonneg; unfold scale; lia.
Qed.

(** [Math.round(t / m)] is not negative for positive [t] and [m]; it is NaN
    only for an infinite [m]. *)
Lemma one_way_expansion (t m : float) :
  (0 <? t)%float = true -> (0 <? m)%float = true ->
  expansion_le (IFin 0) (Math_round_x (t / m))
  \/ (Math_round_x (t / m) = INaN /\ Prim2SF m = S754_infinity false).
Proof.
  intros Ht Hm. unfold Math_round_x. rewrite div_spec. unfold SF64div.
  destruct (positive_float t Ht) as [ET|(mt & et & ET)],
           (positive_float m Hm) as [EM|(mm & em & EM)]; rewrite ET, EM.
  - right. split; reflexivity.
  - left. exact I.
  - left. cbn. lia.
  - left. destruct (valid_finite t _ _ _ ET), (valid_finite m _ _ _ EM).
    destruct (SFdiv_finite_spec mt et mm em) as (a & e & -> & Ha & He & _); try assumption.
    apply round_rounded_nonneg; lia.
Qed.

(** A length divided by an infinite mesh rounds to 0 or to NaN. *)
Lemma infinite_mesh_count (len m : float) :
  Prim2SF m = S754_infinity false ->
  Math_round_x (len / m) = IFin 0 \/ Math_round_x (len / m) = INaN.
Proof.
  intros EM. unfold Math_round_x. rewrite div_spec, EM. unfold SF64div.
  destruct (Prim2SF len); cbn; auto.
Qed.

(** [Math.round(t / (2 * m))] does not exceed [Math.round(t / m)]. *)
Lemma two_way_expansion_le (t m : float) :
  (0 <? t)%float = true -> (0 <? m)%float = true ->
  expansion_le (Math_round_x (t / (2 * m))) (Math_round_x (t / m)).
Proof.
  intros Ht Hm. unfold Math_round_x. rewrite !div_spec, mul_spec.
  unfold SF64div, SF64mul.
  change (Prim2SF 2) with (S754_finite false 4503599627370496 (-51)).
  destruct (positive_float t Ht) as [ET|(mt & et & ET)],
           (positive_float m Hm) as [EM|(mm & em & EM)]; rewrite ET, EM.
  - exact I.
  - destruct (valid_finite m _ _ _ EM) as [Hmm Hem].
    destruct (SFmul_two_spec mm em Hmm Hem) as (m3 & e3 & -> & Hm3 & He3 & _ & Hdbl).
    pose proof (scaled_positive (Z.pos mm) em ltac:(lia) ltac:(lia)).
    destruct (rounded_positive m3 e3) as (p3 & -> & ->).
    { destruct (Z.eq_dec m3 0) as [->|]; [unfold scaled in Hdbl at 2; lia | lia]. }
    destruct (e3 <=? 971); exact I.
  - cbn. lia.
  - destruct (valid_finite t _ _ _ ET) as [Hmt Het].
    destruct (valid_finite m _ _ _ EM) as [Hmm Hem].
    destruct (SFdiv_finite_spec mt et mm em Hmt Het Hmm Hem)
      as (a1 & e1 & -> & Ha1 & He1 & _ & _ & HP1).
    destruct (SFmul_two_spec mm em Hmm Hem) as (m3 & e3 & -> & Hm3 & He3 & _ & Hdbl).
    pose proof (scaled_positive (Z.pos mm) em ltac:(lia) ltac:(lia)) as HposM.
    destruct (rounded_positive m3 e3) as (p3 & Ep3 & ->).
    { destruct (Z.eq_dec m3 0) as [->|]; [unfold scaled in Hdbl at 2; lia | lia]. }
    destruct (Z.leb_spec e3 971) as [H3|H3].
    + (* 2 * m is finite *)
      destruct (SFdiv_finite_spec mt et p3 e3 Hmt Het ltac:(lia) ltac:(lia))
        as (a2 & e2 & -> & Ha2 & He2 & Hn2 & HP3 & _).
      apply round_rounded_le; try assumption.
      apply HP1; try assumption.
      rewrite <- Ep3 in HP3.
      pose proof (scaled_pos a2 e2 ltac:(lia)) as Hs2.
      assert (scaled a2 e2 * (2 * scaled (Z.pos mm) em)
              <= 2 * (scaled (Z.pos mt) et * 2 ^ scale)).
      { apply Z.le_trans with (scaled a2 e2 * scaled m3 e3); [|assumption].
        apply Z.mul_le_mono_nonneg_l; assumption. }
      lia.
    + (* 2 * m overflows: the quotient is 0 *)
      cbn [SFdiv xorb SF_round]. apply round_rounded_nonneg; lia.
Qed.

(** ** Range containment *)

Lemma index_range_widen (count : Z) (s e k2 k1 : intnum) (i : Z) :
  expansion_le k2 k1 ->
  In i (index_range count (intnum_sub s k2) (intnum_add e k2)) ->
  In i (index_range count (intnum_sub s k1) (intnum_add e k1)).
Proof.
  destruct s, e, k2, k1; cbn; intros Hle Hi; try contradiction; try exact I;
    rewrite in_zseq in *; lia.
Qed.

Lemma index_range_unwidened (count : Z) (s e : intnum) (i : Z) :
  In i (index_range count s e) ->
  In i (index_range count (intnum_sub s (IFin 0)) (intnum_add e (IFin 0))).
Proof.
  destruct s, e; cbn; intros Hi; try contradiction; rewrite in_zseq in *; lia.
Qed.

Lemma range_cells_widen (g : grid) (r : ranges) (k2 k1 : intnum) (c : Z * Z) :
  expansion_le k2 k1 ->
  In c (range_cells g (widen r k2)) -> In c (range_cells g (widen r k1)).
Proof.
  intros Hle. unfold range_cells, widen; cbn [start_x end_x start_z end_z].
  rewrite !in_flat_map. intros (xi & Hxi & Hc).
  apply in_map_iff in Hc as (zi & <- & Hzi).
  exists xi. split; [now apply (index_range_widen _ _ _ k2)|].
  apply in_map_iff. exists zi. split; [reflexivity|].
  now apply (index_range_widen _ _ _ k2).
Qed.

Lemma range_cells_unwidened (g : grid) (r : ranges) (c : Z * Z) :
  In c (range_cells g r) -> In c (range_cells g (widen r (IFin 0))).
Proof.
  unfold range_cells, widen; cbn [start_x end_x start_z end_z].
  rewrite !in_flat_map. intros (xi & Hxi & Hc).
  apply in_map_iff in Hc as (zi & <- & Hzi).
  exists xi. split; [now apply index_range_unwidened|].
  apply in_map_iff. exists zi. split; [reflexivity|].
  now apply index_range_unwidened.
Qed.

Lemma range_plates_incl (ids : gmap string Z) (g : grid) (r r' : ranges) :
  (forall c, In c (range_cells g r) -> In c (range_cells g r')) ->
  (list_to_set (range_plates ids g r) : gset Z) ⊆ list_to_set (range_plates ids g r').
Proof.
  intros H id. rewrite !elem_of_list_to_set, !list_elem_of_In, !in_range_plates.
  intros (c & Hc & Hid). exists c. split; [now apply H | assumption].
Qed.

(** With an infinite mesh the moment range of a pedestal is empty. *)
Lemma moment_cells_infinite_mesh (g : grid) (ms : float) (p : point) :
  Prim2SF ms = S754_infinity false ->
  range_cells g (moment_ranges g ms p) = [].
Proof.
  intros Hinf. unfold range_cells, moment_ranges; cbn [start_x end_x start_z end_z].
  set (i := findClosestIndex (xLines g) (p_x p)).
  assert (E : index_range (Z.of_nat (List.length (xLines g)) - 1)
                (floor_sub_half i (Math_round_x (p_length p / ms)))
                (ceil_add_half i (Math_round_x (p_length p / ms))) = []).
  { destruct (infinite_mesh_count (p_length p) ms Hinf) as [-> | ->]; [|reflexivity].
    cbn [floor_sub_half ceil_add_half index_range].
    replace ((2 * i - 0) / 2) with i by (rewrite Z.sub_0_r, Z.mul_comm, Z.div_mul; lia).
    replace (- (- (2 * i + 0) / 2)) with i.
    2:{ rewrite Z.add_0_r. replace (- (2 * i)) with ((- i) * 2) by ring.
        rewrite Z.div_mul by lia. lia. }
    replace (Z.to_nat _) with 0%nat by lia. reflexivity. }
  now rewrite E.
Qed.

Lemma sets_subset_lists (s1 s2 : gset Z) :
  s1 ⊆ s2 -> forall id, In id (sorted_ids s1) -> In id (sorted_ids s2).
Proof. intros H id. rewrite !in_sorted_ids. apply H. Qed.

Lemma group_points_subsets (ids : gmap string Z) (g : grid) (ms t : float)
    (pts : list point) :
  let st := group_points ids g ms t pts in
  ((forall p, momentPlatesForPedestal ids g ms p
              ⊆ oneWayShearPlatesForPedestal ids g ms t p) ->
   momentPlates st ⊆ oneWayShearPlates st)
  /\ ((forall p, twoWayShearPlatesForPedestal ids g ms t p
                 ⊆ oneWayShearPlatesForPedestal ids g ms t p) ->
      twoWayShearPlates_set st ⊆ oneWayShearPlates st).
Proof.
  cbn zeta. split; intros H id Hid;
    destruct (group_points_spec ids g ms t pts id) as (H1 & H2 & H3).
  - apply H1 in Hid as (p & Hp & Hid). apply H2. exists p. split; [assumption|].
    now apply H.
  - apply H3 in Hid as (p & Hp & Hid). apply H2. exists p. split; [assumption|].
    now apply H.
Qed.

(** C5. With plateThickness > 0 and mesh > 0 the MOMENT plates are among the
    1_WAY_SHEAR plates, for every pedestal and for the unions over all
    pedestals: the one-way range is the moment range widened by
    Math.round(t / m) >= 0 cells on each side before it is clipped. *)
Theorem moment_within_one_way (pts : list point) (g : grid) (ids : gmap string Z)
    (ms t : float) :
  (0 <? t)%float = true -> (0 <? ms)%float = true ->
  (forall p, momentPlatesForPedestal ids g ms p
             ⊆ oneWayShearPlatesForPedestal ids g ms t p)
  /\ momentPlates (group_points ids g ms t pts)
     ⊆ oneWayShearPlates (group_points ids g ms t pts)
  /\ (forall id, In id (groupedPlates (classify pts g ids ms t)) ->
                 In id (shearPlates (classify pts g ids ms t))).
Proof.
  intros Ht Hm.
  assert (Hp : forall p, momentPlatesForPedestal ids g ms p
                         ⊆ oneWayShearPlatesForPedestal ids g ms t p).
  { intros p. unfold momentPlatesForPedestal, oneWayShearPlatesForPedestal, one_way_ranges.
    apply range_plates_incl. intros c Hc.
    destruct (one_way_expansion t ms Ht Hm) as [Hk|[_ Hinf]].
    - apply (range_cells_widen g _ (IFin 0)); [assumption|].
      now apply range_cells_unwidened.
    - rewrite (moment_cells_infinite_mesh g ms p Hinf) in Hc. destruct Hc. }
  destruct (group_points_subsets ids g ms t pts) as [Hu _]. cbn zeta in Hu.
  repeat apply conj; [exact Hp | now apply Hu |].
  unfold classify; cbn [groupedPlates shearPlates].
  apply sets_subset_lists. now apply Hu.
Qed.

(** C9. With plateThickness > 0 and mesh > 0 the 2_WAY_SHEAR plates are
    among the 1_WAY_SHEAR plates, for every pedestal and for the unions:
    Math.round(t / (2 * m)) never exceeds Math.round(t / m). *)
Theorem two_way_within_one_way (pts : list point) (g : grid) (ids : gmap string Z)
    (ms t : float) :
  (0 <? t)%float = true -> (0 <? ms)%float = true ->
  expansion_le (Math_round_x (t / (2 * ms))) (Math_round_x (t / ms))
  /\ (forall p, twoWayShearPlatesForPedestal ids g ms t p
                ⊆ oneWayShearPlatesForPedestal ids g ms t p)
  /\ twoWayShearPlates_set (group_points ids g ms t pts)
     ⊆ oneWayShearPlates (group_points ids g ms t pts)
  /\ (forall id, In id (twoWayShearPlates (classify pts g ids ms t)) ->
                 In id (shearPlates (classify pts g ids ms t))).
Proof.
  intros Ht Hm. pose proof (two_way_expansion_le t ms Ht Hm) as Hk.
  assert (Hp : forall p, twoWayShearPlatesForPedestal ids g ms t p
                         ⊆ oneWayShearPlatesForPedestal ids g ms t p).
  { intros p. unfold twoWayShearPlatesForPedestal, oneWayShearPlatesForPedestal,
      two_way_ranges, one_way_ranges.
    apply range_plates_incl. intros c. now apply range_cells_widen. }
  destruct (group_points_subsets ids g ms t pts) as [_ Hu]. cbn zeta in Hu.
  repeat apply conj; [exact Hk | exact Hp | now apply Hu |].
  unfold classify; cbn [twoWayShearPlates shearPlates].
  apply sets_subset_lists. now apply Hu.
Qed.

Lemma moment_within_one_way_witness :
  let g := {| xLines := [0; 0.5; 1]; zLines := [0; 0.5; 1] |}%float in
  let pts := [ {| p_id := 1; p_x := 0.5; p_z := 0.5; p_length := 0.5; p_width := 0.5 |} ]%float in
  let ids := plateIds (synthesize (xLines g) (zLines g) 0.5%float pts "down") in
  (0 <? 0.3)%float = true /\ (0 <? 0.5)%float = true
  /\ momentPlates (group_points ids g 0.5 0.3 pts)
     ⊆ oneWayShearPlates (group_points ids g 0.5 0.3 pts).
Proof.
  cbv zeta. split; [reflexivity|]. split; [reflexivity|].
  refine (proj1 (proj2 (moment_within_one_way _ _ _ 0.5%float 0.3%float _ _)));
    reflexivity.
Defined.

Lemma two_way_within_one_way_witness :
  let g := {| xLines := [0; 0.5; 1]; zLines := [0; 0.5; 1] |}%float in
  let pts := [ {| p_id := 1; p_x := 0.5; p_z := 0.5; p_length := 0.5; p_width := 0.5 |} ]%float in
  let ids := plateIds (synthesize (xLines g) (zLines g) 0.5%float pts "down") in
  (0 <? 0.3)%float = true /\ (0 <? 0.5)%float = true
  /\ twoWayShearPlates_set (group_points ids g 0.5 0.3 pts)
     ⊆ oneWayShearPlates (group_points ids g 0.5 0.3 pts).
Proof.
  cbv zeta. split; [reflexivity|]. split; [reflexivity|].
  refine (proj1 (proj2 (proj2 (two_way_within_one_way _ _ _ 0.5%float 0.3%float _ _))));
    reflexivity.
Defined.

(** ** Identifiers *)

Lemma NoDup_zseq (lo : Z) (n : nat) : NoDup (zseq lo n).
Proof.
  unfold zseq. apply NoDup_fmap_2; [|apply NoDup_ListNoDup, seq_NoDup].
  intros i j H. lia.
Qed.

Lemma Forall2_in_r {A B : Type} (R : A -> B -> Prop) (l : list A) (k : list B) (y : B) :
  Forall2 R l k -> In y k -> exists x, In x l /\ R x y.
Proof.
  induction 1 as [|x y' l k HR _ IH]; intros Hy; [destruct Hy|].
  destruct Hy as [<-|Hy].
  - exists x. split; [now left | assumption].
  - destruct (IH Hy) as (x' & Hx' & HR'). exists x'. split; [now right | assumption].
Qed.

Lemma Forall2_in_l {A B : Type} (R : A -> B -> Prop) (l : list A) (k : list B) (x : A) :
  Forall2 R l k -> In x l -> exists y, In y k /\ R x y.
Proof.
  induction 1 as [|x' y l k HR _ IH]; intros Hx; [destruct Hx|].
  destruct Hx as [<-|Hx].
  - exists y. split; [now left | assumption].
  - destruct (IH Hx) as (y' & Hy' & HR'). exists y'. split; [now right | assumption].
Qed.

(** C10. Node ids are exactly 1..|nodes| and plate ids exactly 1..|plates|,
    in order, without gap or repetition, whichever pedestals were skipped;
    so the line [1 TO n THICKNESS t;] of the export, with n the number of
    plates, names exactly the plate ids. *)
Theorem ids_are_contiguous (xL zL : list float) (h : float) (pts : list point)
    (o formattedDate : string) (gr : groups) (t : float) :
  let m := synthesize xL zL h pts o in
  map n_id (nodes m) = zseq 1 (List.length (nodes m))
  /\ NoDup (map n_id (nodes m))
  /\ map pl_id (plates m) = zseq 1 (List.length (plates m))
  /\ NoDup (map pl_id (plates m))
  /\ (forall id, In id (map pl_id (plates m)) <->
                 1 <= id <= Z.of_nat (List.length (plates m)))
  /\ (plates m <> [] ->
      In ("1 TO " +:+ string_of_Z (Z.of_nat (List.length (plates m))) +:+ " THICKNESS "
          +:+ Number_toString (round3 t) +:+ ";")
         (exportLines formattedDate m gr t)).
Proof.
  cbn zeta.
  destruct (synthesize_nodes xL zL h pts o)
    as (surf & extra & Hn & Hs & _ & He & _ & _ & _).
  destruct (synthesize_plates xL zL h pts o) as (Hp & _ & _ & _).
  set (m := synthesize xL zL h pts o) in *.
  assert (Hnodes : map n_id (nodes m) = zseq 1 (List.length (nodes m))).
  { assert (Hl : List.length surf = (List.length zL * List.length xL)%nat)
      by (rewrite <- (length_map n_id), Hs; apply zseq_length).
    rewrite Hn, map_app, Hs, He, length_app, Hl, zseq_app. reflexivity. }
  assert (Hplates : map pl_id (plates m) = zseq 1 (List.length (plates m))).
  { rewrite Hp. f_equal. rewrite <- (length_map pl_id), Hp. now rewrite zseq_length. }
  repeat apply conj.
  - exact Hnodes.
  - rewrite Hnodes. apply NoDup_zseq.
  - exact Hplates.
  - rewrite Hplates. apply NoDup_zseq.
  - intros id. rewrite Hplates, in_zseq. lia.
  - intros Hne. unfold exportLines, body_lines, property_lines.
    destruct (plates m) as [|pl rest] eqn:E; [contradiction|].
    cbn [List.length Nat.ltb Nat.leb].
    apply in_or_app; right. apply in_cons.
    do 4 (apply in_or_app; right). apply in_or_app; left. right. now left.
Qed.

(** C4, amended. The number of nodes is |xLines| * |zLines|, plus, when
    pedestalHeight exceeds 1e-9 (not merely 0), the number of pedestals
    whose key lands on the grid; the number of plates is
    (|xLines| - 1) * (|zLines| - 1). *)
Theorem node_and_plate_counts (xL zL : list float) (h : float)
    (pts : list point) (o : string) :
  let m := synthesize xL zL h pts o in
  List.length (nodes m) =
    (List.length xL * List.length zL +
     (if (1e-9 <? h)%float then List.length (List.filter (on_grid xL zL) pts) else 0))%nat
  /\ List.length (plates m) = ((List.length xL - 1) * (List.length zL - 1))%nat.
Proof.
  cbn zeta.
  destruct (synthesize_nodes xL zL h pts o)
    as (surf & extra & Hn & Hs & _ & _ & He & _ & _).
  destruct (synthesize_plates xL zL h pts o) as (Hp & _ & _ & _).
  split.
  - rewrite Hn, length_app, He, <- (length_map n_id surf), Hs, zseq_length. lia.
  - rewrite <- (length_map pl_id), Hp, zseq_length, row_major_length, !zseq_length. lia.
Qed.

(** C4 as stated fails: with pedestalHeight = 5e-10, which is positive, a
    pedestal that lands on the grid adds no node. *)
Lemma positive_height_below_epsilon :
  let p := {| p_id := 1; p_x := 0.5; p_z := 0.5; p_length := 0.5; p_width := 0.3 |} in
  exists g,
    gridLines [p] 1 1 0.5 = Some g
    /\ (0 <? 5e-10)%float = true
    /\ List.filter (on_grid (xLines g) (zLines g)) [p] = [p]
    /\ List.length (nodes (synthesize (xLines g) (zLines g) 5e-10 [p] "down")) <>
       (List.length (xLines g) * List.length (zLines g) +
        (if (0 <? 5e-10)%float
         then List.length (List.filter (on_grid (xLines g) (zLines g)) [p]) else 0))%nat.
Proof.
  cbn zeta. eexists. split; [vm_compute; reflexivity|].
  split; [reflexivity|]. split; vm_compute; [reflexivity | discriminate].
Qed.

(** C6. Every plate has 4 node ids, each the id of a surface node; every
    member goes from a surface node to a pedestal node; every plate id in a
    group is the id of a plate; and every cell a range of the classifier
    visits lies inside the plate grid and has a plate in the map. *)
Theorem references_resolve (xL zL : list float) (h : float) (pts : list point)
    (o : string) (ms t : float) :
  let m := synthesize xL zL h pts o in
  let g := {| xLines := xL; zLines := zL |} in
  let gr := classify pts g (plateIds m) ms t in
  (forall pl, In pl (plates m) ->
     List.length (pl_nodes pl) = 4%nat
     /\ forall id, In id (pl_nodes pl) ->
          exists n, In n (nodes m) /\ n_id n = id /\ n_type n = surface)
  /\ (forall mb, In mb (members m) ->
       (exists n, In n (nodes m) /\ n_id n = startNode mb /\ n_type n = surface)
       /\ (exists n, In n (nodes m) /\ n_id n = endNode mb /\ n_type n = pedestal))
  /\ (forall id,
       In id (groupedPlates gr) \/ In id (shearPlates gr) \/ In id (twoWayShearPlates gr) ->
       exists pl, In pl (plates m) /\ pl_id pl = id)
  /\ (forall r c, In c (range_cells g r) ->
       0 <= fst c < Z.of_nat (List.length xL) - 1
       /\ 0 <= snd c < Z.of_nat (List.length zL) - 1
       /\ exists id, plateIds m !! cellKey (fst c) (snd c) = Some id
                     /\ exists pl, In pl (plates m) /\ pl_id pl = id).
Proof.
  cbn zeta.
  destruct (synthesize_nodes xL zL h pts o)
    as (surf & extra & Hn & Hs & Hty & He & _ & Hpairs & Hval).
  destruct (synthesize_plates xL zL h pts o) as (Hp & Hpn & Hpv & Hpk).
  set (m := synthesize xL zL h pts o) in *.
  set (cs := row_major (zseq 0 (List.length xL - 1)) (zseq 0 (List.length zL - 1))) in *.
  assert (Hsurf : forall id, 1 <= id <= Z.of_nat (List.length zL * List.length xL) ->
            exists n, In n (nodes m) /\ n_id n = id /\ n_type n = surface).
  { intros id Hid. destruct (in_ids_node surf _ 1 id Hs) as (n & Hin & Hnid); [lia|].
    exists n. rewrite Hn. repeat apply conj; [apply in_or_app; now left | assumption |].
    rewrite List.Forall_forall in Hty. now apply Hty. }
  assert (Hplate : forall id, 1 <= id <= Z.of_nat (List.length cs) ->
            exists pl, In pl (plates m) /\ pl_id pl = id).
  { intros id Hid. assert (Hin : In id (map pl_id (plates m)))
      by (rewrite Hp; apply in_zseq; lia).
    apply in_map_iff in Hin as (pl & Hpl & Hin). eauto. }
  repeat apply conj.
  - intros pl Hpl.
    assert (Hin : In (pl_nodes pl) (map pl_nodes (plates m))) by now apply in_map.
    rewrite Hpn in Hin. apply in_map_iff in Hin as (c & Hc & Hin).
    apply in_row_major in Hin as [Hx Hz]. apply in_zseq in Hx, Hz.
    rewrite <- Hc. unfold plate_order, nodeIdAt.
    split; [now destruct (String.eqb o "up")|].
    intros id Hid. apply Hsurf.
    destruct (String.eqb o "up"); cbn [In] in Hid;
      decompose [or] Hid; try contradiction; subst id; nia.
  - intros mb Hmb.
    destruct (Forall2_in_r _ _ _ _ Hpairs Hmb)
      as (n & Hin & Hend & Hlk & _ & _ & _ & _ & _ & Htype).
    split.
    + apply Hsurf. now apply Hval in Hlk.
    + exists n. rewrite Hn. repeat apply conj; [apply in_or_app; now right | auto | auto].
  - intros id Hid. apply Hplate.
    unfold classify in Hid; cbn [groupedPlates shearPlates twoWayShearPlates] in Hid.
    rewrite !in_sorted_ids in Hid.
    destruct (group_points_spec (plateIds m) {| xLines := xL; zLines := zL |} ms t pts id)
      as (H1 & H2 & H3).
    assert (Hr : exists r, In id (range_plates (plateIds m) {| xLines := xL; zLines := zL |} r)).
    { destruct Hid as [Hid|[Hid|Hid]].
      - apply H1 in Hid as (p & _ & Hid). apply elem_of_list_to_set, list_elem_of_In in Hid. eauto.
      - apply H2 in Hid as (p & _ & Hid). apply elem_of_list_to_set, list_elem_of_In in Hid. eauto.
      - apply H3 in Hid as (p & _ & Hid). apply elem_of_list_to_set, list_elem_of_In in Hid. eauto. }
    destruct Hr as (r & Hr). apply in_range_plates in Hr as (c & _ & Hlk & _).
    now apply Hpv in Hlk.
  - intros r c Hc. apply in_range_cells in Hc. cbn [xLines zLines] in Hc.
    destruct Hc as [Hx Hz]. split; [assumption|]. split; [assumption|].
    assert (Hin : In c cs).
    { apply in_row_major. rewrite !in_zseq. lia. }
    apply Hpk in Hin as (id & Hid). exists id. split; [assumption|].
    apply Hplate. now apply Hpv in Hid.
Qed.

(** ** Orientation *)



(** ** Pedestals off the grid *)

(** C2, amended. A pedestal whose key is the key of no surface node gets no
    member and no pedestal node, and nothing fails: [synthesize] is total.
    (Its plate sets are those around the nearest grid lines and need not be
    empty.) *)
Theorem unaligned_pedestal_is_skipped (xL zL : list float) (h : float)
    (pts : list point) (o : string) (p : point) :
  on_grid xL zL p = false ->
  let m := synthesize xL zL h pts o in
  (forall mb, In mb (members m) -> pointData mb <> p)
  /\ (forall n, In n (nodes m) -> n_type n = pedestal ->
        ~ (n_x n = p_x p /\ n_z n = p_z p)).
Proof.
  intros Hoff. cbn zeta.
  destruct (synthesize_nodes xL zL h pts o)
    as (surf & extra & Hn & _ & Hty & _ & _ & Hpairs & _).
  rewrite <- attaches_on_grid in Hoff.
  split.
  - intros mb Hmb Heq.
    destruct (Forall2_in_r _ _ _ _ Hpairs Hmb) as (n & _ & _ & _ & _ & Hatt & _).
    rewrite Heq in Hatt. congruence.
  - intros n Hin Hped [Hx Hz]. rewrite Hn in Hin.
    apply in_app_or in Hin as [Hin|Hin].
    + rewrite List.Forall_forall in Hty. apply Hty in Hin. congruence.
    + destruct (Forall2_in_l _ _ _ _ Hpairs Hin)
        as (mb & _ & _ & _ & _ & Hatt & Hx' & Hz' & _).
      unfold attaches in Hoff, Hatt. rewrite <- Hx, <- Hz, Hx', Hz' in Hoff.
      congruence.
Qed.

Lemma unaligned_pedestal_is_skipped_witness :
  let p := {| p_id := 1; p_x := 0.5; p_z := 0.5; p_length := 0.5; p_width := 0.3 |} in
  let m := synthesize [0; 1]%float [0; 1]%float 0.5 [p] "down" in
  on_grid [0; 1]%float [0; 1]%float p = false
  /\ (forall mb, In mb (members m) -> pointData mb <> p)
  /\ (forall n, In n (nodes m) -> n_type n = pedestal ->
        ~ (n_x n = p_x p /\ n_z n = p_z p)).
Proof.
  cbn zeta. split; [vm_compute; reflexivity|].
  apply (unaligned_pedestal_is_skipped [0; 1]%float [0; 1]%float 0.5 _ "down").
  vm_compute; reflexivity.
Defined.

(** C2 as stated fails: on the plan 1 by 1 with mesh 0.5, the pedestal at
    (0.2514996, 0.5) lies inside the plan; its cut is stored as 0.2515,
    whose key is 0.252 while the key of the pedestal is 0.251, so it gets no
    member; yet its three plate sets are not empty. *)
Lemma unaligned_pedestal_has_groups :
  let p := {| p_id := 1; p_x := 0.2514996; p_z := 0.5; p_length := 0.5; p_width := 0.3 |} in
  exists g,
    gridLines [p] 1 1 0.5 = Some g
    /\ on_grid (xLines g) (zLines g) p = false
    /\ members (synthesize (xLines g) (zLines g) 0.5 [p] "down") = []
    /\ groupedPlates (classify [p] g
         (plateIds (synthesize (xLines g) (zLines g) 0.5 [p] "down")) 0.5 0.3)
       = [1; 2; 4; 5]
    /\ shearPlates (classify [p] g
         (plateIds (synthesize (xLines g) (zLines g) 0.5 [p] "down")) 0.5 0.3)
       = [1; 2; 3; 4; 5; 6]
    /\ twoWayShearPlates (classify [p] g
         (plateIds (synthesize (xLines g) (zLines g) 0.5 [p] "down")) 0.5 0.3)
       = [1; 2; 4; 5].
Proof.
  cbn zeta. eexists. split; [vm_compute; reflexivity|].
  repeat split; vm_compute; reflexivity.
Qed.

(** ** Line packing *)

Lemma string_length_app (s1 s2 : string) :
  String.length (s1 +:+ s2) = (String.length s1 + String.length s2)%nat.
Proof.
  induction s1 as [|c s1 IH]; [reflexivity|].
  change (String c s1 +:+ s2) with (String c (s1 +:+ s2)).
  cbn [String.length]. now rewrite IH.
Qed.

(** The state of the packing loop: the pushed lines end in [;] after at
    most 74 characters, and [currentLine] has at most 74. *)
Lemma pack_fold_bound (tokens : list string) (st : list string * string) :
  Forall (fun t => (String.length t <= 74)%nat) tokens ->
  Forall (fun l => exists body, l = body +:+ ";" /\ (String.length body <= 74)%nat) (fst st) ->
  (String.length (snd st) <= 74)%nat ->
  let st' := fold_left pack_step tokens st in
  Forall (fun l => exists body, l = body +:+ ";" /\ (String.length body <= 74)%nat) (fst st')
  /\ (String.length (snd st') <= 74)%nat.
Proof.
  revert st. induction tokens as [|t tokens IH]; intros st Ht Hl Hc; cbn zeta.
  - now split.
  - apply Forall_cons_1 in Ht as [Ht Hts]. cbn [fold_left].
    apply IH; [assumption | |]; unfold pack_step.
    + destruct (String.eqb (snd st) ""); [assumption|].
      destruct (String.length (snd st +:+ "; " +:+ t) <=? 74)%nat; [assumption|].
      cbn [fst]. apply Forall_app. split; [assumption|].
      constructor; [|constructor]. eauto.
    + destruct (String.eqb (snd st) ""); [assumption|].
      destruct (String.length (snd st +:+ "; " +:+ t) <=? 74)%nat eqn:E; [|assumption].
      cbn [snd]. now apply Nat.leb_le in E.
Qed.

Lemma pack_lines_bound (tokens : list string) (l : string) :
  forallb (fun t => (String.length t <=? 74)%nat) tokens = true ->
  In l (pack_lines tokens) ->
  exists body, l = body +:+ ";" /\ (String.length body <= 74)%nat.
Proof.
  intros Ht Hl. unfold pack_lines in Hl.
  assert (Ht' : Forall (fun t => (String.length t <= 74)%nat) tokens).
  { apply List.Forall_forall. intros t Hin.
    rewrite forallb_forall in Ht. apply Nat.leb_le. now apply Ht. }
  destruct (pack_fold_bound tokens ([], ""%string) Ht') as [Hlines Hcur];
    [constructor | cbn; lia |].
  rewrite List.Forall_forall in Hlines.
  destruct (String.eqb _ ""); [now apply Hlines|].
  apply in_app_or in Hl as [Hl|[<-|[]]]; [now apply Hlines | eauto].
Qed.

(** The state of the loop of [formatGroupLines]: a pushed line is
    [currentLine] of at most 60 characters followed by the marker. *)
Lemma group_fold_bound (ids : list Z) (st : list string * string) :
  Forall (fun id => (String.length (string_of_Z id) <= 60)%nat) ids ->
  Forall (fun l => exists body, l = body +:+ " -" /\ (String.length body <= 60)%nat) (fst st) ->
  (String.length (snd st) <= 60)%nat ->
  let st' := fold_left group_step ids st in
  Forall (fun l => exists body, l = body +:+ " -" /\ (String.length body <= 60)%nat) (fst st')
  /\ (String.length (snd st') <= 60)%nat.
Proof.
  revert st. induction ids as [|id ids IH]; intros st Hi Hl Hc; cbn zeta.
  - now split.
  - apply Forall_cons_1 in Hi as [Hi His]. cbn [fold_left].
    apply IH; [assumption | |]; unfold group_step.
    + destruct (60 <? String.length (snd st +:+ " " +:+ string_of_Z id))%nat; [|assumption].
      cbn [fst]. apply Forall_app. split; [assumption|].
      constructor; [|constructor]. eauto.
    + destruct (60 <? String.length (snd st +:+ " " +:+ string_of_Z id))%nat eqn:E;
        [assumption|].
      cbn [snd]. apply Nat.ltb_ge in E. exact E.
Qed.

Lemma formatGroupLines_bound (groupName : string) (ids : list Z) (l : string) :
  (String.length ("_" +:+ toUpperCase groupName) <= 60)%nat ->
  forallb (fun id => (String.length (string_of_Z id) <=? 60)%nat) ids = true ->
  In l (formatGroupLines groupName ids) ->
  (String.length l <= 60)%nat
  \/ exists body, l = body +:+ " -" /\ (String.length body <= 60)%nat.
Proof.
  intros Hname Hi Hl. unfold formatGroupLines in Hl.
  assert (Hi' : Forall (fun id => (String.length (string_of_Z id) <= 60)%nat) ids).
  { apply List.Forall_forall. intros id Hin.
    rewrite forallb_forall in Hi. apply Nat.leb_le. now apply Hi. }
  destruct (group_fold_bound ids ([], "_" +:+ toUpperCase groupName) Hi')
    as [Hlines Hcur]; [constructor | exact Hname |].
  rewrite List.Forall_forall in Hlines.
  destruct (String.eqb _ _); [right; now apply Hlines|].
  apply in_app_or in Hl as [Hl|[<-|[]]]; [right; now apply Hlines | now left].
Qed.

(** C1, amended. In the JOINT COORDINATES and ELEMENT INCIDENCES SHELL
    blocks every line is at most 74 characters long before its terminating
    [;], so at most 75 with it, as long as no single entry is longer than
    74; in the group blocks every line is at most 60 characters long before
    the continuation marker, so at most 62 with it, and at most 60 when it
    carries none, as long as no id is longer than 60. *)
Theorem export_line_widths (m : mesh) (gr : groups) :
  forallb (fun n => (String.length (jointStr n) <=? 74)%nat) (nodes m) = true ->
  forallb (fun p => (String.length (plateStr p) <=? 74)%nat) (plates m) = true ->
  forallb (fun id => (String.length (string_of_Z id) <=? 60)%nat)
          (groupedPlates gr ++ shearPlates gr ++ twoWayShearPlates gr) = true ->
  (forall l, In l (joint_lines (nodes m) ++ incidence_lines (plates m)) ->
     (String.length l <= 75)%nat
     /\ exists body, l = body +:+ ";" /\ (String.length body <= 74)%nat)
  /\ (forall l, In l (group_lines gr) ->
     (String.length l <= 62)%nat
     /\ ((String.length l <= 60)%nat
         \/ exists body, l = body +:+ " -" /\ (String.length body <= 60)%nat)).
Proof.
  intros Hn Hp Hg. split.
  - intros l Hl.
    assert (H : exists body, l = body +:+ ";" /\ (String.length body <= 74)%nat).
    { apply in_app_or in Hl as [Hl|Hl]; unfold joint_lines, incidence_lines in Hl;
        (eapply pack_lines_bound; [|exact Hl]); rewrite forallb_forall in *;
        intros t Ht; apply in_map_iff in Ht as (x & <- & Hx); auto. }
    split; [|exact H]. destruct H as (body & -> & Hb).
    rewrite string_length_app. change (String.length ";") with 1%nat. lia.
  - intros l Hl.
    rewrite !forallb_app, !andb_true_iff in Hg. destruct Hg as (Hg1 & Hg2 & Hg3).
    assert (H : (String.length l <= 60)%nat
                \/ exists body, l = body +:+ " -" /\ (String.length body <= 60)%nat).
    { unfold group_lines in Hl.
      destruct (_ || _); [|destruct Hl].
      repeat (apply in_app_or in Hl as [Hl|Hl]).
      - destruct Hl as [<-|[<-|[]]]; left; apply Nat.leb_le; reflexivity.
      - destruct (0 <? _)%nat; [|destruct Hl].
        eapply formatGroupLines_bound; [| exact Hg1 | exact Hl]. apply Nat.leb_le; reflexivity.
      - destruct (0 <? _)%nat; [|destruct Hl].
        eapply formatGroupLines_bound; [| exact Hg2 | exact Hl]. apply Nat.leb_le; reflexivity.
      - destruct (0 <? _)%nat; [|destruct Hl].
        eapply formatGroupLines_bound; [| exact Hg3 | exact Hl]. apply Nat.leb_le; reflexivity.
      - destruct Hl as [<-|[]]; left; apply Nat.leb_le; reflexivity. }
    split; [|exact H]. destruct H as [H|(body & -> & Hb)]; [lia|].
    rewrite string_length_app. change (String.length " -") with 2%nat. lia.
Qed.

Lemma export_line_widths_witness :
  let m := synthesize [0; 1]%float [0; 1]%float 0 [] "down" in
  let gr := {| groupedPlates := [1]; shearPlates := [1]; twoWayShearPlates := [1] |} in
  forallb (fun n => (String.length (jointStr n) <=? 74)%nat) (nodes m) = true
  /\ forallb (fun p => (String.length (plateStr p) <=? 74)%nat) (plates m) = true
  /\ forallb (fun id => (String.length (string_of_Z id) <=? 60)%nat)
             (groupedPlates gr ++ shearPlates gr ++ twoWayShearPlates gr) = true
  /\ (forall l, In l (joint_lines (nodes m) ++ incidence_lines (plates m)) ->
       (String.length l <= 75)%nat
       /\ exists body, l = body +:+ ";" /\ (String.length body <= 74)%nat)
  /\ (forall l, In l (group_lines gr) ->
       (String.length l <= 62)%nat
       /\ ((String.length l <= 60)%nat
           \/ exists body, l = body +:+ " -" /\ (String.length body <= 60)%nat)).
Proof.
  cbn zeta.
  split; [vm_compute; reflexivity|].
  split; [vm_compute; reflexivity|].
  split; [vm_compute; reflexivity|].
  apply (export_line_widths
           (synthesize [0; 1]%float [0; 1]%float 0 [] "down")
           {| groupedPlates := [1]; shearPlates := [1]; twoWayShearPlates := [1] |});
    vm_compute; reflexivity.
Defined.

(** C1 as stated fails on the store's initial state: the export of the plan
    6 by 4 with mesh 0.2 has a line of 75 characters in JOINT COORDINATES,
    and with the pedestal of 0.5 by 0.3 at (3, 2) the 1_WAY_SHEAR block has a
    line of 62 characters. *)
Lemma default_export_has_wide_lines :
  (exists md l,
      run "02-Nov-26" plain_store = Some md
      /\ In l (joint_lines (nodes (model_mesh md)))
      /\ l = "157 0.2 0 1; 158 0.4 0 1; 159 0.6 0 1; 160 0.8 0 1; 161 1 0 1; 162 1.2 0 1;"
      /\ In l (model_lines md)
      /\ String.length l = 75%nat)
  /\ (exists md l,
      run "02-Nov-26" pedestal_store = Some md
      /\ In l (formatGroupLines "1_WAY_SHEAR" (shearPlates (model_groups md)))
      /\ l = "_1_WAY_SHEAR 253 254 255 256 257 258 283 284 285 286 287 288 -"
      /\ In l (model_lines md)
      /\ String.length l = 62%nat).
Proof.
  split.
  - assert (H : match run "02-Nov-26" plain_store with
                | Some md =>
                    let l := "157 0.2 0 1; 158 0.4 0 1; 159 0.6 0 1; 160 0.8 0 1; 161 1 0 1; 162 1.2 0 1;"%string in
                    existsb (String.eqb l) (joint_lines (nodes (model_mesh md)))
                    && existsb (String.eqb l) (model_lines md)
                | None => false
                end = true) by (vm_compute; reflexivity).
    destruct (run "02-Nov-26" plain_store) as [md|]; [|discriminate].
    cbn zeta in H. apply andb_true_iff in H as [H1 H2].
    apply existsb_exists in H1 as (l1 & Hl1 & E1), H2 as (l2 & Hl2 & E2).
    apply String.eqb_eq in E1, E2. subst l1 l2.
    eexists md, _. repeat apply conj; [reflexivity | exact Hl1 | reflexivity | exact Hl2 | reflexivity].
  - assert (H : match run "02-Nov-26" pedestal_store with
                | Some md =>
                    let l := "_1_WAY_SHEAR 253 254 255 256 257 258 283 284 285 286 287 288 -"%string in
                    existsb (String.eqb l)
                      (formatGroupLines "1_WAY_SHEAR" (shearPlates (model_groups md)))
                    && existsb (String.eqb l) (model_lines md)
                | None => false
                end = true) by (vm_compute; reflexivity).
    destruct (run "02-Nov-26" pedestal_store) as [md|]; [|discriminate].
    cbn zeta in H. apply andb_true_iff in H as [H1 H2].
    apply existsb_exists in H1 as (l1 & Hl1 & E1), H2 as (l2 & Hl2 & E2).
    apply String.eqb_eq in E1, E2. subst l1 l2.
    eexists md, _. repeat apply conj; [reflexivity | exact Hl1 | reflexivity | exact Hl2 | reflexivity].
Qed.

(** ** The plain plan *)

(** C8. For the plan 6 by 4 with mesh 0.2, no pedestal and height 0, xLines
    is the 31 doubles j * 0.2 for j = 0..30, from 0 to 6, and zLines the 21
    doubles j * 0.2 for j = 0..20, from 0 to 4; 651 nodes, 600 plates and no
    member are generated; below the header, which carries the date, no line
    of the export mentions MEMBER or GROUP. *)
Theorem plain_plan_scenario (formattedDate : string) :
  exists md,
    run formattedDate plain_store = Some md
    /\ xLines (model_grid md) = multiples 0.2 31
    /\ zLines (model_grid md) = multiples 0.2 21
    /\ hd_error (xLines (model_grid md)) = Some 0%float
    /\ last (xLines (model_grid md)) = Some 6%float
    /\ hd_error (zLines (model_grid md)) = Some 0%float
    /\ last (zLines (model_grid md)) = Some 4%float
    /\ List.length (nodes (model_mesh md)) = 651%nat
    /\ List.length (plates (model_mesh md)) = 600%nat
    /\ members (model_mesh md) = []
    /\ model_lines md =
         header_lines formattedDate ++
         body_lines (model_mesh md) (model_groups md) 0.3
    /\ forallb (fun l => negb (has_substring "MEMBER" l) && negb (has_substring "GROUP" l))
         (body_lines (model_mesh md) (model_groups md) 0.3) = true.
Proof.
  assert (E : gridLines [] 6 4 0.2
              = Some {| xLines := multiples 0.2 31; zLines := multiples 0.2 21 |})
    by (vm_compute; reflexivity).
  assert (H : let g := {| xLines := multiples 0.2 31; zLines := multiples 0.2 21 |} in
              let m := synthesize (xLines g) (zLines g) 0 [] "down" in
              let gr := classify [] g (plateIds m) 0.2 0.3 in
              List.length (nodes m) = 651%nat
              /\ List.length (plates m) = 600%nat
              /\ members m = []
              /\ forallb (fun l => negb (has_substring "MEMBER" l)
                                   && negb (has_substring "GROUP" l))
                         (body_lines m gr 0.3) = true)
    by (vm_compute; repeat split; reflexivity).
  cbv beta zeta in H. destruct H as (Hn & Hp & Hm & Hl).
  unfold run, plain_store; cbn [s_points s_length s_width s_mesh s_pedestalHeight
    s_plateThickness s_zOrientation].
  rewrite E.
  eexists; split; [reflexivity|].
  cbn [model_grid model_mesh model_groups model_lines xLines zLines].
  split; [reflexivity|]. split; [reflexivity|].
  do 4 (split; [vm_compute; reflexivity|]).
  split; [exact Hn|]. split; [exact Hp|].
  split; [exact Hm|].
  split; [reflexivity | exact Hl].
Qed.

(** ** The order of doubles *)

Lemma Pos_compare_cont_Eq (a b : positive) :
  PosDef.Pos.compare_cont Eq a b = Pos.compare a b.
Proof. reflexivity. Qed.

Lemma SFcompare_antisym (X Y : spec_float) :
  SFcompare Y X = option_map CompOpp (SFcompare X Y).
Proof.
  destruct X as [s1|s1| |s1 m1 e1], Y as [s2|s2| |s2 m2 e2]; cbn;
    try reflexivity; try (destruct s1; reflexivity); try (destruct s2; reflexivity);
    try (destruct s1, s2; reflexivity).
  rewrite !Pos_compare_cont_Eq, (Z.compare_antisym e1 e2), (Pos.compare_antisym m1 m2).
  destruct s1, s2; try reflexivity;
    destruct (e1 ?= e2); cbn; try reflexivity; destruct (m1 ?= m2)%positive; reflexivity.
Qed.

Ltac compare_cases :=
  repeat match goal with
         | s : bool |- _ => destruct s
         end;
  cbn in *; try discriminate; try reflexivity;
  repeat match goal with
         | H : context [(?a ?= ?b)%Z] |- _ =>
             destruct (Z.compare_spec a b); try lia; subst; cbn in *
         | |- context [(?a ?= ?b)%Z] =>
             destruct (Z.compare_spec a b); try lia; subst; cbn in *
         end;
  try discriminate; try reflexivity;
  change PosDef.Pos.compare_cont with Pos.compare_cont in *;
  repeat match goal with
         | H : context [Pos.compare_cont Eq ?a ?b] |- _ =>
             change (Pos.compare_cont Eq a b) with (Pos.compare a b) in *;
             destruct (Pos.compare_spec a b); try lia; subst;
             cbn [CompOpp below] in *
         | |- context [Pos.compare_cont Eq ?a ?b] =>
             change (Pos.compare_cont Eq a b) with (Pos.compare a b) in *;
             destruct (Pos.compare_spec a b); try lia; subst;
             cbn [CompOpp below] in *
         | H : context [(?a ?= ?b)%positive] |- _ =>
             destruct (Pos.compare_spec a b); try lia; subst;
             cbn [CompOpp below] in *
         | |- context [(?a ?= ?b)%positive] =>
             destruct (Pos.compare_spec a b); try lia; subst;
             cbn [CompOpp below] in *
         end;
  try discriminate; try reflexivity.

Lemma SFcompare_trans (X Y Z0 : spec_float) (c1 c2 : comparison) :
  SFcompare X Y = Some c1 -> SFcompare Y Z0 = Some c2 ->
  below c1 = true -> below c2 = true ->
  SFcompare X Z0 = Some (match c1, c2 with Eq, Eq => Eq | _, _ => Lt end).
Proof.
  destruct X as [s1|s1| |s1 m1 e1], Y as [s2|s2| |s2 m2 e2], Z0 as [s3|s3| |s3 m3 e3];
    cbn; rewrite ?Pos_compare_cont_Eq; intros H1 H2 B1 B2;
    try discriminate H1; try discriminate H2;
    injection H1 as <-; injection H2 as <-; compare_cases.
Qed.

Lemma SFcompare_some (X Y : spec_float) :
  X <> S754_nan -> Y <> S754_nan -> exists c, SFcompare X Y = Some c.
Proof.
  destruct X, Y; cbn; intros HX HY; try congruence; eauto.
Qed.

Lemma ltb_compare (x y : float) :
  (x <? y)%float = true <-> SFcompare (Prim2SF x) (Prim2SF y) = Some Lt.
Proof.
  rewrite FloatAxioms.ltb_spec. unfold SFltb.
  destruct (SFcompare _ _) as [[]|]; split; congruence.
Qed.

Lemma leb_compare (x y : float) :
  (x <=? y)%float = true <->
  exists c, SFcompare (Prim2SF x) (Prim2SF y) = Some c /\ below c = true.
Proof.
  rewrite FloatAxioms.leb_spec. unfold SFleb.
  destruct (SFcompare _ _) as [[]|]; split; try congruence; eauto;
    intros (c & H & B); try congruence; injection H as <-; discriminate B.
Qed.

Lemma eqb_compare (x y : float) :
  (x =? y)%float = true <-> SFcompare (Prim2SF x) (Prim2SF y) = Some Eq.
Proof.
  rewrite FloatAxioms.eqb_spec. unfold SFeqb.
  destruct (SFcompare _ _) as [[]|]; split; congruence.
Qed.

Lemma is_nan_false (x : float) : is_nan x = false <-> Prim2SF x <> S754_nan.
Proof.
  rewrite <- is_nan_spec. destruct (is_nan x); split; congruence.
Qed.

Lemma ltb_leb (x y : float) : (x <? y)%float = true -> (x <=? y)%float = true.
Proof. rewrite ltb_compare, leb_compare. intros H. exists Lt. now split. Qed.

Lemma ltb_trans (x y z : float) :
  (x <? y)%float = true -> (y <? z)%float = true -> (x <? z)%float = true.
Proof.
  rewrite !ltb_compare. intros H1 H2.
  now rewrite (SFcompare_trans _ _ _ _ _ H1 H2).
Qed.

Lemma leb_trans (x y z : float) :
  (x <=? y)%float = true -> (y <=? z)%float = true -> (x <=? z)%float = true.
Proof.
  rewrite !leb_compare. intros (c1 & H1 & B1) (c2 & H2 & B2).
  rewrite (SFcompare_trans _ _ _ _ _ H1 H2 B1 B2). eexists. split; [reflexivity|].
  now destruct c1, c2.
Qed.

Lemma leb_ltb_trans (x y z : float) :
  (x <=? y)%float = true -> (y <? z)%float = true -> (x <? z)%float = true.
Proof.
  rewrite leb_compare, !ltb_compare. intros (c1 & H1 & B1) H2.
  rewrite (SFcompare_trans _ _ _ _ _ H1 H2 B1 eq_refl). now destruct c1.
Qed.

Lemma ltb_leb_trans (x y z : float) :
  (x <? y)%float = true -> (y <=? z)%float = true -> (x <? z)%float = true.
Proof.
  rewrite leb_compare, !ltb_compare. intros H1 (c2 & H2 & B2).
  now rewrite (SFcompare_trans _ _ _ _ _ H1 H2 eq_refl B2).
Qed.

(** Two numbers are comparable: one of [x < y], [y <= x] holds. *)
Lemma ltb_false_leb (x y : float) :
  is_nan x = false -> is_nan y = false ->
  (x <? y)%float = false -> (y <=? x)%float = true.
Proof.
  rewrite !is_nan_false. intros HX HY H.
  destruct (SFcompare_some _ _ HX HY) as (c & Hc).
  apply leb_compare. rewrite SFcompare_antisym, Hc. cbn.
  exists (CompOpp c). split; [reflexivity|].
  destruct c; try reflexivity.
  apply ltb_compare in Hc. congruence.
Qed.

Lemma leb_ltb_false (x y : float) :
  (x <=? y)%float = true -> (y <? x)%float = false.
Proof.
  rewrite leb_compare. intros (c & Hc & B). apply not_true_iff_false.
  rewrite ltb_compare, SFcompare_antisym, Hc. cbn. destruct c; try discriminate; congruence.
Qed.

Lemma ltb_not_nan (x y : float) :
  (x <? y)%float = true -> is_nan x = false /\ is_nan y = false.
Proof.
  rewrite ltb_compare, !is_nan_false. intros H.
  split; intros E; rewrite E in H; [|destruct (Prim2SF x)]; discriminate H.
Qed.

Lemma leb_not_nan (x y : float) :
  (x <=? y)%float = true -> is_nan x = false /\ is_nan y = false.
Proof.
  rewrite leb_compare, !is_nan_false. intros (c & H & _).
  split; intros E; rewrite E in H; [|destruct (Prim2SF x)]; discriminate H.
Qed.

Lemma leb_refl (x : float) : is_nan x = false -> (x <=? x)%float = true.
Proof.
  rewrite is_nan_false. intros H. apply leb_compare. exists Eq. split; [|reflexivity].
  pose proof (SFeqb_refl _ H) as E. unfold SFeqb in E.
  destruct (SFcompare _ _) as [[]|]; congruence.
Qed.

Lemma ltb_irrefl (x : float) : (x <? x)%float = false.
Proof.
  destruct (is_nan x) eqn:E.
  - apply not_true_iff_false. intros H. apply ltb_not_nan in H. destruct H; congruence.
  - apply leb_ltb_false. now apply leb_refl.
Qed.

(** Numbers that compare equal and are not both zero are the same double. *)
Lemma leb_antisym_eqb (x y : float) :
  (x <=? y)%float = true -> (y <=? x)%float = true -> (x =? y)%float = true.
Proof.
  rewrite !leb_compare, eqb_compare. intros (c1 & H1 & B1) (c2 & H2 & B2).
  rewrite SFcompare_antisym, H1 in H2. cbn in H2. injection H2 as <-.
  destruct c1; try discriminate; assumption.
Qed.

(** ** Math.max, Math.min and clamp *)

Lemma Math_max_spec (x y : float) :
  is_nan x = false -> is_nan y = false ->
  (Math_max x y = x \/ Math_max x y = y)
  /\ (x <=? Math_max x y)%float = true /\ (y <=? Math_max x y)%float = true.
Proof.
  intros Hx Hy. unfold Math_max. rewrite Hx, Hy. cbn [orb].
  destruct (x <? y)%float eqn:E1.
  { repeat apply conj; [now right | now apply ltb_leb | now apply leb_refl]. }
  destruct (y <? x)%float eqn:E2.
  { repeat apply conj; [now left | now apply leb_refl | now apply ltb_leb]. }
  pose proof (ltb_false_leb _ _ Hx Hy E1) as L1.
  pose proof (ltb_false_leb _ _ Hy Hx E2) as L2.
  destruct (get_sign x); repeat apply conj; auto using leb_refl.
Qed.

Lemma Math_min_spec (x y : float) :
  is_nan x = false -> is_nan y = false ->
  (Math_min x y = x \/ Math_min x y = y)
  /\ (Math_min x y <=? x)%float = true /\ (Math_min x y <=? y)%float = true.
Proof.
  intros Hx Hy. unfold Math_min. rewrite Hx, Hy. cbn [orb].
  destruct (x <? y)%float eqn:E1.
  { repeat apply conj; [now left | now apply leb_refl | now apply ltb_leb]. }
  destruct (y <? x)%float eqn:E2.
  { repeat apply conj; [now right | now apply ltb_leb | now apply leb_refl]. }
  pose proof (ltb_false_leb _ _ Hx Hy E1) as L1.
  pose proof (ltb_false_leb _ _ Hy Hx E2) as L2.
  destruct (get_sign x); repeat apply conj; auto using leb_refl.
Qed.

Lemma Math_max_not_nan (x y : float) :
  is_nan x = false -> is_nan y = false -> is_nan (Math_max x y) = false.
Proof.
  intros Hx Hy. destruct (Math_max_spec x y Hx Hy) as ([-> | ->] & _); assumption.
Qed.

Lemma clamp_spec (v a b : float) :
  is_nan v = false -> (a <=? b)%float = true ->
  is_nan (clamp v a b) = false
  /\ (a <=? clamp v a b)%float = true /\ (clamp v a b <=? b)%float = true.
Proof.
  intros Hv Hab. destruct (leb_not_nan _ _ Hab) as [Ha Hb]. unfold clamp.
  destruct (Math_max_spec v a Hv Ha) as (_ & _ & L1).
  pose proof (Math_max_not_nan v a Hv Ha) as Hm.
  destruct (Math_min_spec _ b Hm Hb) as (Hc & _ & L2).
  repeat apply conj; [destruct Hc as [-> | ->]; assumption | | assumption].
  destruct Hc as [-> | ->]; assumption.
Qed.

Lemma eqb_refl_not_nan (x : float) : is_nan x = false -> (x =? x)%float = true.
Proof. unfold is_nan. now destruct (x =? x)%float. Qed.

Lemma eqb_sym (x y : float) : (x =? y)%float = (y =? x)%float.
Proof.
  rewrite !FloatAxioms.eqb_spec. unfold SFeqb.
  rewrite (SFcompare_antisym (Prim2SF x) (Prim2SF y)).
  destruct (SFcompare (Prim2SF x) (Prim2SF y)) as [[]|]; reflexivity.
Qed.

Lemma Math_max_absorbs (v a : float) :
  (a <=? v)%float = true -> (Math_max v a =? v)%float = true.
Proof.
  intros H. destruct (leb_not_nan _ _ H) as [Ha Hv].
  unfold Math_max. rewrite Hv, Ha. cbn [orb].
  rewrite (leb_ltb_false _ _ H).
  destruct (a <? v)%float eqn:E; [now apply eqb_refl_not_nan|].
  pose proof (ltb_false_leb _ _ Ha Hv E) as L.
  destruct (get_sign v); [|now apply eqb_refl_not_nan].
  now apply leb_antisym_eqb.
Qed.

Lemma Math_min_absorbs (v b : float) :
  (v <=? b)%float = true -> (Math_min v b =? v)%float = true.
Proof.
  intros H. destruct (leb_not_nan _ _ H) as [Hv Hb].
  unfold Math_min. rewrite Hv, Hb. cbn [orb].
  destruct (v <? b)%float eqn:E; [now apply eqb_refl_not_nan|].
  rewrite (leb_ltb_false _ _ H).
  pose proof (ltb_false_leb _ _ Hv Hb E) as L.
  destruct (get_sign v); [now apply eqb_refl_not_nan|].
  now apply leb_antisym_eqb.
Qed.

Lemma eqb_leb_r (x y z : float) :
  (x =? y)%float = true -> (y <=? z)%float = true -> (x <=? z)%float = true.
Proof.
  rewrite eqb_compare, !leb_compare. intros H1 (c & H2 & B).
  rewrite (SFcompare_trans _ _ _ _ _ H1 H2 eq_refl B). eexists. split; [reflexivity|].
  now destruct c.
Qed.

Lemma eqb_trans (x y z : float) :
  (x =? y)%float = true -> (y =? z)%float = true -> (x =? z)%float = true.
Proof.
  rewrite !eqb_compare. intros H1 H2.
  now rewrite (SFcompare_trans _ _ _ _ _ H1 H2).
Qed.

(** clamp: with bounds [a <= b] the result lies within them whatever the
    number [v], and a number within the bounds is returned as it is (as a
    number: -0 may come back as +0); NaN stays NaN. *)
Theorem clamp_within_bounds (v a b : float) :
  (a <=? b)%float = true ->
  (is_nan v = false ->
     (a <=? clamp v a b)%float = true /\ (clamp v a b <=? b)%float = true)
  /\ ((a <=? v)%float = true -> (v <=? b)%float = true ->
      (clamp v a b =? v)%float = true)
  /\ (is_nan v = true -> is_nan (clamp v a b) = true).
Proof.
  intros Hab. repeat apply conj.
  - intros Hv. now destruct (clamp_spec v a b Hv Hab) as (_ & H1 & H2).
  - intros Hav Hvb. unfold clamp.
    pose proof (Math_max_absorbs v a Hav) as E1.
    apply (eqb_trans _ (Math_max v a)); [|assumption].
    apply Math_min_absorbs. now apply (eqb_leb_r _ v).
  - intros Hv. unfold clamp, Math_max. rewrite Hv. cbn [orb].
    unfold Math_min. reflexivity.
Qed.

Lemma clamp_within_bounds_witness :
  (0 <=? 6)%float = true
  /\ (is_nan 7.5 = false ->
        (0 <=? clamp 7.5 0 6)%float = true /\ (clamp 7.5 0 6 <=? 6)%float = true)
  /\ ((0 <=? 7.5)%float = true -> (7.5 <=? 6)%float = true ->
      (clamp 7.5 0 6 =? 7.5)%float = true)
  /\ (is_nan 7.5 = true -> is_nan (clamp 7.5 0 6) = true).
Proof.
  split; [reflexivity|]. apply (clamp_within_bounds 7.5 0 6). reflexivity.
Defined.

(** ** findClosestIndex *)

Lemma findClosestIndex_from_spec (arr : list float) (t : float) :
  forall (i : Z) (c : float) (ci : Z),
  let r := findClosestIndex_from arr t i c ci in
  (r = ci
   /\ forall k a, nth_error arr k = Some a -> (abs (a - t) <? c)%float = false)
  \/ (exists k a,
        r = i + Z.of_nat k /\ nth_error arr k = Some a
        /\ (abs (a - t) <? c)%float = true
        /\ (forall j b, nth_error arr j = Some b ->
              (abs (b - t) <? abs (a - t))%float = false)
        /\ (forall j b, (j < k)%nat -> nth_error arr j = Some b ->
              (abs (b - t) <=? abs (a - t))%float = false)).
Proof.
  induction arr as [|a rest IH]; intros i c ci; cbn zeta.
  - left. split; [reflexivity|]. intros [|k] a'; discriminate.
  - cbn [findClosestIndex_from]. set (d := abs (a - t)).
    destruct (d <? c)%float eqn:E.
    + destruct (IH (i + 1) d i) as [[Hr Hall]|(k & a' & Hr & Hk & Hlt & Hmin & Hfirst)].
      * right. exists 0%nat, a. rewrite Hr. repeat apply conj;
          [lia | reflexivity | exact E | | intros j b Hj; lia].
        intros [|j] b Hb; [injection Hb as <-; apply ltb_irrefl | now apply (Hall j)].
      * right. exists (S k), a'. rewrite Hr. repeat apply conj;
          [lia | exact Hk | now apply (ltb_trans _ d) | |].
        -- intros [|j] b Hb; [|now apply (Hmin j)].
           injection Hb as <-. apply leb_ltb_false. now apply ltb_leb.
        -- intros [|j] b Hj Hb; [|apply (Hfirst j); [lia | assumption]].
           injection Hb as <-. apply not_true_iff_false. intros L.
           apply leb_ltb_false in L. fold d in L. congruence.
    + destruct (IH (i + 1) c ci) as [[Hr Hall]|(k & a' & Hr & Hk & Hlt & Hmin & Hfirst)].
      * left. split; [exact Hr|].
        intros [|j] b Hb; [injection Hb as <-; exact E | now apply (Hall j)].
      * right. exists (S k), a'. rewrite Hr. repeat apply conj;
          [lia | exact Hk | exact Hlt | |].
        -- intros [|j] b Hb; [|now apply (Hmin j)].
           injection Hb as <-. apply not_true_iff_false. intros L.
           pose proof (ltb_trans _ _ _ L Hlt) as L'. fold d in L'. congruence.
        -- intros [|j] b Hj Hb; [|apply (Hfirst j); [lia | assumption]].
           injection Hb as <-. apply not_true_iff_false. intros L.
           pose proof (leb_ltb_trans _ _ _ L Hlt) as L'. fold d in L'. congruence.
Qed.

(** findClosestIndex returns -1 when no element lies at a finite distance
    from the target, as on the empty array; otherwise it returns the index
    of an element at the least distance, the first of them. *)
Theorem findClosestIndex_nearest (arr : list float) (target : float) :
  let r := findClosestIndex arr target in
  (r = -1
   /\ forall k a, nth_error arr k = Some a ->
        (abs (a - target) <? infinity)%float = false)
  \/ (0 <= r < Z.of_nat (List.length arr)
      /\ exists a,
          nth_error arr (Z.to_nat r) = Some a
          /\ (abs (a - target) <? infinity)%float = true
          /\ (forall j b, nth_error arr j = Some b ->
                (abs (b - target) <? abs (a - target))%float = false)
          /\ (forall j b, (Z.of_nat j < r) -> nth_error arr j = Some b ->
                (abs (b - target) <=? abs (a - target))%float = false)).
Proof.
  cbn zeta. unfold findClosestIndex.
  destruct (findClosestIndex_from_spec arr target 0 infinity (-1))
    as [[Hr Hall]|(k & a & Hr & Hk & Hlt & Hmin & Hfirst)].
  - left. now split.
  - right. cbn zeta in Hr. rewrite Hr.
    assert (Hlen : (k < List.length arr)%nat)
      by (apply nth_error_Some; congruence).
    split; [lia|]. exists a. replace (Z.to_nat (0 + Z.of_nat k)) with k by lia.
    repeat apply conj; try assumption.
    intros j b Hj. apply Hfirst. lia.
Qed.

(** ** Quotients are numbers *)

Lemma binary_round_aux_nan (sx : bool) (m e : Z) (l : location) :
  binary_round_aux prec emax sx m e l = S754_nan ->
  binary_round_aux prec emax false m e l = S754_nan.
Proof.
  unfold binary_round_aux.
  destruct (shr_fexp prec emax m e l) as [mrs1 e1].
  destruct (shr_fexp prec emax _ e1 loc_Exact) as [mrs2 e2].
  destruct (shr_m mrs2); [discriminate | | reflexivity].
  destruct (e2 <=? emax - prec); discriminate.
Qed.

Lemma rounded_not_nan (sx : bool) (m e : Z) : 0 <= m -> rounded sx m e <> S754_nan.
Proof.
  intros Hm. unfold rounded. destruct m; [discriminate | | lia].
  destruct (e <=? emax - prec); discriminate.
Qed.

(** A number divided by a finite number other than zero is a number. *)
Lemma div_not_nan (x y : float) (s : bool) (m : positive) (e : Z) :
  is_nan x = false -> Prim2SF y = S754_finite s m e -> is_nan (x / y) = false.
Proof.
  rewrite !is_nan_false, div_spec. unfold SF64div. intros Hx Ey. rewrite Ey.
  destruct (Prim2SF x) as [sx|sx| |sx mx ex] eqn:Ex; cbn [SFdiv]; try discriminate;
    [congruence|].
  destruct (valid_finite x _ _ _ Ex) as [Hmx Hex].
  destruct (valid_finite y _ _ _ Ey) as [Hmy Hey].
  destruct (SFdiv_finite_spec mx ex m e Hmx Hex Hmy Hey) as (m3 & e3 & E & Hm3 & _).
  cbn [SFdiv xorb] in E.
  destruct (SFdiv_core_binary prec emax (Z.pos mx) ex (Z.pos m) e) as [[mz ez] lz].
  intros Hnan. apply binary_round_aux_nan in Hnan. rewrite Hnan in E.
  symmetry in E. revert E. apply rounded_not_nan. lia.
Qed.


(** ** Number fields *)

Lemma or_default_not_nan (v d : float) :
  is_nan d = false -> is_nan (or_default v d) = false.
Proof.
  intros Hd. unfold or_default. destruct (is_nan v) eqn:E; [exact Hd|].
  cbn [orb]. now destruct (is_zero v).
Qed.

Lemma or_default_not_zero (v d : float) :
  is_zero d = false -> is_zero (or_default v d) = false.
Proof.
  intros Hd. unfold or_default. destruct (is_nan v); [exact Hd|].
  cbn [orb]. now destruct (is_zero v) eqn:E.
Qed.

(** Whatever is typed into the number fields, the stored plan length and
    width are at least 0.1 and the stored mesh at least 0.01, hence
    positive; the stored pedestal height is a number; the stored plate
    thickness is a number other than zero (it may be negative). *)
Theorem number_fields_store_valid_values (parsed : float) :
  (0.1 <=? planSizeInput parsed)%float = true
  /\ (0.01 <=? meshInput parsed)%float = true
  /\ (0 <? meshInput parsed)%float = true
  /\ is_nan (pedestalHeightInput parsed) = false
  /\ is_nan (plateThicknessInput parsed) = false
  /\ is_zero (plateThicknessInput parsed) = false.
Proof.
  assert (H1 : (0.1 <=? planSizeInput parsed)%float = true).
  { unfold planSizeInput. apply Math_max_spec; [reflexivity|].
    now apply or_default_not_nan. }
  assert (H2 : (0.01 <=? meshInput parsed)%float = true).
  { unfold meshInput. apply Math_max_spec; [reflexivity|].
    now apply or_default_not_nan. }
  repeat apply conj; try assumption.
  - apply (ltb_leb_trans _ 0.01); [reflexivity | assumption].
  - now apply or_default_not_nan.
  - now apply or_default_not_nan.
  - now apply or_default_not_zero.
Qed.

(** ** Rows of the pedestal list *)

(** Editing X or Z of pedestal [id] in the list changes that coordinate of
    the pedestals of this id only, and the new coordinate lies within the
    plan whatever was typed, NaN included. *)
Theorem coordinate_edit_stays_in_plan (id : Z) (parsed length width : float)
    (arr : list point) :
  (0 <=? length)%float = true -> (0 <=? width)%float = true ->
  Forall2 (fun q q' =>
             if p_id q =? id
             then p_id q' = p_id q /\ p_z q' = p_z q
                  /\ p_length q' = p_length q /\ p_width q' = p_width q
                  /\ (0 <=? p_x q')%float = true /\ (p_x q' <=? length)%float = true
             else q' = q)
          arr (onChangeX id parsed length arr)
  /\ Forall2 (fun q q' =>
             if p_id q =? id
             then p_id q' = p_id q /\ p_x q' = p_x q
                  /\ p_length q' = p_length q /\ p_width q' = p_width q
                  /\ (0 <=? p_z q')%float = true /\ (p_z q' <=? width)%float = true
             else q' = q)
          arr (onChangeZ id parsed width arr).
Proof.
  intros HL HW.
  assert (Hv : is_nan (or_default parsed 0) = false) by now apply or_default_not_nan.
  destruct (clamp_spec _ 0 length Hv HL) as (_ & X1 & X2).
  destruct (clamp_spec _ 0 width Hv HW) as (_ & Z1 & Z2).
  split; unfold onChangeX, onChangeZ; cbn zeta;
    induction arr as [|q arr IH]; cbn [map]; constructor; try assumption;
    destruct (p_id q =? id); cbn; auto 10.
Qed.

Lemma coordinate_edit_stays_in_plan_witness :
  let p := {| p_id := 1; p_x := 3; p_z := 2; p_length := 0.5; p_width := 0.3 |} in
  (0 <=? 6)%float = true /\ (0 <=? 4)%float = true
  /\ Forall2 (fun q q' =>
             if p_id q =? 1
             then p_id q' = p_id q /\ p_z q' = p_z q
                  /\ p_length q' = p_length q /\ p_width q' = p_width q
                  /\ (0 <=? p_x q')%float = true /\ (p_x q' <=? 6)%float = true
             else q' = q)
          [p] (onChangeX 1 7.5 6 [p])
  /\ Forall2 (fun q q' =>
             if p_id q =? 1
             then p_id q' = p_id q /\ p_x q' = p_x q
                  /\ p_length q' = p_length q /\ p_width q' = p_width q
                  /\ (0 <=? p_z q')%float = true /\ (p_z q' <=? 4)%float = true
             else q' = q)
          [p] (onChangeZ 1 7.5 4 [p]).
Proof.
  cbv zeta. split; [reflexivity|]. split; [reflexivity|].
  apply (coordinate_edit_stays_in_plan 1 7.5 6 4); reflexivity.
Defined.

(** Editing L or W of pedestal [id] changes that size of the pedestals of
    this id only, and the new size is at least 0.1 whatever was typed. *)
Theorem size_edit_is_at_least_a_tenth (id : Z) (parsed : float) (arr : list point) :
  Forall2 (fun q q' =>
             if p_id q =? id
             then p_id q' = p_id q /\ p_x q' = p_x q /\ p_z q' = p_z q
                  /\ p_width q' = p_width q
                  /\ (0.1 <=? p_length q')%float = true
             else q' = q)
          arr (onChangeLength id parsed arr)
  /\ Forall2 (fun q q' =>
             if p_id q =? id
             then p_id q' = p_id q /\ p_x q' = p_x q /\ p_z q' = p_z q
                  /\ p_length q' = p_length q
                  /\ (0.1 <=? p_width q')%float = true
             else q' = q)
          arr (onChangeWidth id parsed arr).
Proof.
  assert (H : (0.1 <=? Math_max 0.1 (or_default parsed 0.1))%float = true).
  { apply Math_max_spec; [reflexivity|]. now apply or_default_not_nan. }
  split; unfold onChangeLength, onChangeWidth; cbn zeta;
    induction arr as [|q arr IH]; cbn [map]; constructor; try assumption;
    destruct (p_id q =? id); cbn; auto 10.
Qed.

(** ** Adding, moving and deleting pedestals *)









(** ** The sign of a difference

    The comparator [(x, y) => x - y] of the two sorts is negative exactly
    when [x < y]: a difference of two doubles is a multiple of 2^-1074 and
    does not round to zero. *)

Lemma iter_xO (m d : positive) :
  Z.pos (PosDef.Pos.iter xO m d) = Z.pos m * 2 ^ Z.pos d.
Proof.
  change (PosDef.Pos.iter xO m d) with (Pos.iter xO m d).
  induction d as [|d IH] using Pos.peano_ind.
  - cbn. lia.
  - rewrite Pos.iter_succ, Pos2Z.inj_xO, IH, Pos2Z.inj_succ, Z.pow_succ_r by lia. ring.
Qed.

Lemma shl_align_spec (mx : positive) (ex ez : Z) :
  let '(m', e') := shl_align mx ex ez in
  e' = Z.min ex ez /\ Z.pos m' = Z.pos mx * 2 ^ (ex - e').
Proof.
  unfold shl_align. destruct (ez - ex) as [|d|d] eqn:E.
  - split; [lia|]. rewrite Z.sub_diag. cbn. lia.
  - split; [lia|]. rewrite Z.sub_diag. cbn. lia.
  - split; [lia|]. rewrite iter_xO. do 2 f_equal. lia.
Qed.

Lemma Zdigits2_shift (m d : Z) :
  0 < m -> 0 <= d -> Zdigits2 (m * 2 ^ d) = Zdigits2 m + d.
Proof.
  intros Hm Hd. destruct (Zdigits2_bounds m Hm) as [Hl Hu].
  pose proof (Zdigits2_nonneg m) as Hk.
  assert (Hk1 : 1 <= Zdigits2 m).
  { destruct (Z.eq_dec (Zdigits2 m) 0) as [E|]; [|lia]. rewrite E in Hu. cbn in Hu. lia. }
  assert (Hp : 0 < 2 ^ d) by (apply Z.pow_pos_nonneg; lia).
  assert (L : 2 ^ (Zdigits2 m - 1 + d) <= m * 2 ^ d)
    by (rewrite Z.pow_add_r by lia; nia).
  assert (U : m * 2 ^ d < 2 ^ (Zdigits2 m + d))
    by (rewrite Z.pow_add_r by lia; nia).
  assert (K1 : 0 <= Zdigits2 m - 1 + d) by lia.
  assert (K2 : 0 <= Zdigits2 m + d) by lia.
  assert (K3 : 0 <= m * 2 ^ d < 2 ^ (Zdigits2 m + d)) by nia.
  pose proof (Zdigits2_lower _ _ K1 L).
  pose proof (Zdigits2_upper _ _ K2 K3).
  lia.
Qed.

(** A non-zero multiple of 2^-1074 rounds to a non-zero double of its sign. *)
Lemma binary_round_pos (sx : bool) (m : positive) (e : Z) :
  -1074 <= e ->
  exists m3 e3,
    binary_round prec emax sx m e = rounded sx m3 e3
    /\ 0 < m3 < 2 ^ 53 /\ -1074 <= e3 /\ (-1074 < e3 -> 2 ^ 52 <= m3).
Proof.
  intros He. unfold binary_round.
  pose proof (shl_align_spec m e (fexp prec emax (Z.pos (digits2_pos m) + e))) as Hs.
  destruct (shl_align m e _) as [mz ez]. destruct Hs as [Ez Em].
  change (Z.pos (digits2_pos m)) with (Zdigits2 (Z.pos m)) in Ez.
  pose proof (fexp_ge_emin (Zdigits2 (Z.pos m) + e)) as Hf.
  assert (Hez : -1074 <= ez) by lia.
  assert (Hnorm : ez <= fexp prec emax (Zdigits2 (Z.pos mz) + ez)).
  { rewrite Em, Zdigits2_shift by lia.
    replace (Zdigits2 (Z.pos m) + (e - ez) + ez) with (Zdigits2 (Z.pos m) + e) by lia.
    lia. }
  set (X := scaled (Z.pos mz) ez).
  assert (HX : 0 < X) by (apply scaled_positive; lia).
  destruct (binary_round_aux_spec X 1 sx (Z.pos mz) ez loc_Exact)
    as (m3 & e3 & E & Hm3 & He3 & Hn3 & _ & HP1); try lia.
  - unfold encloses. cbn [shr_record_of_loc shr_m shr_r]. fold X.
    repeat apply conj; try (unfold scale; lia); try discriminate.
    assert (scaled (Z.pos mz) ez < scaled (Z.pos mz + 1) ez)
      by (apply scaled_lt_cancel; unfold scale; lia).
    fold X in H. lia.
  - exists m3, e3. split; [exact E|]. split; [|split; assumption].
    split; [|lia].
    assert (H1 : scaled 1 (-1074) <= scaled m3 e3).
    { apply HP1; [lia | lia |]. rewrite Z.mul_1_r. unfold X.
      replace ez with (-1074 + (ez + 1074)) by lia.
      rewrite scaled_shift by (unfold scale; lia).
      apply scaled_le_cancel; [unfold scale; lia|].
      assert (0 < 2 ^ (ez + 1074)) by (apply Z.pow_pos_nonneg; lia). nia. }
    assert (H0 : 0 < scaled 1 (-1074)) by (apply scaled_positive; lia).
    destruct (Z.eq_dec m3 0) as [->|]; [|lia].
    unfold scaled in H0, H1. lia.
Qed.

Lemma SFltb_rounded_zero (sx s0 : bool) (m e : Z) :
  0 < m -> SFltb (rounded sx m e) (S754_zero s0) = sx.
Proof.
  intros Hm. unfold rounded. destruct m as [|p|p]; try lia.
  destruct (e <=? emax - prec); destruct sx; reflexivity.
Qed.

Lemma valid_normal (s : bool) (m : positive) (e : Z) :
  valid_binary (S754_finite s m e) = true ->
  Z.pos m < 2 ^ 53 /\ -1074 <= e <= 971 /\ (-1074 < e -> 2 ^ 52 <= Z.pos m).
Proof.
  intros H. cbn [SpecFloat.valid_binary] in H. unfold bounded, canonical_mantissa in H.
  apply andb_true_iff in H as [Hc Hb].
  apply Z.eqb_eq in Hc. apply Z.leb_le in Hb. rewrite fexp_eq in Hc.
  change (emax - prec) with 971 in Hb.
  change (Z.pos (digits2_pos m)) with (Zdigits2 (Z.pos m)) in Hc.
  destruct (Zdigits2_bounds (Z.pos m)) as [Hl Hu]; [lia|].
  assert (Hd : Zdigits2 (Z.pos m) <= 53) by lia.
  assert (2 ^ Zdigits2 (Z.pos m) <= 2 ^ 53) by (apply Z.pow_le_mono_r; lia).
  repeat apply conj; try lia.
  intros Hgt. assert (E : Zdigits2 (Z.pos m) = 53) by lia.
  rewrite E in Hl. exact Hl.
Qed.

(** Doubles compare as the integers they are at the smaller exponent. *)
Lemma SFcompare_value (s1 s2 : bool) (m1 m2 : positive) (e1 e2 : Z) :
  valid_binary (S754_finite s1 m1 e1) = true ->
  valid_binary (S754_finite s2 m2 e2) = true ->
  SFcompare (S754_finite s1 m1 e1) (S754_finite s2 m2 e2) =
  Some (cond_Zopp s1 (Z.pos m1 * 2 ^ (e1 - Z.min e1 e2))
        ?= cond_Zopp s2 (Z.pos m2 * 2 ^ (e2 - Z.min e1 e2))).
Proof.
  intros V1 V2.
  destruct (valid_normal _ _ _ V1) as (Hm1 & He1 & Hn1).
  destruct (valid_normal _ _ _ V2) as (Hm2 & He2 & Hn2).
  assert (P1 : 0 < 2 ^ (e1 - Z.min e1 e2)) by (apply Z.pow_pos_nonneg; lia).
  assert (P2 : 0 < 2 ^ (e2 - Z.min e1 e2)) by (apply Z.pow_pos_nonneg; lia).
  set (v1 := Z.pos m1 * 2 ^ (e1 - Z.min e1 e2)) in *.
  set (v2 := Z.pos m2 * 2 ^ (e2 - Z.min e1 e2)) in *.
  assert (Hv1 : 0 < v1) by (unfold v1; nia).
  assert (Hv2 : 0 < v2) by (unfold v2; nia).
  assert (Hcmp : match e1 ?= e2 with
                 | Eq => (m1 ?= m2)%positive
                 | Lt => Lt
                 | Gt => Gt
                 end = (v1 ?= v2)).
  { destruct (Z.compare_spec e1 e2) as [E|L|G].
    - subst e2. unfold v1, v2. rewrite Z.min_id, Z.sub_diag. cbn [Z.pow].
      now rewrite !Z.mul_1_r.
    - symmetry. apply Z.compare_lt_iff. unfold v1, v2.
      replace (Z.min e1 e2) with e1 by lia. rewrite Z.sub_diag. cbn [Z.pow].
      assert (2 ^ 1 <= 2 ^ (e2 - e1)) by (apply Z.pow_le_mono_r; lia).
      specialize (Hn2 ltac:(lia)). change (2 ^ 1) with 2 in H.
      change (2 ^ 53) with (2 ^ 52 * 2) in Hm1. nia.
    - symmetry. apply Z.compare_gt_iff. unfold v1, v2.
      replace (Z.min e1 e2) with e2 by lia. rewrite Z.sub_diag. cbn [Z.pow].
      assert (2 ^ 1 <= 2 ^ (e1 - e2)) by (apply Z.pow_le_mono_r; lia).
      specialize (Hn1 ltac:(lia)). change (2 ^ 1) with 2 in H.
      change (2 ^ 53) with (2 ^ 52 * 2) in Hm2. nia. }
  cbn [SFcompare]. rewrite Pos_compare_cont_Eq. f_equal.
  destruct s1, s2; cbn [cond_Zopp].
  - rewrite Z.compare_opp, (Z.compare_antisym v1 v2), <- Hcmp.
    destruct (e1 ?= e2); reflexivity.
  - symmetry. apply Z.compare_lt_iff. lia.
  - symmetry. apply Z.compare_gt_iff. lia.
  - exact Hcmp.
Qed.

Lemma SFsub_sign (X Y : spec_float) :
  valid_binary X = true -> valid_binary Y = true ->
  X <> S754_nan -> Y <> S754_nan ->
  SFltb (SFsub prec emax X Y) (S754_zero false) = SFltb X Y.
Proof.
  intros VX VY HX HY.
  destruct X as [sx|sx| |sx mx ex], Y as [sy|sy| |sy my ey]; try congruence;
    try (destruct sx, sy; reflexivity); try (destruct sx; reflexivity);
    try (destruct sy; reflexivity).
  unfold SFltb at 2. rewrite (SFcompare_value _ _ _ _ _ _ VX VY).
  cbn [SFsub]. change IntDef.Z.min with Z.min.
  destruct (valid_normal _ _ _ VX) as (_ & Hex & _).
  destruct (valid_normal _ _ _ VY) as (_ & Hey & _).
  pose proof (shl_align_spec mx ex (Z.min ex ey)) as Sx.
  pose proof (shl_align_spec my ey (Z.min ex ey)) as Sy.
  destruct (shl_align mx ex (Z.min ex ey)) as [mx' ex'].
  destruct (shl_align my ey (Z.min ex ey)) as [my' ey'].
  destruct Sx as [Ex' Emx], Sy as [Ey' Emy]. cbn [fst].
  rewrite Emx, Emy.
  replace ex' with (Z.min ex ey) by lia. replace ey' with (Z.min ex ey) by lia.
  set (v1 := cond_Zopp sx _). set (v2 := cond_Zopp sy _).
  unfold binary_normalize.
  destruct (v1 - v2) as [|p|p] eqn:E.
  - replace (v1 ?= v2) with Eq by (symmetry; apply Z.compare_eq_iff; lia). reflexivity.
  - destruct (binary_round_pos false p (Z.min ex ey)) as (m3 & e3 & -> & Hm3 & _); [lia|].
    rewrite SFltb_rounded_zero by lia.
    replace (v1 ?= v2) with Gt by (symmetry; apply Z.compare_gt_iff; lia). reflexivity.
  - destruct (binary_round_pos true p (Z.min ex ey)) as (m3 & e3 & -> & Hm3 & _); [lia|].
    rewrite SFltb_rounded_zero by lia.
    replace (v1 ?= v2) with Lt by (symmetry; apply Z.compare_lt_iff; lia). reflexivity.
Qed.

Lemma sub_ltb_zero (x y : float) :
  is_nan x = false -> is_nan y = false -> (x - y <? 0)%float = (x <? y)%float.
Proof.
  rewrite !is_nan_false, !FloatAxioms.ltb_spec, sub_spec. intros Hx Hy.
  change (Prim2SF 0) with (S754_zero false).
  apply SFsub_sign; auto using Prim2SF_valid.
Qed.

(** ** Numbers stay numbers *)

Lemma rounded_valid (sx : bool) (m e : Z) :
  0 <= m < 2 ^ 53 -> -1074 <= e -> (-1074 < e -> 2 ^ 52 <= m) ->
  valid_binary (rounded sx m e) = true.
Proof.
  intros Hm He Hn. unfold rounded. destruct m as [|p|p]; [reflexivity | | lia].
  destruct (Z.leb_spec e (emax - prec)) as [Hb|Hb]; [|reflexivity].
  cbn [SpecFloat.valid_binary]. unfold bounded, canonical_mantissa.
  apply andb_true_iff. split; [|now apply Z.leb_le].
  apply Z.eqb_eq. rewrite fexp_eq.
  change (Z.pos (digits2_pos p)) with (Zdigits2 (Z.pos p)).
  assert (Hd : Zdigits2 (Z.pos p) <= 53) by (apply Zdigits2_upper; lia).
  destruct (Z.eq_dec e (-1074)) as [->|Hne]; [lia|].
  assert (H52 : 2 ^ 52 <= Z.pos p) by (apply Hn; lia).
  pose proof (Zdigits2_lower _ 52 ltac:(lia) H52). lia.
Qed.

Lemma float_of_Z_not_nan (z : Z) : is_nan (float_of_Z z) = false.
Proof.
  apply is_nan_false. unfold float_of_Z, binary_normalize.
  destruct z as [|p|p].
  - rewrite Prim2SF_SF2Prim by reflexivity. discriminate.
  - destruct (binary_round_pos false p 0) as (m3 & e3 & -> & Hm3 & He3 & Hn3); [lia|].
    rewrite Prim2SF_SF2Prim by (apply rounded_valid; [lia | assumption | assumption]).
    apply rounded_not_nan. lia.
  - destruct (binary_round_pos true p 0) as (m3 & e3 & -> & Hm3 & He3 & Hn3); [lia|].
    rewrite Prim2SF_SF2Prim by (apply rounded_valid; [lia | assumption | assumption]).
    apply rounded_not_nan. lia.
Qed.

Lemma Math_round_not_nan (x : float) : is_nan x = false -> is_nan (Math_round x) = false.
Proof.
  intros Hx. unfold Math_round.
  destruct (Math_round_x x) as [| |z|]; try assumption.
  destruct (abs x <? 0x1p52)%float; [|assumption].
  destruct (z =? 0); [destruct (get_sign x); reflexivity|].
  apply float_of_Z_not_nan.
Qed.

(** A number times a finite number with a full mantissa is a number. *)
Lemma mul_not_nan (x y : float) (s : bool) (m : positive) (e : Z) :
  is_nan x = false -> Prim2SF y = S754_finite s m e -> 2 ^ 52 <= Z.pos m ->
  is_nan (x * y) = false.
Proof.
  rewrite !is_nan_false, mul_spec. unfold SF64mul. intros Hx Ey H52. rewrite Ey.
  destruct (Prim2SF x) as [sx|sx| |sx mx ex] eqn:Ex; cbn [SFmul]; try discriminate;
    [congruence|].
  destruct (valid_finite x _ _ _ Ex) as [Hmx Hex].
  destruct (valid_finite y _ _ _ Ey) as [Hmy Hey].
  intros Hnan. apply binary_round_aux_nan in Hnan. revert Hnan.
  rewrite Pos2Z.inj_mul.
  set (X := scaled (Z.pos mx * Z.pos m) (ex + e)).
  assert (Hprod : 2 ^ 52 <= Z.pos mx * Z.pos m) by nia.
  destruct (binary_round_aux_spec X 1 false (Z.pos mx * Z.pos m) (ex + e) loc_Exact)
    as (m3 & e3 & E & Hm3 & _); try lia.
  - unfold X. apply scaled_pos. lia.
  - unfold encloses. cbn [shr_record_of_loc shr_m shr_r]. fold X.
    repeat apply conj; try (unfold scale; lia); try discriminate.
    assert (scaled (Z.pos mx * Z.pos m) (ex + e) < scaled (Z.pos mx * Z.pos m + 1) (ex + e))
      by (apply scaled_lt_cancel; unfold scale; lia).
    fold X in H. lia.
  - pose proof (Zdigits2_lower (Z.pos mx * Z.pos m) 52 ltac:(lia) Hprod).
    rewrite fexp_eq. lia.
  - rewrite E. apply rounded_not_nan. lia.
Qed.

Lemma snap_not_nan (x : float) : is_nan x = false -> is_nan (snap eps_default x) = false.
Proof.
  intros Hx. unfold snap.
  assert (E : Prim2SF eps_default = S754_finite false 4722366482869645 (-72))
    by reflexivity.
  apply (mul_not_nan _ _ _ _ _ (Math_round_not_nan _ (div_not_nan _ _ _ _ _ Hx E)) E).
  lia.
Qed.

Lemma Math_min_not_nan (x y : float) :
  is_nan x = false -> is_nan y = false -> is_nan (Math_min x y) = false.
Proof.
  intros Hx Hy. destruct (Math_min_spec x y Hx Hy) as ([-> | ->] & _); assumption.
Qed.

Lemma clamp_not_nan (v a b : float) :
  is_nan v = false -> is_nan a = false -> is_nan b = false ->
  is_nan (clamp v a b) = false.
Proof.
  intros Hv Ha Hb. unfold clamp.
  apply Math_min_not_nan; [apply Math_max_not_nan|]; assumption.
Qed.

Lemma stored_not_nan (x : float) : is_nan x = false -> is_nan (stored x) = false.
Proof. intros H. unfold stored. now destruct (is_zero x). Qed.

(** ** Sorted arrays *)

Lemma sort_insert_sorted (x : float) (l : list float) :
  is_nan x = false -> Forall (fun e => is_nan e = false) l ->
  StronglySorted (fun a b => (a <=? b)%float = true) l ->
  StronglySorted (fun a b => (a <=? b)%float = true) (sort_insert x l).
Proof.
  intros Hx Hl Hs. induction l as [|y rest IH]; cbn [sort_insert].
  - repeat constructor.
  - apply Forall_cons in Hl as [Hy Hrest]. apply StronglySorted_inv in Hs as [Hs Hall].
    rewrite (sub_ltb_zero y x Hy Hx).
    destruct (y <? x)%float eqn:E.
    + constructor; [now apply IH|].
      apply (Permutation_Forall (Permutation_sym (sort_insert_perm x rest))).
      constructor; [now apply ltb_leb | assumption].
    + pose proof (ltb_false_leb _ _ Hy Hx E) as L.
      constructor; [now constructor|].
      constructor; [assumption|].
      eapply List.Forall_impl; [|exact Hall]. intros r Hr. cbn in Hr.
      now apply (leb_trans _ y).
Qed.

Lemma sort_numeric_sorted (l : list float) :
  Forall (fun e => is_nan e = false) l ->
  StronglySorted (fun a b => (a <=? b)%float = true) (sort_numeric l).
Proof.
  induction l as [|x l IH]; intros Hl; cbn; [constructor|].
  apply Forall_cons in Hl as [Hx Hl].
  apply sort_insert_sorted; [assumption | | now apply IH].
  now apply (Permutation_Forall (Permutation_sym (sort_numeric_perm l))).
Qed.

Lemma StronglySorted_nth {A : Type} (R : A -> A -> Prop) (l : list A) :
  StronglySorted R l ->
  forall i j a b, (i < j)%nat -> nth_error l i = Some a -> nth_error l j = Some b -> R a b.
Proof.
  induction 1 as [|x l Hs IH Hall]; intros i j a b Hij Ha Hb.
  - destruct i; discriminate.
  - destruct j as [|j]; [lia|]. cbn in Hb. destruct i as [|i].
    + cbn in Ha. injection Ha as <-. rewrite List.Forall_forall in Hall.
      apply Hall. eapply nth_error_In. exact Hb.
    + cbn in Ha. apply (IH i j); [lia | assumption | assumption].
Qed.

Lemma leb_distinct_ltb (a b : float) :
  (a <=? b)%float = true -> sameValueZero a b = false -> (a <? b)%float = true.
Proof.
  unfold sameValueZero. rewrite orb_false_iff. intros L [E _].
  apply leb_compare in L as (c & Hc & B). apply ltb_compare.
  destruct c; [|assumption | discriminate].
  apply eqb_compare in Hc. congruence.
Qed.

(** A sorted array of distinct numbers grows strictly. *)
Lemma sort_numeric_increasing (l : list float) :
  NoDup l -> Forall (fun e => stored e = e) l -> Forall (fun e => is_nan e = false) l ->
  increasing (sort_numeric l).
Proof.
  intros Hnd Hst Hnan i j a b Hij Ha Hb.
  pose proof (sort_numeric_perm l) as Hperm.
  apply leb_distinct_ltb.
  - exact (StronglySorted_nth _ _ (sort_numeric_sorted l Hnan) i j a b Hij Ha Hb).
  - apply (distinct_entries (sort_numeric l)) with (i := i) (j := j); try assumption.
    + now rewrite Hperm.
    + now rewrite Hperm.
    + lia.
Qed.

Lemma Set_of_not_nan (arr : list float) :
  Forall (fun e => is_nan e = false) arr ->
  Forall (fun e => is_nan e = false) (Set_of arr).
Proof.
  intros H. destruct (Set_of_spec arr) as (_ & _ & Hin).
  apply List.Forall_forall. intros e He. apply Hin in He as (x & Hx & ->).
  rewrite List.Forall_forall in H. apply stored_not_nan. now apply H.
Qed.

(** uniqSorted of an array without NaN is strictly increasing, and its
    values are the multiples of 1e-6 stored for the values of the array:
    [Math.round(x / 1e-6) * 1e-6], with -0 stored as +0. *)
Theorem uniqSorted_is_strictly_increasing (arr : list float) :
  forallb (fun x => negb (is_nan x)) arr = true ->
  increasing (uniqSorted arr eps_default)
  /\ (forall e, In e (uniqSorted arr eps_default) <->
                exists x, In x arr /\ e = stored (snap eps_default x)).
Proof.
  intros H. rewrite forallb_forall in H. unfold uniqSorted.
  destruct (Set_of_spec (map (snap eps_default) arr)) as (Hnd & Hst & Hin).
  split.
  - apply sort_numeric_increasing; try assumption.
    apply Set_of_not_nan, List.Forall_forall. intros e He.
    apply in_map_iff in He as (x & <- & Hx). apply snap_not_nan.
    apply H in Hx. now destruct (is_nan x).
  - intros e. rewrite <- list_elem_of_In, (sort_numeric_perm _), list_elem_of_In, Hin.
    split.
    + intros (s & Hs & ->). apply in_map_iff in Hs as (x & <- & Hx). eauto.
    + intros (x & Hx & ->). exists (snap eps_default x). split; [|reflexivity].
      now apply in_map.
Qed.

Lemma uniqSorted_is_strictly_increasing_witness :
  forallb (fun x => negb (is_nan x)) [0; 6; 3; 6.0000001]%float = true
  /\ increasing (uniqSorted [0; 6; 3; 6.0000001]%float eps_default)
  /\ (forall e, In e (uniqSorted [0; 6; 3; 6.0000001]%float eps_default) <->
                exists x, In x [0; 6; 3; 6.0000001]%float /\ e = stored (snap eps_default x)).
Proof.
  split; [reflexivity|].
  apply (uniqSorted_is_strictly_increasing [0; 6; 3; 6.0000001]%float). reflexivity.
Defined.

(** ** Grid lines *)

Lemma add_interior_not_nan (lines : list float) (a b step : float) (k : Z) :
  Forall (fun e => is_nan e = false) lines ->
  Forall (fun e => is_nan e = false) (add_interior lines a b step k).
Proof.
  unfold add_interior. generalize (zseq 1 (Z.to_nat k)) as js.
  intros js. revert lines. induction js as [|j js IH]; intros lines Hl; cbn [fold_left].
  - assumption.
  - destruct (_ && _) eqn:E; [|now apply IH].
    apply IH. apply andb_true_iff in E as [E _]. apply ltb_not_nan in E as [_ Ht].
    unfold Set_add. destruct (includes lines _); [assumption|].
    apply Forall_app. split; [assumption|].
    constructor; [now apply stored_not_nan | constructor].
Qed.

Lemma divide_cuts_inv (cuts : list float) (step : float) (lines lines' : list float) :
  divide_cuts cuts step lines = Some lines' ->
  NoDup lines -> Forall (fun e => stored e = e) lines ->
  Forall (fun e => is_nan e = false) lines ->
  NoDup lines' /\ Forall (fun e => stored e = e) lines'
  /\ Forall (fun e => is_nan e = false) lines'.
Proof.
  revert lines. induction cuts as [|a cuts IH]; intros lines E Hnd Hs Hn.
  - cbn in E. injection E as <-. auto.
  - destruct cuts as [|b rest].
    + cbn in E. injection E as <-. auto.
    + cbn [divide_cuts] in E. destruct (b - a <=? 0)%float.
      * now apply (IH lines).
      * destruct (division_count (b - a)%float step) as [k|]; [|discriminate].
        destruct (add_interior_spec lines a b step k Hnd Hs) as (H1 & H2 & _).
        apply (IH _ E H1 H2). now apply add_interior_not_nan.
Qed.

Lemma axis_increasing (seeds : list float) (max step : float) (lines : list float) :
  addDivisions (uniqSorted seeds eps_default) max step = Some lines ->
  Forall (fun e => is_nan e = false) seeds ->
  increasing lines.
Proof.
  unfold addDivisions. intros E Hseeds.
  set (cuts := uniqSorted seeds eps_default) in *.
  destruct (divide_cuts cuts step (Set_of cuts)) as [lines'|] eqn:Ed; [|discriminate].
  cbn in E. injection E as <-.
  destruct (Set_of_spec cuts) as (Hs1 & Hs2 & _).
  assert (Hcuts : Forall (fun e => is_nan e = false) cuts).
  { unfold cuts, uniqSorted.
    apply (Permutation_Forall (Permutation_sym (sort_numeric_perm _))).
    apply Set_of_not_nan, List.Forall_forall. intros e He.
    apply in_map_iff in He as (x & <- & Hx). apply snap_not_nan.
    rewrite List.Forall_forall in Hseeds. now apply Hseeds. }
  destruct (divide_cuts_inv _ _ _ _ Ed Hs1 Hs2 (Set_of_not_nan _ Hcuts)) as (H1 & H2 & H3).
  now apply sort_numeric_increasing.
Qed.

(** Whenever the division loops end on a plan and pedestals without NaN,
    xLines and zLines are strictly increasing. *)
Theorem grid_lines_strictly_increasing (pts : list point) (L W m : float) (g : grid) :
  gridLines pts L W m = Some g ->
  is_nan L = false -> is_nan W = false ->
  forallb (fun p => negb (is_nan (p_x p)) && negb (is_nan (p_z p))) pts = true ->
  increasing (xLines g) /\ increasing (zLines g).
Proof.
  unfold gridLines. intros E HL HW Hpts. rewrite forallb_forall in Hpts.
  destruct (addDivisions (xCuts pts L) L m) as [xL|] eqn:Ex; [|discriminate].
  destruct (addDivisions (zCuts pts W) W m) as [zL|] eqn:Ez; [|discriminate].
  injection E as <-. cbn [xLines zLines].
  assert (H0 : is_nan 0 = false) by reflexivity.
  split; [apply (axis_increasing _ _ _ _ Ex) | apply (axis_increasing _ _ _ _ Ez)];
    (constructor; [exact H0|]); (constructor; [assumption|]);
    apply List.Forall_forall; intros e He; apply in_map_iff in He as (p & <- & Hp);
    apply Hpts in Hp; apply andb_true_iff in Hp as [Hx Hz];
    apply clamp_not_nan; try assumption;
    [destruct (is_nan (p_x p)) | destruct (is_nan (p_z p))]; (reflexivity || discriminate).
Qed.

Lemma grid_lines_strictly_increasing_witness :
  let pts := [{| p_id := 1; p_x := 0.5; p_z := 0.5; p_length := 0.5; p_width := 0.3 |}] in
  let g := {| xLines := [0; 0.5; 1]%float; zLines := [0; 0.5; 1]%float |} in
  gridLines pts 1 1 0.5 = Some g
  /\ is_nan 1 = false /\ is_nan 1 = false
  /\ forallb (fun p => negb (is_nan (p_x p)) && negb (is_nan (p_z p))) pts = true
  /\ increasing (xLines g) /\ increasing (zLines g).
Proof.
  cbv zeta. split; [vm_compute; reflexivity|]. do 3 (split; [reflexivity|]).
  apply (grid_lines_strictly_increasing
           [{| p_id := 1; p_x := 0.5; p_z := 0.5; p_length := 0.5; p_width := 0.3 |}]
           1 1 0.5); reflexivity.
Defined.

(** ** Where the surface nodes are *)

Lemma nth_row_major {A B : Type} (xs : list A) (zs : list B) (xi zi : nat) (x : A) (z : B) :
  nth_error xs xi = Some x -> nth_error zs zi = Some z ->
  nth_error (row_major xs zs) (zi * List.length xs + xi) = Some (x, z).
Proof.
  intros Hx. revert zi. unfold row_major.
  induction zs as [|z0 zs IH]; intros zi Hz; [destruct zi; discriminate|].
  cbn [flat_map]. destruct zi as [|zi].
  - cbn in Hz. injection Hz as ->. cbn [Nat.mul Nat.add].
    rewrite nth_error_app1 by (rewrite length_map; apply nth_error_Some; congruence).
    rewrite nth_error_map, Hx. reflexivity.
  - cbn in Hz. rewrite nth_error_app2 by (rewrite length_map; lia).
    rewrite length_map.
    replace (S zi * List.length xs + xi - List.length xs)%nat
      with (zi * List.length xs + xi)%nat by lia.
    now apply IH.
Qed.

Lemma nth_zseq (lo : Z) (n i : nat) :
  (i < n)%nat -> nth_error (zseq lo n) i = Some (lo + Z.of_nat i).
Proof.
  intros Hi. unfold zseq. rewrite nth_error_map.
  assert (E : nth_error (seq 0 n) i = Some i).
  { rewrite (nth_error_nth' (seq 0 n) 0%nat) by now rewrite length_seq.
    now rewrite seq_nth. }
  now rewrite E.
Qed.

Lemma surface_fold_y (cs : list (float * float)) :
  Forall (fun n => n_y n = 0%float)
    (allNodes (fold_left (fun st c => surface_node (snd c) st (fst c)) cs synth_init)).
Proof.
  induction cs as [|c cs IH] using rev_ind; [constructor|].
  rewrite fold_left_app. cbn. apply Forall_app. split; [assumption|].
  now constructor.
Qed.

(** The node at position [j] of the surface nodes. *)
Lemma surface_fold_nth (cs : list (float * float)) (j : nat) (c : float * float) :
  nth_error cs j = Some c ->
  nth_error (allNodes (fold_left (fun st c => surface_node (snd c) st (fst c)) cs synth_init)) j
  = Some {| n_id := 1 + Z.of_nat j; n_x := fst c; n_y := 0; n_z := snd c;
            n_type := surface |}.
Proof.
  intros Hj.
  destruct (surface_fold_spec cs) as (Hid & Hxz & Hty & _). cbn zeta in *.
  pose proof (surface_fold_y cs) as Hy.
  set (ns := allNodes _) in *.
  assert (Hlt : (j < List.length cs)%nat) by (apply nth_error_Some; congruence).
  assert (Hlen : List.length ns = List.length cs)
    by (rewrite <- (length_map n_id ns), Hid; apply zseq_length).
  destruct (nth_error ns j) as [n|] eqn:En;
    [|apply nth_error_None in En; lia].
  pose proof (nth_error_In _ _ En) as Hin.
  rewrite List.Forall_forall in Hty, Hy.
  pose proof (Hty n Hin) as T. pose proof (Hy n Hin) as Y.
  assert (I : n_id n = 1 + Z.of_nat j).
  { pose proof (map_nth_error n_id _ _ En) as H. rewrite Hid, nth_zseq in H by assumption.
    congruence. }
  assert (XZ : (n_x n, n_z n) = c).
  { pose proof (map_nth_error (fun n => (n_x n, n_z n)) _ _ En) as H.
    rewrite Hxz in H. congruence. }
  destruct n as [i x y z t]. cbn in I, Y, T, XZ. rewrite I, Y, T, <- XZ. reflexivity.
Qed.

Lemma synthesize_surface_prefix (xL zL : list float) (h : float) (pts : list point)
    (o : string) :
  exists extra,
    nodes (synthesize xL zL h pts o) = allNodes (surface_nodes xL zL) ++ extra
    /\ Forall (fun n => n_type n = pedestal) extra.
Proof.
  unfold synthesize, pedestal_nodes. cbn [nodes].
  destruct (1e-9 <? h)%float.
  - destruct (pedestal_fold_spec h pts (surface_nodes xL zL))
      as (_ & extra & mems & Hn & _ & _ & _ & _ & Hpairs).
    exists extra. split; [exact Hn|].
    apply List.Forall_forall. intros n Hin.
    destruct (Forall2_in_l _ _ _ _ Hpairs Hin) as (mb & _ & H).
    apply H.
  - exists []. rewrite app_nil_r. split; [reflexivity | constructor].
Qed.

(** The surface node that [nodeIdAt] names for the crossing of the grid
    lines [xi] and [zi] lies on that crossing, at height 0; and every
    surface node lies on a crossing of two grid lines. *)
Theorem surface_node_lies_on_grid_crossing (xL zL : list float) (h : float)
    (pts : list point) (o : string) (xi zi : nat) (x z : float) :
  nth_error xL xi = Some x -> nth_error zL zi = Some z ->
  let m := synthesize xL zL h pts o in
  nth_error (nodes m) (zi * List.length xL + xi)
  = Some {| n_id := nodeIdAt (Z.of_nat (List.length xL)) (Z.of_nat xi) (Z.of_nat zi);
            n_x := x; n_y := 0; n_z := z; n_type := surface |}
  /\ (forall n, In n (nodes m) -> n_type n = surface ->
        In (n_x n) xL /\ In (n_z n) zL /\ n_y n = 0%float).
Proof.
  intros Hx Hz. cbn zeta.
  destruct (synthesize_surface_prefix xL zL h pts o) as (extra & -> & Hext).
  rewrite surface_nodes_flat.
  pose proof (nth_row_major xL zL xi zi x z Hx Hz) as Hc.
  pose proof (surface_fold_nth _ _ _ Hc) as Hn. cbn [fst snd] in Hn.
  split.
  - rewrite nth_error_app1 by (apply nth_error_Some; congruence).
    rewrite Hn. unfold nodeIdAt. do 2 f_equal. lia.
  - intros n Hin Hty. apply in_app_or in Hin as [Hin|Hin].
    + destruct (surface_fold_spec (row_major xL zL)) as (_ & Hxz & _). cbn zeta in Hxz.
      pose proof (surface_fold_y (row_major xL zL)) as Hy.
      rewrite List.Forall_forall in Hy.
      assert (Hc' : In (n_x n, n_z n) (row_major xL zL)).
      { rewrite <- Hxz. apply in_map_iff. now exists n. }
      apply in_row_major in Hc'. cbn in Hc'. destruct Hc'. auto.
    + rewrite List.Forall_forall in Hext. apply Hext in Hin. congruence.
Qed.

Lemma surface_node_lies_on_grid_crossing_witness :
  let m := synthesize [0; 0.5; 1]%float [0; 2]%float 0 [] "down" in
  nth_error [0; 0.5; 1]%float 1 = Some 0.5%float
  /\ nth_error [0; 2]%float 1 = Some 2%float
  /\ nth_error (nodes m) (1 * List.length [0; 0.5; 1]%float + 1)
     = Some {| n_id := nodeIdAt (Z.of_nat (List.length [0; 0.5; 1]%float))
                         (Z.of_nat 1) (Z.of_nat 1);
               n_x := 0.5; n_y := 0; n_z := 2; n_type := surface |}
  /\ (forall n, In n (nodes m) -> n_type n = surface ->
        In (n_x n) [0; 0.5; 1]%float /\ In (n_z n) [0; 2]%float /\ n_y n = 0%float).
Proof.
  cbv zeta. split; [reflexivity|]. split; [reflexivity|].
  apply (surface_node_lies_on_grid_crossing [0; 0.5; 1]%float [0; 2]%float 0 [] "down" 1 1);
    reflexivity.
Defined.

(** ** Cell keys *)

Lemma uint_no_comma (d : Decimal.uint) (c : ascii) :
  In c (list_ascii_of_string (NilEmpty.string_of_uint d)) -> c <> ","%char.
Proof.
  induction d; cbn; intros H; try contradiction;
    (destruct H as [<-|H]; [discriminate | now apply IHd]).
Qed.

Lemma nilzero_no_comma (d : Decimal.uint) (c : ascii) :
  In c (list_ascii_of_string (NilZero.string_of_uint d)) -> c <> ","%char.
Proof.
  unfold NilZero.string_of_uint. destruct d; try apply uint_no_comma.
  cbn. intros [<-|[]]. discriminate.
Qed.

Lemma string_of_Z_no_comma (z : Z) (c : ascii) :
  In c (list_ascii_of_string (string_of_Z z)) -> c <> ","%char.
Proof.
  unfold string_of_Z, NilZero.string_of_int.
  destruct (Z.to_int z) as [d|d]; [apply nilzero_no_comma|].
  cbn [list_ascii_of_string]. intros [<-|H]; [discriminate | now apply nilzero_no_comma in H].
Qed.

Lemma string_of_Z_inj (a b : Z) : string_of_Z a = string_of_Z b -> a = b.
Proof.
  unfold string_of_Z. intros H. apply to_int_inj.
  assert (N : forall z, Z.to_int z <> Decimal.Pos Decimal.Nil
                        /\ Z.to_int z <> Decimal.Neg Decimal.Nil).
  { intros z. split; intros E; pose proof (of_to z) as O; rewrite E in O;
      cbn in O; subst z; discriminate E. }
  destruct (N a) as [A1 A2], (N b) as [B1 B2].
  pose proof (NilZero.isi _ A1 A2) as Ia. pose proof (NilZero.isi _ B1 B2) as Ib.
  rewrite H in Ia. congruence.
Qed.

Lemma append_comma_inj (s1 s2 t1 t2 : string) :
  (forall c, In c (list_ascii_of_string s1) -> c <> ","%char) ->
  (forall c, In c (list_ascii_of_string s2) -> c <> ","%char) ->
  s1 +:+ "," +:+ t1 = s2 +:+ "," +:+ t2 -> s1 = s2 /\ t1 = t2.
Proof.
  revert s2. induction s1 as [|c1 s1 IH]; intros [|c2 s2] H1 H2 E.
  - change (String "," t1 = String "," t2) in E. injection E as ->. now split.
  - change (String "," t1 = String c2 (s2 +:+ "," +:+ t2)) in E.
    injection E as <- _. exfalso. apply (H2 ","%char); [now left | reflexivity].
  - change (String c1 (s1 +:+ "," +:+ t1) = String "," t2) in E.
    injection E as -> _. exfalso. apply (H1 ","%char); [now left | reflexivity].
  - change (String c1 (s1 +:+ "," +:+ t1) = String c2 (s2 +:+ "," +:+ t2)) in E.
    injection E as -> E. destruct (IH s2) as [-> ->]; try assumption; [| |now split].
    + intros c Hc. apply H1. now right.
    + intros c Hc. apply H2. now right.
Qed.

(** Distinct cells have distinct keys. *)
Lemma cellKey_inj (a b c d : Z) : cellKey a b = cellKey c d -> a = c /\ b = d.
Proof.
  unfold cellKey. intros E.
  apply append_comma_inj in E as [E1 E2]; try apply string_of_Z_no_comma.
  split; now apply string_of_Z_inj.
Qed.

Lemma NoDup_row_major {A B : Type} (xs : list A) (zs : list B) :
  List.NoDup xs -> List.NoDup zs -> List.NoDup (row_major xs zs).
Proof.
  intros Hx Hz. unfold row_major. induction Hz as [|z zs Hnin Hz IH]; cbn; [constructor|].
  apply NoDup_ListNoDup, NoDup_app. repeat apply conj.
  - apply NoDup_fmap_2; [|now apply NoDup_ListNoDup]. intros a b E. congruence.
  - intros c Hc Hc'. apply list_elem_of_In in Hc, Hc'.
    apply in_map_iff in Hc as (x & <- & _).
    apply in_flat_map in Hc' as (z' & Hz' & Hc').
    apply in_map_iff in Hc' as (x' & E & _). injection E as _ <-. contradiction.
  - now apply NoDup_ListNoDup.
Qed.

(** The map of the plate loops sends a key to the id of the last cell that
    has this key. *)
Lemma plate_fold_lookup (nX : Z) (o : string) (cs : list (Z * Z)) (k : string) (id : Z) :
  let st := fold_left (fun st c => plate_cell nX o (snd c) st (fst c)) cs plating_init in
  plateIdByCoord st !! k = Some id <->
  exists j c, nth_error cs j = Some c /\ cellKey (fst c) (snd c) = k
    /\ id = 1 + Z.of_nat j
    /\ forall j' c', (j < j')%nat -> nth_error cs j' = Some c' ->
         cellKey (fst c') (snd c') <> k.
Proof.
  cbn zeta. revert k id. induction cs as [|c0 cs IH] using rev_ind; intros k id.
  - cbn. rewrite lookup_empty. split; [discriminate|].
    intros (j & c & H & _). destruct j; discriminate.
  - rewrite fold_left_app. cbn [fold_left plate_cell plateIdByCoord].
    destruct (plate_fold_spec nX o cs) as (_ & _ & Hctr & _). cbn zeta in Hctr.
    rewrite Hctr.
    destruct (decide (cellKey (fst c0) (snd c0) = k)) as [Ek|Hne].
    + rewrite <- Ek, lookup_insert_eq. split.
      * intros E. injection E as <-. exists (List.length cs), c0.
        repeat apply conj; [| reflexivity | reflexivity |].
        -- rewrite nth_error_app2, Nat.sub_diag by lia. reflexivity.
        -- intros j' c' Hj' Hc'.
           assert (j' < List.length (cs ++ [c0]))%nat by (apply nth_error_Some; congruence).
           rewrite length_app in H. cbn in H. lia.
      * intros (j & c & Hj & Hk & -> & Hlast).
        assert (Hlt : (j < List.length (cs ++ [c0]))%nat) by (apply nth_error_Some; congruence).
        rewrite length_app in Hlt. cbn in Hlt.
        destruct (Nat.eq_dec j (List.length cs)) as [->|Hj']; [reflexivity|].
        exfalso. apply (Hlast (List.length cs) c0); [lia | | reflexivity].
        rewrite nth_error_app2, Nat.sub_diag by lia. reflexivity.
    + rewrite lookup_insert_ne by assumption. rewrite IH. split.
      * intros (j & c & Hj & Hk & -> & Hlast).
        assert (Hlt : (j < List.length cs)%nat) by (apply nth_error_Some; congruence).
        exists j, c. repeat apply conj; try assumption; try reflexivity.
        -- rewrite nth_error_app1 by assumption. exact Hj.
        -- intros j' c' Hj' Hc'.
           destruct (Nat.lt_ge_cases j' (List.length cs)) as [L|G].
           ++ rewrite nth_error_app1 in Hc' by assumption. now apply (Hlast j').
           ++ rewrite nth_error_app2 in Hc' by assumption.
              destruct (j' - List.length cs)%nat as [|n]; cbn in Hc';
                [injection Hc' as <-; exact Hne | destruct n; discriminate].
      * intros (j & c & Hj & Hk & -> & Hlast).
        assert (Hlt : (j < List.length (cs ++ [c0]))%nat) by (apply nth_error_Some; congruence).
        rewrite length_app in Hlt. cbn in Hlt.
        destruct (Nat.eq_dec j (List.length cs)) as [->|Hj'].
        { rewrite nth_error_app2, Nat.sub_diag in Hj by lia. cbn in Hj.
          injection Hj as <-. contradiction. }
        exists j, c. rewrite nth_error_app1 in Hj by lia.
        repeat apply conj; try assumption; try reflexivity.
        intros j' c' Hj'' Hc'. apply (Hlast j' c'); [assumption|].
        rewrite nth_error_app1; [assumption|]. apply nth_error_Some. congruence.
Qed.

(** The cell at a position of the row-major list of cells. *)
Lemma nth_cells (w d : nat) (xi zi : Z) :
  0 <= xi < Z.of_nat w -> 0 <= zi < Z.of_nat d ->
  nth_error (row_major (zseq 0 w) (zseq 0 d)) (Z.to_nat (zi * Z.of_nat w + xi))
  = Some (xi, zi).
Proof.
  intros Hx Hz.
  assert (Ex : nth_error (zseq 0 w) (Z.to_nat xi) = Some xi)
    by (rewrite nth_zseq by lia; f_equal; lia).
  assert (Ez : nth_error (zseq 0 d) (Z.to_nat zi) = Some zi)
    by (rewrite nth_zseq by lia; f_equal; lia).
  pose proof (nth_row_major _ _ _ _ _ _ Ex Ez) as Hc.
  rewrite zseq_length in Hc.
  replace (Z.to_nat (zi * Z.of_nat w + xi)) with (Z.to_nat zi * w + Z.to_nat xi)%nat by nia.
  exact Hc.
Qed.

Lemma plateIds_lookup (xL zL : list float) (h : float) (pts : list point)
    (o : string) (xi zi : Z) :
  let nX := Z.of_nat (List.length xL) in
  let nZ := Z.of_nat (List.length zL) in
  plateIds (synthesize xL zL h pts o) !! cellKey xi zi =
    (if (0 <=? xi) && (xi <? nX - 1) && (0 <=? zi) && (zi <? nZ - 1)
     then Some (zi * (nX - 1) + xi + 1) else None).
Proof.
  cbn zeta. unfold synthesize; cbn [plateIds]. rewrite plate_cells_flat.
  set (w := (List.length xL - 1)%nat). set (d := (List.length zL - 1)%nat).
  set (cs := row_major (zseq 0 w) (zseq 0 d)).
  set (nX := Z.of_nat (List.length xL)). set (nZ := Z.of_nat (List.length zL)).
  pose proof (plate_fold_lookup nX o cs) as Hlk. cbn zeta in Hlk.
  set (st := fold_left _ cs plating_init) in *.
  assert (Hnd : List.NoDup cs)
    by (apply NoDup_row_major; apply NoDup_ListNoDup, NoDup_zseq).
  destruct ((0 <=? xi) && (xi <? nX - 1) && (0 <=? zi) && (zi <? nZ - 1)) eqn:Hin.
  - rewrite !andb_true_iff in Hin. destruct Hin as [[[H1 H2] H3] H4].
    apply Z.leb_le in H1, H3. apply Z.ltb_lt in H2, H4.
    assert (Hw : Z.of_nat w = nX - 1) by (unfold w, nX; lia).
    assert (Hd : Z.of_nat d = nZ - 1) by (unfold d, nZ; lia).
    pose proof (nth_cells w d xi zi ltac:(lia) ltac:(lia)) as Hc. fold cs in Hc.
    rewrite Hw in Hc.
    apply Hlk. exists (Z.to_nat (zi * (nX - 1) + xi)), (xi, zi).
    repeat apply conj; [exact Hc | reflexivity | nia |].
    intros j' c' Hj' Hc' Ek. destruct c' as [a b]. cbn [fst snd] in Ek.
    apply cellKey_inj in Ek as [-> ->].
    rewrite List.NoDup_nth_error in Hnd.
    assert (j' = Z.to_nat (zi * (nX - 1) + xi)); [|lia].
    apply Hnd; [apply nth_error_Some|]; congruence.
  - destruct (plateIdByCoord st !! cellKey xi zi) as [id|] eqn:E; [|reflexivity].
    exfalso. apply Hlk in E as (j & [a b] & Hj & Hk & _). cbn [fst snd] in Hk.
    apply cellKey_inj in Hk as [-> ->].
    apply nth_error_In, in_row_major in Hj. cbn [fst snd] in Hj.
    rewrite !in_zseq in Hj.
    assert (C : (0 <=? xi) && (xi <? nX - 1) && (0 <=? zi) && (zi <? nZ - 1) = true).
    { rewrite !andb_true_iff. unfold nX, nZ, w, d in *.
      repeat split; [apply Z.leb_le | apply Z.ltb_lt | apply Z.leb_le | apply Z.ltb_lt]; lia. }
    congruence.
Qed.


(** ** The plates of a group *)

(** On a synthesized mesh the plates a range of the classifier collects are
    the plates of the cells of the range, one for each cell. *)
Lemma range_plates_cells (xL zL : list float) (h : float) (pts : list point)
    (o : string) (r : ranges) (id : Z) :
  let m := synthesize xL zL h pts o in
  let g := {| xLines := xL; zLines := zL |} in
  In id (range_plates (plateIds m) g r) <->
  exists c, In c (range_cells g r)
            /\ id = snd c * (Z.of_nat (List.length xL) - 1) + fst c + 1.
Proof.
  cbn zeta. rewrite in_range_plates. split.
  - intros ([xi zi] & Hc & Hlk & _). exists (xi, zi). split; [assumption|].
    cbn [fst snd] in *.
    pose proof (plateIds_lookup xL zL h pts o xi zi) as E. cbn zeta in E.
    rewrite E in Hlk. destruct (_ && _); [congruence | discriminate].
  - intros ([xi zi] & Hc & ->). exists (xi, zi). split; [assumption|].
    cbn [fst snd].
    pose proof (in_range_cells _ _ _ Hc) as [Hx Hz]. cbn [fst snd xLines zLines] in Hx, Hz.
    pose proof (plateIds_lookup xL zL h pts o xi zi) as E. cbn zeta in E.
    rewrite E.
    replace (_ && _) with true.
    2:{ symmetry. rewrite !andb_true_iff.
        repeat split; [apply Z.leb_le | apply Z.ltb_lt | apply Z.leb_le | apply Z.ltb_lt]; lia. }
    split; [reflexivity | nia].
Qed.

(** On a synthesized mesh each of the three plate sets of a pedestal holds
    exactly the plates of the cells of its index range, the plate of cell
    [(xi, zi)] being the one of id [zi * (nX - 1) + xi + 1]. *)
Theorem pedestal_sets_hold_plates_of_range (xL zL : list float) (h : float)
    (pts : list point) (o : string) (ms t : float) (p : point) (id : Z) :
  let m := synthesize xL zL h pts o in
  let g := {| xLines := xL; zLines := zL |} in
  let plate_of (c : Z * Z) := snd c * (Z.of_nat (List.length xL) - 1) + fst c + 1 in
  (id ∈ momentPlatesForPedestal (plateIds m) g ms p <->
     exists c, In c (range_cells g (moment_ranges g ms p)) /\ id = plate_of c)
  /\ (id ∈ oneWayShearPlatesForPedestal (plateIds m) g ms t p <->
     exists c, In c (range_cells g (one_way_ranges g ms t p)) /\ id = plate_of c)
  /\ (id ∈ twoWayShearPlatesForPedestal (plateIds m) g ms t p <->
     exists c, In c (range_cells g (two_way_ranges g ms t p)) /\ id = plate_of c).
Proof.
  cbn zeta.
  unfold momentPlatesForPedestal, oneWayShearPlatesForPedestal,
    twoWayShearPlatesForPedestal.
  rewrite !elem_of_list_to_set, !list_elem_of_In.
  split; [|split]; apply range_plates_cells.
Qed.

(** ** The index ranges in closed form *)

Lemma in_range_cells_iff (g : grid) (r : ranges) (xi zi : Z) :
  In (xi, zi) (range_cells g r) <->
  In xi (index_range (Z.of_nat (List.length (xLines g)) - 1) (start_x r) (end_x r))
  /\ In zi (index_range (Z.of_nat (List.length (zLines g)) - 1) (start_z r) (end_z r)).
Proof.
  unfold range_cells. rewrite in_flat_map. split.
  - intros (x & Hx & Hc). apply in_map_iff in Hc as (z & E & Hz).
    injection E as -> ->. now split.
  - intros [Hx Hz]. exists xi. split; [assumption|].
    apply in_map_iff. now exists zi.
Qed.





(** ** The group arrays *)

Lemma sorted_ids_increasing (s : gset Z) : StronglySorted Z.lt (sorted_ids s).
Proof.
  unfold sorted_ids.
  assert (Hs : StronglySorted Z.le (merge_sort Z.le (elements s)))
    by (apply StronglySorted_merge_sort; [intros x y z; lia | intros x y; lia]).
  assert (Hn : NoDup (merge_sort Z.le (elements s)))
    by (rewrite merge_sort_Permutation; apply NoDup_elements).
  induction Hs as [|x l Hs IH Hall]; [constructor|].
  apply NoDup_cons in Hn as [Hx Hn]. constructor; [now apply IH|].
  rewrite List.Forall_forall in *. intros y Hy.
  specialize (Hall y Hy). cbn in Hall.
  assert (x <> y) by (intros ->; apply Hx; now apply list_elem_of_In). lia.
Qed.

(** Each of the three group arrays lists, in strictly increasing order and
    so without repeats, the plates that the set of the group holds for at
    least one pedestal; with no pedestal the three arrays are empty. *)
Theorem group_arrays_are_sorted_unions (pts : list point) (g : grid)
    (ids : gmap string Z) (ms t : float) :
  let gr := classify pts g ids ms t in
  StronglySorted Z.lt (groupedPlates gr)
  /\ StronglySorted Z.lt (shearPlates gr)
  /\ StronglySorted Z.lt (twoWayShearPlates gr)
  /\ (forall id, In id (groupedPlates gr) <->
        exists p, In p pts /\ id ∈ momentPlatesForPedestal ids g ms p)
  /\ (forall id, In id (shearPlates gr) <->
        exists p, In p pts /\ id ∈ oneWayShearPlatesForPedestal ids g ms t p)
  /\ (forall id, In id (twoWayShearPlates gr) <->
        exists p, In p pts /\ id ∈ twoWayShearPlatesForPedestal ids g ms t p)
  /\ (pts = [] -> groupedPlates gr = [] /\ shearPlates gr = []
                  /\ twoWayShearPlates gr = []).
Proof.
  cbn zeta. unfold classify; cbn [groupedPlates shearPlates twoWayShearPlates].
  repeat apply conj; try apply sorted_ids_increasing.
  - intros id. rewrite in_sorted_ids. apply group_points_spec.
  - intros id. rewrite in_sorted_ids.
    destruct (group_points_spec ids g ms t pts id) as (_ & H & _). exact H.
  - intros id. rewrite in_sorted_ids.
    destruct (group_points_spec ids g ms t pts id) as (_ & _ & H). exact H.
  - intros ->. now vm_compute.
Qed.

(** ** Members *)

(** The object of the node loops sends a key to the id of the last surface
    node that has this key. *)
Lemma surface_fold_lookup (cs : list (float * float)) (k : string) (id : Z) :
  let st := fold_left (fun st c => surface_node (snd c) st (fst c)) cs synth_init in
  surfaceNodesByCoord st !! k = Some id ->
  exists j c, nth_error cs j = Some c /\ coordKey (fst c) (snd c) = k
    /\ id = 1 + Z.of_nat j
    /\ forall j' c', (j < j')%nat -> nth_error cs j' = Some c' ->
         coordKey (fst c') (snd c') <> k.
Proof.
  cbn zeta. revert k id. induction cs as [|c0 cs IH] using rev_ind; intros k id.
  - cbn. rewrite lookup_empty. discriminate.
  - rewrite fold_left_app. cbn [fold_left surface_node surfaceNodesByCoord].
    destruct (surface_fold_spec cs) as (_ & _ & _ & Hctr & _). cbn zeta in Hctr.
    rewrite Hctr.
    destruct (decide (coordKey (fst c0) (snd c0) = k)) as [Ek|Hne].
    + rewrite <- Ek, lookup_insert_eq.
      intros E. injection E as <-. exists (List.length cs), c0.
      repeat apply conj; [| reflexivity | reflexivity |].
      * rewrite nth_error_app2, Nat.sub_diag by lia. reflexivity.
      * intros j' c' Hj' Hc'.
        assert (j' < List.length (cs ++ [c0]))%nat by (apply nth_error_Some; congruence).
        rewrite length_app in H. cbn in H. lia.
    + rewrite lookup_insert_ne by assumption. intros E.
      apply IH in E as (j & c & Hj & Hk & -> & Hlast).
      assert (Hlt : (j < List.length cs)%nat) by (apply nth_error_Some; congruence).
      exists j, c. repeat apply conj; try assumption; try reflexivity.
      * rewrite nth_error_app1 by assumption. exact Hj.
      * intros j' c' Hj' Hc'.
        destruct (Nat.lt_ge_cases j' (List.length cs)) as [L|G].
        -- rewrite nth_error_app1 in Hc' by assumption. now apply (Hlast j').
        -- rewrite nth_error_app2 in Hc' by assumption.
           destruct (j' - List.length cs)%nat as [|n]; cbn in Hc';
             [injection Hc' as <-; exact Hne | destruct n; discriminate].
Qed.

(** The members are pushed for the pedestals that attach, in their order,
    and numbered from 1. *)
Lemma pedestal_fold_members (h : float) (ps : list point) (st0 : synth) :
  newMembers st0 = [] ->
  let st := fold_left (pedestal_node h) ps st0 in
  map pointData (newMembers st) = List.filter (attaches (surfaceNodesByCoord st0)) ps
  /\ map m_id (newMembers st) = zseq 1 (List.length (newMembers st)).
Proof.
  intros H0. cbn zeta. induction ps as [|p ps IH] using rev_ind.
  - cbn. rewrite H0. split; reflexivity.
  - rewrite fold_left_app. cbn [fold_left].
    destruct (pedestal_fold_spec h ps st0) as (Hmap & _). cbn zeta in Hmap.
    set (st := fold_left _ ps st0) in *. destruct IH as [IH1 IH2].
    rewrite List.filter_app. cbn [List.filter].
    unfold pedestal_node, attaches. rewrite Hmap.
    destruct (surfaceNodesByCoord st0 !! coordKey (p_x p) (p_z p)) as [sid|].
    + destruct (sid =? 0); cbn [negb].
      * rewrite app_nil_r. now split.
      * cbn [newMembers]. rewrite !map_app, IH1, IH2, length_app. cbn [map List.length].
        split; [reflexivity|]. rewrite Nat.add_1_r, zseq_snoc. cbn [pointData m_id].
        do 2 f_equal. lia.
    + rewrite app_nil_r. now split.
Qed.

Lemma synthesize_member_list (xL zL : list float) (h : float) (pts : list point)
    (o : string) :
  let m := synthesize xL zL h pts o in
  map pointData (members m)
  = (if (1e-9 <? h)%float then List.filter (on_grid xL zL) pts else [])
  /\ map m_id (members m) = zseq 1 (List.length (members m)).
Proof.
  cbn zeta. unfold synthesize, pedestal_nodes; cbn [members].
  destruct (surface_fold_spec (row_major xL zL)) as (_ & _ & _ & _ & H0 & _).
  cbn zeta in H0. rewrite <- surface_nodes_flat in H0.
  destruct (1e-9 <? h)%float.
  - destruct (pedestal_fold_members h pts _ H0) as [H1 H2]. split; [|exact H2].
    rewrite H1. apply List.filter_ext. intros p. apply attaches_on_grid.
  - rewrite H0. split; reflexivity.
Qed.

(** The members belong to the pedestals that land on the grid, in the order
    of the pedestal list, and are numbered from 1. Each runs from a surface
    node whose key is the key of its pedestal (the one of highest id, should
    several surface nodes share the key) to a pedestal node at the center of
    the pedestal, [pedestalHeight] above the surface. *)
Theorem members_join_pedestals_to_surface (xL zL : list float) (h : float)
    (pts : list point) (o : string) :
  let m := synthesize xL zL h pts o in
  map pointData (members m)
  = (if (1e-9 <? h)%float then List.filter (on_grid xL zL) pts else [])
  /\ map m_id (members m) = zseq 1 (List.length (members m))
  /\ forall mb, In mb (members m) ->
       let p := pointData mb in
       (exists n, In n (nodes m) /\ n_id n = startNode mb /\ n_type n = surface
                  /\ coordKey (n_x n) (n_z n) = coordKey (p_x p) (p_z p)
                  /\ forall n', In n' (nodes m) -> n_type n' = surface ->
                       coordKey (n_x n') (n_z n') = coordKey (p_x p) (p_z p) ->
                       n_id n' <= n_id n)
       /\ (exists n, In n (nodes m) /\ n_id n = endNode mb /\ n_type n = pedestal
                     /\ n_x n = p_x p /\ n_y n = h /\ n_z n = p_z p).
Proof.
  cbn zeta.
  destruct (synthesize_nodes xL zL h pts o)
    as (surf & extra & Hn & _ & _ & _ & _ & Hpairs & _). cbn zeta in Hpairs.
  destruct (synthesize_surface_prefix xL zL h pts o) as (extra' & Hn' & Hext).
  pose proof (synthesize_member_list xL zL h pts o) as Hmem. cbn zeta in Hmem.
  destruct Hmem as [Hm1 Hm2]. split; [exact Hm1|]. split; [exact Hm2|].
  intros mb Hmb.
  destruct (Forall2_in_r _ _ _ _ Hpairs Hmb)
    as (ne & Hne & Hend & Hlk & _ & _ & Hx & Hz & Hy & Hty).
  split.
  - rewrite surface_nodes_flat in Hlk. apply surface_fold_lookup in Hlk
      as (j & c & Hj & Hk & Hid & Hlast).
    pose proof (surface_fold_nth _ _ _ Hj) as Hnode.
    rewrite <- surface_nodes_flat in Hnode.
    eexists. repeat apply conj.
    + rewrite Hn'. apply in_or_app. left. eapply nth_error_In. exact Hnode.
    + cbn. congruence.
    + reflexivity.
    + exact Hk.
    + intros n' Hin' Hty' Hk'. cbn [n_id]. rewrite Hn' in Hin'.
      apply in_app_or in Hin' as [Hin'|Hin'].
      2:{ rewrite List.Forall_forall in Hext. apply Hext in Hin'. congruence. }
      apply In_nth_error in Hin' as (j' & Hj').
      assert (Hlt : (j' < List.length (row_major xL zL))%nat).
      { destruct (surface_fold_spec (row_major xL zL)) as (Hids & _). cbn zeta in Hids.
        rewrite <- surface_nodes_flat in Hids.
        rewrite <- (zseq_length 1 (List.length (row_major xL zL))), <- Hids, length_map.
        apply nth_error_Some. congruence. }
      destruct (nth_error (row_major xL zL) j') as [c'|] eqn:Ec';
        [|apply nth_error_None in Ec'; lia].
      pose proof (surface_fold_nth _ _ _ Ec') as Hnode'.
      rewrite <- surface_nodes_flat, Hj' in Hnode'. injection Hnode' as ->.
      cbn [n_id n_x n_z] in *.
      destruct (Nat.lt_ge_cases j j') as [L|G]; [|lia].
      exfalso. apply (Hlast j' c' L Ec'). exact Hk'.
  - exists ne. rewrite Hn. repeat apply conj; try assumption; try congruence.
    apply in_or_app. now right.
Qed.

(** ** Strings *)

Lemma string_app_assoc (a b c : string) : (a +:+ b) +:+ c = a +:+ (b +:+ c).
Proof.
  induction a as [|x a IH]; [reflexivity|].
  change (String x ((a +:+ b) +:+ c) = String x (a +:+ (b +:+ c))). now rewrite IH.
Qed.

Lemma string_app_nil (a b : string) : a +:+ b = ""%string -> a = ""%string /\ b = ""%string.
Proof.
  destruct a as [|x a]; [intros H; now split|].
  change (String x a +:+ b) with (String x (a +:+ b)). discriminate.
Qed.

Lemma concat_snoc (sep : string) (l : list string) (x : string) :
  l <> [] -> String.concat sep (l ++ [x]) = String.concat sep l +:+ sep +:+ x.
Proof.
  induction l as [|a l IH]; [congruence|]. intros _.
  destruct l as [|b l]; [reflexivity|].
  change (String.concat sep ((a :: b :: l) ++ [x]))
    with (a +:+ sep +:+ String.concat sep ((b :: l) ++ [x])).
  rewrite IH by discriminate.
  change (String.concat sep (a :: b :: l)) with (a +:+ sep +:+ String.concat sep (b :: l)).
  now rewrite !string_app_assoc.
Qed.

Lemma concat_nonempty (sep : string) (l : list string) :
  Forall (fun t => t <> ""%string) l -> String.concat sep l = ""%string -> l = [].
Proof.
  intros Hl H. destruct l as [|a l]; [reflexivity|]. exfalso.
  apply Forall_cons in Hl as [Ha _]. destruct l as [|b l]; [now apply Ha|].
  change (String.concat sep (a :: b :: l)) with (a +:+ sep +:+ String.concat sep (b :: l)) in H.
  apply string_app_nil in H as [H _]. now apply Ha.
Qed.

(** ** Lines of joints and of plates *)

Lemma pack_step_runs (runs : list (list string)) (run : list string) (t : string) :
  t <> ""%string ->
  Forall (fun r => r <> []) runs -> Forall (fun t => t <> ""%string) run ->
  exists runs1 run1,
    pack_step (map (fun r => String.concat "; " r +:+ ";") runs, String.concat "; " run) t
    = (map (fun r => String.concat "; " r +:+ ";") runs1, String.concat "; " run1)
    /\ concat runs1 ++ run1 = concat runs ++ run ++ [t]
    /\ Forall (fun r => r <> []) runs1 /\ Forall (fun t => t <> ""%string) run1.
Proof.
  intros Ht Hruns Hrun. unfold pack_step. cbn [fst snd].
  destruct (String.eqb_spec (String.concat "; " run) "") as [E|E].
  - apply concat_nonempty in E; [|assumption]. subst run.
    exists runs, [t]. repeat apply conj; try assumption; try reflexivity.
    now constructor.
  - assert (Hne : run <> []) by (intros ->; now apply E).
    destruct (String.length _ <=? 74)%nat.
    + exists runs, (run ++ [t]). rewrite concat_snoc by assumption.
      repeat apply conj; try assumption; try reflexivity.
      apply Forall_app. split; [assumption | now constructor].
    + exists (runs ++ [run]), [t]. rewrite map_app, concat_app. cbn [map concat].
      rewrite app_nil_r, <- app_assoc.
      repeat apply conj; try reflexivity.
      * apply Forall_app. split; [assumption | now constructor].
      * now constructor.
Qed.

(** The state of the packing loop holds the entries met so far, in order:
    one run of entries on each pushed line, and one in [currentLine]. *)
Lemma pack_fold_runs (tokens : list string) :
  Forall (fun t => t <> ""%string) tokens ->
  forall (runs : list (list string)) (run : list string),
  Forall (fun r => r <> []) runs -> Forall (fun t => t <> ""%string) run ->
  exists runs' run',
    fold_left pack_step tokens
      (map (fun r => String.concat "; " r +:+ ";") runs, String.concat "; " run)
    = (map (fun r => String.concat "; " r +:+ ";") runs', String.concat "; " run')
    /\ concat runs' ++ run' = concat runs ++ run ++ tokens
    /\ Forall (fun r => r <> []) runs' /\ Forall (fun t => t <> ""%string) run'.
Proof.
  induction tokens as [|t tokens IH]; intros Ht runs run Hruns Hrun.
  - exists runs, run. rewrite app_nil_r. cbn [fold_left].
    repeat apply conj; try assumption; reflexivity.
  - apply Forall_cons in Ht as [Ht Hts]. cbn [fold_left].
    destruct (pack_step_runs runs run t Ht Hruns Hrun) as (runs1 & run1 & -> & E1 & R1 & R2).
    destruct (IH Hts runs1 run1 R1 R2) as (runs' & run' & -> & E2 & R3 & R4).
    exists runs', run'. repeat apply conj; try assumption; try reflexivity.
    rewrite E2, app_assoc, E1, <- !app_assoc. reflexivity.
Qed.

Lemma pack_lines_runs (tokens : list string) :
  Forall (fun t => t <> ""%string) tokens ->
  exists runs,
    concat runs = tokens /\ Forall (fun r => r <> []) runs
    /\ pack_lines tokens = map (fun r => String.concat "; " r +:+ ";") runs.
Proof.
  intros Ht. unfold pack_lines.
  destruct (pack_fold_runs tokens Ht [] []) as (runs & run & E & H1 & H4 & H5);
    [constructor | constructor |].
  cbn [map String.concat concat app] in E, H1. rewrite E. cbn [fst snd].
  destruct (String.eqb_spec (String.concat "; " run) "") as [E0|E0].
  - apply concat_nonempty in E0; [|assumption]. subst run.
    rewrite app_nil_r in H1. exists runs. repeat apply conj; try assumption; reflexivity.
  - exists (runs ++ [run]). rewrite concat_app, map_app. cbn [concat map].
    rewrite app_nil_r. repeat apply conj; [assumption | | reflexivity].
    apply Forall_app. split; [assumption|]. constructor; [|constructor].
    intros ->. now apply E0.
Qed.

Lemma jointStr_nonempty (n : node) : jointStr n <> ""%string.
Proof.
  unfold jointStr. intros H. apply string_app_nil in H as [_ H]. discriminate H.
Qed.

Lemma plateStr_nonempty (p : plate) : plateStr p <> ""%string.
Proof.
  unfold plateStr. intros H. apply string_app_nil in H as [_ H]. discriminate H.
Qed.

(** The lines of JOINT COORDINATES hold the entry of every node exactly once
    and in the order of the nodes: the list of entries is cut into runs, and
    each line is one run, its entries joined by [; ], followed by [;]. The
    same holds for the plates in ELEMENT INCIDENCES SHELL. *)
Theorem packed_lines_keep_every_entry (ns : list node) (ps : list plate) :
  (exists runs,
      concat runs = map jointStr ns /\ Forall (fun r => r <> []) runs
      /\ joint_lines ns = map (fun r => String.concat "; " r +:+ ";") runs)
  /\ (exists runs,
      concat runs = map plateStr ps /\ Forall (fun r => r <> []) runs
      /\ incidence_lines ps = map (fun r => String.concat "; " r +:+ ";") runs).
Proof.
  split; apply pack_lines_runs; apply List.Forall_forall; intros t Ht;
    apply in_map_iff in Ht as (x & <- & _);
    [apply jointStr_nonempty | apply plateStr_nonempty].
Qed.

(** ** Lines of a group *)

Lemma string_of_Z_head (z : Z) :
  exists c r, string_of_Z z = String c r /\ c <> "_"%char.
Proof.
  unfold string_of_Z, NilZero.string_of_int, NilZero.string_of_uint.
  destruct (Z.to_int z) as [d|d]; destruct d; cbn;
    eexists _, _; (split; [reflexivity | discriminate]).
Qed.

Lemma concat_head (sep : string) (c : ascii) (r : string) (l : list string) :
  exists r', String.concat sep (String c r :: l) = String c r'.
Proof.
  destruct l as [|b l]; [now exists r|].
  eexists. change (String.concat sep (String c r :: b :: l))
    with (String c (r +:+ sep +:+ String.concat sep (b :: l))). reflexivity.
Qed.

Lemma group_step_runs (runs : list (list string)) (run : list string) (id : Z) :
  run <> [] ->
  exists runs1 run1,
    group_step (map (fun r => String.concat " " r +:+ " -") runs, String.concat " " run) id
    = (map (fun r => String.concat " " r +:+ " -") runs1, String.concat " " run1)
    /\ concat runs1 ++ run1 = concat runs ++ run ++ [string_of_Z id]
    /\ (Forall (fun r => r <> []) runs -> Forall (fun r => r <> []) runs1)
    /\ ((runs1 = runs /\ run1 = run ++ [string_of_Z id])
        \/ run1 = [string_of_Z id]).
Proof.
  intros Hne. unfold group_step. cbn [fst snd].
  destruct (60 <? String.length _)%nat.
  - exists (runs ++ [run]), [string_of_Z id]. rewrite map_app, concat_app. cbn [map concat].
    rewrite app_nil_r, <- app_assoc.
    repeat apply conj; try reflexivity; [|now right].
    intros H. apply Forall_app. split; [assumption | now constructor].
  - exists runs, (run ++ [string_of_Z id]). rewrite concat_snoc by assumption.
    repeat apply conj; try reflexivity; [auto | now left].
Qed.

(** The state of the loop of [formatGroupLines]: [currentLine] starts with
    the name of the group as long as no line was pushed, and with an id
    afterwards. *)
Lemma group_fold_runs (header : string) (ids : list Z) :
  forall (runs : list (list string)) (run : list string),
  Forall (fun r => r <> []) runs ->
  (runs = [] /\ (exists l, run = header :: l)) \/ (exists id l, run = string_of_Z id :: l) ->
  exists runs' run',
    fold_left group_step ids
      (map (fun r => String.concat " " r +:+ " -") runs, String.concat " " run)
    = (map (fun r => String.concat " " r +:+ " -") runs', String.concat " " run')
    /\ concat runs' ++ run' = concat runs ++ run ++ map string_of_Z ids
    /\ Forall (fun r => r <> []) runs'
    /\ ((runs' = [] /\ (exists l, run' = header :: l))
        \/ (exists id l, run' = string_of_Z id :: l)).
Proof.
  induction ids as [|id ids IH]; intros runs run Hruns Hrun.
  - exists runs, run. cbn [fold_left map]. rewrite app_nil_r.
    repeat apply conj; try assumption; reflexivity.
  - cbn [fold_left map].
    assert (Hne : run <> [])
      by (destruct Hrun as [[_ (l & ->)]|(i & l & ->)]; discriminate).
    destruct (group_step_runs runs run id Hne) as (runs1 & run1 & -> & E1 & R1 & Hcase).
    assert (Hinv : (runs1 = [] /\ (exists l, run1 = header :: l))
                   \/ (exists id l, run1 = string_of_Z id :: l)).
    { destruct Hcase as [[-> ->]| ->]; [|right; eauto].
      destruct Hrun as [[-> (l & ->)]|(i & l & ->)].
      - left. split; [reflexivity|]. now exists (l ++ [string_of_Z id]).
      - right. now exists i, (l ++ [string_of_Z id]). }
    destruct (IH runs1 run1 (R1 Hruns) Hinv) as (runs' & run' & -> & E2 & R3 & Hfin).
    exists runs', run'. repeat apply conj; try assumption; try reflexivity.
    rewrite E2, app_assoc, E1, <- !app_assoc. reflexivity.
Qed.

(** formatGroupLines gives no line for an empty group. For other groups the
    name of the group and the ids, in their order, are cut into runs; each
    line is one run, its items joined by a space, and every line but the
    last is followed by the continuation marker. *)
Theorem group_lines_keep_every_id (groupName : string) (ids : list Z) :
  formatGroupLines groupName [] = []
  /\ (ids <> [] ->
      exists runs run,
        concat runs ++ run = ("_" +:+ toUpperCase groupName) :: map string_of_Z ids
        /\ Forall (fun r => r <> []) runs /\ run <> []
        /\ formatGroupLines groupName ids
           = map (fun r => String.concat " " r +:+ " -") runs ++ [String.concat " " run]).
Proof.
  split.
  - unfold formatGroupLines. cbn [fold_left fst snd]. now rewrite String.eqb_refl.
  - intros Hids. unfold formatGroupLines.
    set (header := "_" +:+ toUpperCase groupName).
    destruct (group_fold_runs header ids [] [header]) as (runs & run & E & E2 & R & Hfin);
      [constructor | left; split; [reflexivity | now exists []] |].
    cbn [map String.concat concat app] in E, E2. rewrite E. cbn [fst snd].
    assert (Hne : String.concat " " run <> header).
    { destruct Hfin as [[-> (l & ->)]|(i & l & ->)].
      - cbn [concat app] in E2. injection E2 as ->.
        destruct ids as [|i ids]; [congruence|]. cbn [map].
        change (String.concat " " (header :: string_of_Z i :: map string_of_Z ids))
          with (header +:+ " " +:+ String.concat " " (string_of_Z i :: map string_of_Z ids)).
        intros H. apply (f_equal String.length) in H.
        rewrite !string_length_app in H. cbn [String.length] in H. lia.
      - destruct (string_of_Z_head i) as (c & r & -> & Hc).
        destruct (concat_head " " c r l) as (r' & ->).
        unfold header. change ("_" +:+ toUpperCase groupName)
          with (String "_" (toUpperCase groupName)). congruence. }
    apply String.eqb_neq in Hne. rewrite Hne.
    exists runs, run. repeat apply conj; try assumption; try reflexivity.
    destruct Hfin as [[_ (l & ->)]|(i & l & ->)]; discriminate.
Qed.

(** ** Member lines *)

Lemma zseq_cons (lo : Z) (n : nat) : zseq lo (S n) = lo :: zseq (lo + 1) n.
Proof.
  unfold zseq. cbn [seq map]. f_equal; [lia|].
  rewrite <- seq_shift, map_map. apply map_ext. intros i. lia.
Qed.

(** The first loop over the members numbers them from [memberIdCounter] on,
    and [memberIdMap] sends the id of a pedestal to the number of the last
    member of this pedestal. *)
Lemma incidence_fold_spec (ms : list member) :
  forall (lines : list string) (mp : gmap Z Z) (c : Z),
  exists mp',
    fold_left incidence_step ms (lines, mp, c)
    = (lines ++ map (fun im => string_of_Z (fst im) +:+ " " +:+
                               string_of_Z (startNode (snd im)) +:+ " " +:+
                               string_of_Z (endNode (snd im)) +:+ ";")
                    (combine (zseq c (List.length ms)) ms),
       mp', c + Z.of_nat (List.length ms))
    /\ (forall key, (forall mb, In mb ms -> p_id (pointData mb) <> key) ->
          mp' !! key = mp !! key)
    /\ (forall k mb, nth_error ms k = Some mb ->
          (forall k' mb', (k < k')%nat -> nth_error ms k' = Some mb' ->
             p_id (pointData mb') <> p_id (pointData mb)) ->
          mp' !! p_id (pointData mb) = Some (c + Z.of_nat k)).
Proof.
  induction ms as [|m0 ms IH]; intros lines mp c.
  - exists mp. cbn. rewrite app_nil_r, Z.add_0_r.
    repeat apply conj; [reflexivity | reflexivity |]. intros [|k] mb; discriminate.
  - cbn [fold_left incidence_step].
    destruct (IH (lines ++ [string_of_Z c +:+ " " +:+ string_of_Z (startNode m0) +:+ " " +:+
                            string_of_Z (endNode m0) +:+ ";"])
                 (<[p_id (pointData m0) := c]> mp) (c + 1)) as (mp' & E & Hkeep & Hlast).
    exists mp'. repeat apply conj.
    + rewrite E. cbn [List.length]. rewrite zseq_cons. cbn [combine map fst snd].
      rewrite <- app_assoc. cbn [app].
      replace (c + Z.of_nat (S (List.length ms))) with (c + 1 + Z.of_nat (List.length ms))
        by lia.
      reflexivity.
    + intros key Hkey. rewrite Hkeep by (intros mb Hmb; apply Hkey; now right).
      apply lookup_insert_ne. apply Hkey. now left.
    + intros [|k] mb Hk Hlater.
      * cbn in Hk. injection Hk as <-. rewrite Hkeep.
        -- rewrite lookup_insert_eq. f_equal. lia.
        -- intros mb Hmb. apply In_nth_error in Hmb as (k' & Hk').
           apply (Hlater (S k') mb); [lia | exact Hk'].
      * cbn in Hk. rewrite (Hlast k mb Hk).
        -- f_equal. lia.
        -- intros k' mb' Hlt Hk'. apply (Hlater (S k') mb'); [lia | exact Hk'].
Qed.

Lemma flat_map_numbered {A : Type} (f : A -> list string) (g : Z * A -> string)
    (l : list A) :
  forall c,
  (forall k a, nth_error l k = Some a -> f a = [g (c + Z.of_nat k, a)]) ->
  flat_map f l = map g (combine (zseq c (List.length l)) l).
Proof.
  induction l as [|a l IH]; intros c H; [reflexivity|].
  cbn [flat_map List.length]. rewrite zseq_cons. cbn [combine map].
  rewrite (H 0%nat a eq_refl), Z.add_0_r. cbn [app]. f_equal.
  apply IH. intros k b Hk. rewrite (H (S k) b Hk). do 3 f_equal. lia.
Qed.

Lemma last_plate_id (ps : list plate) :
  map pl_id ps = zseq 1 (List.length ps) ->
  match last ps with Some p => pl_id p | None => 0 end = Z.of_nat (List.length ps).
Proof.
  destruct ps as [|p0 ps] using rev_ind; [reflexivity|]. intros H.
  rewrite last_snoc. rewrite length_app in *. cbn [List.length] in *.
  rewrite Nat.add_1_r, zseq_snoc, map_app in H. cbn [map] in H.
  apply app_inj_tail in H as [_ H]. lia.
Qed.

Lemma NoDup_map_filter {A B : Type} (f : A -> B) (P : A -> bool) (l : list A) :
  List.NoDup (map f l) -> List.NoDup (map f (List.filter P l)).
Proof.
  induction l as [|a l IH]; cbn; intros H; [constructor|].
  apply List.NoDup_cons_iff in H as [Ha H]. destruct (P a); [|now apply IH].
  cbn. constructor; [|now apply IH].
  intros Hin. apply Ha. apply in_map_iff in Hin as (x & E & Hx).
  apply List.filter_In in Hx as [Hx _]. apply in_map_iff. eauto.
Qed.

(** With distinct pedestal ids, the members are numbered in the export from
    the number of plates plus 1 on, in their order, so that no member shares
    its number with a plate, and the PRISM line of each member carries the
    number of its MEMBER INCIDENCES line and the sizes of its pedestal;
    without members there is no member section. *)
Theorem member_numbers_continue_plate_numbers (xL zL : list float) (h : float)
    (pts : list point) (o : string) :
  List.NoDup (map p_id pts) ->
  let m := synthesize xL zL h pts o in
  let numbered :=
    combine (zseq (Z.of_nat (List.length (plates m)) + 1) (List.length (members m)))
            (members m) in
  member_lines (plates m) (members m) =
    if (0 <? List.length (members m))%nat
    then ["MEMBER INCIDENCES"%string]
         ++ map (fun im => string_of_Z (fst im) +:+ " " +:+
                           string_of_Z (startNode (snd im)) +:+ " " +:+
                           string_of_Z (endNode (snd im)) +:+ ";") numbered
         ++ material_lines
         ++ map (fun im => string_of_Z (fst im) +:+ " PRISM YD " +:+
                           Number_toString (round3 (p_length (pointData (snd im)))) +:+
                           " ZD " +:+
                           Number_toString (round3 (p_width (pointData (snd im)))) +:+ ";")
                numbered
    else [].
Proof.
  intros Hnd. cbn zeta.
  destruct (synthesize_plates xL zL h pts o) as (Hp & _). cbn zeta in Hp.
  destruct (synthesize_member_list xL zL h pts o) as (Hm & _). cbn zeta in Hm.
  set (m := synthesize xL zL h pts o) in *.
  assert (Hlen : List.length (plates m)
                 = List.length (row_major (zseq 0 (List.length xL - 1))
                                          (zseq 0 (List.length zL - 1))))
    by (rewrite <- (length_map pl_id), Hp; apply zseq_length).
  rewrite <- Hlen in Hp.
  unfold member_lines. rewrite (last_plate_id _ Hp).
  destruct (0 <? List.length (members m))%nat; [|reflexivity].
  destruct (incidence_fold_spec (members m) ["MEMBER INCIDENCES"%string] ∅
              (Z.of_nat (List.length (plates m)) + 1)) as (mp' & -> & _ & Hlast).
  rewrite <- !app_assoc. do 3 f_equal.
  apply flat_map_numbered. intros k mb Hk. unfold prism_line.
  assert (Hids : List.NoDup (map p_id (map pointData (members m)))).
  { rewrite Hm. destruct (1e-9 <? h)%float; [|constructor]. now apply NoDup_map_filter. }
  rewrite (Hlast k mb Hk).
  - replace (_ =? 0) with false by (symmetry; apply Z.eqb_neq; lia). reflexivity.
  - intros k' mb' Hlt Hk' E. rewrite map_map in Hids.
    rewrite List.NoDup_nth_error in Hids.
    assert (k = k'); [|lia].
    apply Hids.
    + rewrite length_map. apply nth_error_Some. congruence.
    + rewrite !nth_error_map, Hk, Hk'. cbn. now rewrite E.
Qed.

Lemma member_numbers_continue_plate_numbers_witness :
  let pts := [{| p_id := 1; p_x := 0.5; p_z := 0.5; p_length := 0.5; p_width := 0.3 |}] in
  List.NoDup (map p_id pts)
  /\ member_lines (plates (synthesize [0; 0.5; 1]%float [0; 0.5; 1]%float 0.5 pts "down"))
                  (members (synthesize [0; 0.5; 1]%float [0; 0.5; 1]%float 0.5 pts "down"))
     = ["MEMBER INCIDENCES"; "5 5 10;"]%string ++ material_lines
       ++ ["5 PRISM YD 0.5 ZD 0.3;"%string].
Proof.
  cbv zeta.
  assert (H : List.NoDup (map p_id
    [{| p_id := 1; p_x := 0.5; p_z := 0.5; p_length := 0.5; p_width := 0.3 |}]))
    by (constructor; [intros [] | constructor]).
  split; [exact H|].
  exact (member_numbers_continue_plate_numbers [0; 0.5; 1]%float [0; 0.5; 1]%float 0.5
           [{| p_id := 1; p_x := 0.5; p_z := 0.5; p_length := 0.5; p_width := 0.3 |}]
           "down" H).
Defined.

(** ** The sections of the export *)

Lemma snoc_neq (s t : string) (c : ascii) :
  String.get (String.length t - 1) t <> Some c -> s +:+ String c "" <> t.
Proof.
  intros H E. subst t. apply H. rewrite string_length_app. cbn [String.length].
  replace (String.length s + 1 - 1)%nat with (0 + String.length s)%nat by lia.
  now rewrite <- append_correct2.
Qed.

Lemma semicolon_plain (s : string) : plain_line (s +:+ ";").
Proof. repeat split; apply snoc_neq; vm_compute; discriminate. Qed.

Lemma marker_plain (s : string) : plain_line (s +:+ " -").
Proof.
  change (s +:+ " -") with (s +:+ (" " +:+ "-")). rewrite <- string_app_assoc.
  repeat split; apply snoc_neq; vm_compute; discriminate.
Qed.

Lemma string_of_Z_first (z : Z) :
  exists c r, string_of_Z z = String c r
              /\ In c (list_ascii_of_string "-0123456789").
Proof.
  unfold string_of_Z, NilZero.string_of_int, NilZero.string_of_uint.
  destruct (Z.to_int z) as [d|d]; destruct d; cbn;
    eexists _, _; (split; [reflexivity | cbn; tauto]).
Qed.

Lemma first_char_plain (c : ascii) (r : string) :
  In c (list_ascii_of_string "_-0123456789") -> plain_line (String c r).
Proof.
  cbn. intros H.
  repeat (destruct H as [<-|H]; [repeat split; discriminate|]). destruct H.
Qed.

Lemma pack_lines_plain (tokens : list string) :
  Forall (fun l => exists s, l = s +:+ ";") (pack_lines tokens).
Proof.
  unfold pack_lines.
  assert (H : forall st, Forall (fun l => exists s, l = s +:+ ";") (fst st) ->
            Forall (fun l => exists s, l = s +:+ ";") (fst (fold_left pack_step tokens st))).
  { induction tokens as [|t tokens IH]; intros st Hst; [exact Hst|].
    cbn [fold_left]. apply IH. unfold pack_step.
    destruct (String.eqb (snd st) ""); [exact Hst|].
    destruct (_ <=? 74)%nat; [exact Hst|]. cbn [fst].
    apply Forall_app. split; [exact Hst|]. constructor; [eauto | constructor]. }
  specialize (H ([], ""%string) ltac:(constructor)).
  destruct (String.eqb _ ""); [exact H|].
  apply Forall_app. split; [exact H|]. constructor; [eauto | constructor].
Qed.

Lemma formatGroupLines_plain (groupName : string) (ids : list Z) :
  Forall plain_line (formatGroupLines groupName ids).
Proof.
  unfold formatGroupLines.
  set (header := "_" +:+ toUpperCase groupName).
  destruct (group_fold_runs header ids [] [header]) as (runs & run & E & _ & _ & Hfin);
    [constructor | left; split; [reflexivity | now exists []] |].
  cbn [map String.concat] in E. rewrite E. cbn [fst snd].
  assert (Hruns : Forall plain_line (map (fun r => String.concat " " r +:+ " -") runs)).
  { apply List.Forall_forall. intros l Hl. apply in_map_iff in Hl as (r & <- & _).
    apply marker_plain. }
  destruct (String.eqb _ header); [exact Hruns|].
  apply Forall_app. split; [exact Hruns|]. constructor; [|constructor].
  destruct Hfin as [[_ (l & ->)]|(i & l & ->)].
  - unfold header. change ("_" +:+ toUpperCase groupName)
      with (String "_" (toUpperCase groupName)).
    destruct (concat_head " " "_" (toUpperCase groupName) l) as (r' & ->).
    apply first_char_plain. cbn. tauto.
  - destruct (string_of_Z_first i) as (c & r & -> & Hc).
    destruct (concat_head " " c r l) as (r' & ->).
    apply first_char_plain. now right.
Qed.

Lemma incidence_fold_plain (ms : list member) (st : list string * gmap Z Z * Z) :
  Forall (fun l => l = "MEMBER INCIDENCES"%string \/ plain_line l) (fst (fst st)) ->
  Forall (fun l => l = "MEMBER INCIDENCES"%string \/ plain_line l)
         (fst (fst (fold_left incidence_step ms st))).
Proof.
  revert st. induction ms as [|m0 ms IH]; intros st Hst; [exact Hst|].
  cbn [fold_left]. apply IH. destruct st as [[lines mp] c]. cbn [incidence_step fst].
  apply Forall_app. split; [exact Hst|]. constructor; [|constructor].
  right. rewrite <- !string_app_assoc. apply semicolon_plain.
Qed.

Lemma member_lines_plain (ps : list plate) (ms : list member) :
  Forall (fun l => l = "MEMBER INCIDENCES"%string \/ plain_line l) (member_lines ps ms).
Proof.
  unfold member_lines. destruct (0 <? List.length ms)%nat; [|constructor].
  pose proof (incidence_fold_plain ms
                (["MEMBER INCIDENCES"%string], ∅,
                 match last ps with Some p => pl_id p | None => 0 end + 1)) as H.
  destruct (fold_left incidence_step ms _) as [[lines mp] c]. cbn [fst] in H.
  apply Forall_app. split; [apply H; constructor; [now left | constructor]|].
  apply Forall_app. split.
  - unfold material_lines. repeat (constructor; [right; repeat split; discriminate|]).
    constructor.
  - apply List.Forall_forall. intros l Hl. apply in_flat_map in Hl as (mb & _ & Hl).
    unfold prism_line in Hl. destruct (mp !! _) as [i|]; [|destruct Hl].
    destruct (i =? 0); [destruct Hl|]. destruct Hl as [<-|[]].
    right. rewrite <- !string_app_assoc. apply semicolon_plain.
Qed.

Lemma group_lines_plain (gr : groups) :
  Forall (fun l => l = "START GROUP DEFINITION"%string \/ plain_line l) (group_lines gr).
Proof.
  unfold group_lines. destruct (_ || _); [|constructor].
  assert (F : forall name ids,
            Forall (fun l => l = "START GROUP DEFINITION"%string \/ plain_line l)
                   (formatGroupLines name ids)).
  { intros name ids. eapply List.Forall_impl; [|apply formatGroupLines_plain].
    intros l Hl. now right. }
  repeat (apply Forall_app; split).
  - constructor; [now left|]. constructor; [|constructor].
    right. repeat split; discriminate.
  - destruct (0 <? _)%nat; [apply F | constructor].
  - destruct (0 <? _)%nat; [apply F | constructor].
  - destruct (0 <? _)%nat; [apply F | constructor].
  - constructor; [|constructor]. right. repeat split; discriminate.
Qed.

Lemma property_lines_plain (ps : list plate) (t : float) :
  Forall (fun l => l = "ELEMENT PROPERTY"%string \/ plain_line l) (property_lines ps t).
Proof.
  unfold property_lines. destruct (0 <? _)%nat; [|constructor].
  constructor; [now left|]. constructor; [|constructor].
  right. rewrite <- !string_app_assoc. apply semicolon_plain.
Qed.

Lemma header_lines_plain (formattedDate : string) :
  Forall plain_line (header_lines formattedDate).
Proof.
  unfold header_lines. repeat constructor; try discriminate;
    intros H; vm_compute in H; discriminate H.
Qed.

(** The optional sections of the export are present exactly when there is
    something to list: the line START GROUP DEFINITION occurs in the export
    if and only if one of the three groups is not empty, ELEMENT PROPERTY if
    and only if there is a plate, and MEMBER INCIDENCES if and only if there
    is a member. The export always starts with STAAD SPACE and ends with
    FINISH. *)
Theorem export_sections_follow_the_data (formattedDate : string) (m : mesh)
    (gr : groups) (t : float) :
  let ls := exportLines formattedDate m gr t in
  hd_error ls = Some "STAAD SPACE"%string
  /\ last ls = Some "FINISH"%string
  /\ (In "START GROUP DEFINITION"%string ls <->
        groupedPlates gr <> [] \/ shearPlates gr <> [] \/ twoWayShearPlates gr <> [])
  /\ (In "ELEMENT PROPERTY"%string ls <-> plates m <> [])
  /\ (In "MEMBER INCIDENCES"%string ls <-> members m <> []).
Proof.
  cbn zeta. unfold exportLines, body_lines.
  pose proof (header_lines_plain formattedDate) as Hh.
  pose proof (pack_lines_plain (map jointStr (nodes m))) as Hj.
  pose proof (pack_lines_plain (map plateStr (plates m))) as Hi.
  pose proof (group_lines_plain gr) as Hg.
  pose proof (property_lines_plain (plates m) t) as Hp.
  pose proof (member_lines_plain (plates m) (members m)) as Hm.
  fold (joint_lines (nodes m)) in Hj. fold (incidence_lines (plates m)) in Hi.
  rewrite List.Forall_forall in Hh, Hj, Hi, Hg, Hp, Hm.
  assert (Hsplit : forall M, ~ plain_line M ->
            In M (header_lines formattedDate ++
                  ["JOINT COORDINATES"%string] ++ joint_lines (nodes m) ++
                  ["ELEMENT INCIDENCES SHELL"%string] ++ incidence_lines (plates m) ++
                  group_lines gr ++ property_lines (plates m) t ++
                  member_lines (plates m) (members m) ++ ["FINISH"%string]) ->
            In M (group_lines gr) \/ In M (property_lines (plates m) t)
            \/ In M (member_lines (plates m) (members m))).
  { intros M HM H. rewrite !in_app_iff in H.
    destruct H as [H|[H|[H|[H|[H|[H|[H|[H|H]]]]]]]]; auto.
    - exfalso. now apply HM, Hh.
    - destruct H as [<-|[]]. exfalso. apply HM. repeat split; discriminate.
    - exfalso. apply Hj in H as (s & ->). apply HM, semicolon_plain.
    - destruct H as [<-|[]]. exfalso. apply HM. repeat split; discriminate.
    - exfalso. apply Hi in H as (s & ->). apply HM, semicolon_plain.
    - destruct H as [<-|[]]. exfalso. apply HM. repeat split; discriminate. }
  split; [|split; [|split; [|split]]].
  - reflexivity.
  - rewrite !app_assoc. apply last_snoc.
  - split.
    + intros H. apply Hsplit in H; [|intros (C & _); now apply C].
      destruct H as [H|[H|H]].
      * unfold group_lines in H.
        destruct (groupedPlates gr), (shearPlates gr), (twoWayShearPlates gr);
          cbn in H; try contradiction; auto; try (left; discriminate);
          try (right; left; discriminate); right; right; discriminate.
      * apply Hp in H as [H|(C & _)]; [discriminate H | now contradiction C].
      * apply Hm in H as [H|(C & _)]; [discriminate H | now contradiction C].
    + intros H. rewrite !in_app_iff. do 5 right. left.
      unfold group_lines.
      replace (_ || _) with true; [now left|].
      destruct (groupedPlates gr), (shearPlates gr), (twoWayShearPlates gr);
        cbn; try reflexivity. destruct H as [H|[H|H]]; congruence.
  - split.
    + intros H. apply Hsplit in H; [|intros (_ & C & _); now apply C].
      destruct H as [H|[H|H]].
      * apply Hg in H as [H|(_ & C & _)]; [discriminate H | now contradiction C].
      * unfold property_lines in H. destruct (plates m); [destruct H | discriminate].
      * apply Hm in H as [H|(_ & C & _)]; [discriminate H | now contradiction C].
    + intros H. rewrite !in_app_iff. do 6 right. left.
      unfold property_lines. destruct (plates m); [congruence | now left].
  - split.
    + intros H. apply Hsplit in H; [|intros (_ & _ & C); now apply C].
      destruct H as [H|[H|H]].
      * apply Hg in H as [H|(_ & _ & C)]; [discriminate H | now contradiction C].
      * apply Hp in H as [H|(_ & _ & C)]; [discriminate H | now contradiction C].
      * unfold member_lines in H. destruct (members m); [destruct H | discriminate].
    + intros H. rewrite !in_app_iff. do 7 right. left.
      pose proof (member_lines_plain (plates m) (members m)) as _.
      unfold member_lines. destruct (members m) as [|mb ms]; [congruence|].
      cbn [List.length Nat.ltb Nat.leb].
      destruct (incidence_fold_spec (mb :: ms) ["MEMBER INCIDENCES"%string] ∅
                  (match last (plates m) with Some p => pl_id p | None => 0 end + 1))
        as (mp' & -> & _).
      cbn [app]. now left.
Qed.

(** ** Bounding boxes *)

(** In a list numbered from [lo] on, [find] by number gives the element at
    that position. *)
Lemma find_numbered {A : Type} (f : A -> Z) (l : list A) :
  forall (lo : Z) (j : nat) (a : A),
  map f l = zseq lo (List.length l) -> nth_error l j = Some a ->
  List.find (fun x => f x =? lo + Z.of_nat j) l = Some a.
Proof.
  induction l as [|b l IH]; intros lo j a Hl Hj; [destruct j; discriminate|].
  cbn [List.length] in Hl. rewrite zseq_cons in Hl. cbn [map] in Hl.
  injection Hl as Hb Hl. cbn [List.find].
  destruct j as [|j].
  - cbn in Hj. injection Hj as <-. rewrite Hb, Z.add_0_r, Z.eqb_refl. reflexivity.
  - cbn in Hj. replace (f b =? lo + Z.of_nat (S j)) with false
      by (symmetry; apply Z.eqb_neq; lia).
    replace (lo + Z.of_nat (S j)) with (lo + 1 + Z.of_nat j) by lia.
    now apply IH.
Qed.

Lemma fold_min_spec (vs : list float) :
  forall init, is_nan init = false -> Forall (fun v => is_nan v = false) vs ->
  let r := fold_left Math_min vs init in
  (r = init \/ In r vs) /\ (r <=? init)%float = true
  /\ forall v, In v vs -> (r <=? v)%float = true.
Proof.
  induction vs as [|v vs IH]; intros init Hi Hvs; cbn zeta; cbn [fold_left].
  - repeat apply conj; [now left | now apply leb_refl | intros v []].
  - apply Forall_cons in Hvs as [Hv Hvs].
    destruct (Math_min_spec init v Hi Hv) as (Hc & L1 & L2).
    assert (Hn : is_nan (Math_min init v) = false) by (destruct Hc as [-> | ->]; assumption).
    destruct (IH _ Hn Hvs) as (Hr & Lr & Hall). cbn zeta in *.
    repeat apply conj.
    + destruct Hr as [Hr|Hr]; [|right; now right].
      rewrite Hr. destruct Hc as [-> | ->]; [now left | right; now left].
    + now apply (leb_trans _ (Math_min init v)).
    + intros w [<-|Hw]; [now apply (leb_trans _ (Math_min init v)) | now apply Hall].
Qed.

Lemma fold_max_spec (vs : list float) :
  forall init, is_nan init = false -> Forall (fun v => is_nan v = false) vs ->
  let r := fold_left Math_max vs init in
  (r = init \/ In r vs) /\ (init <=? r)%float = true
  /\ forall v, In v vs -> (v <=? r)%float = true.
Proof.
  induction vs as [|v vs IH]; intros init Hi Hvs; cbn zeta; cbn [fold_left].
  - repeat apply conj; [now left | now apply leb_refl | intros v []].
  - apply Forall_cons in Hvs as [Hv Hvs].
    destruct (Math_max_spec init v Hi Hv) as (Hc & L1 & L2).
    assert (Hn : is_nan (Math_max init v) = false) by (destruct Hc as [-> | ->]; assumption).
    destruct (IH _ Hn Hvs) as (Hr & Lr & Hall). cbn zeta in *.
    repeat apply conj.
    + destruct Hr as [Hr|Hr]; [|right; now right].
      rewrite Hr. destruct Hc as [-> | ->]; [now left | right; now left].
    + now apply (leb_trans _ (Math_max init v)).
    + intros w [<-|Hw]; [now apply (leb_trans _ (Math_max init v)) | now apply Hall].
Qed.

Lemma ltb_infinity_false (y : float) : (infinity <? y)%float = false.
Proof.
  rewrite FloatAxioms.ltb_spec. change (Prim2SF infinity) with (S754_infinity false).
  unfold SFltb. destruct (Prim2SF y) as [s|s| |s m e]; cbn; try reflexivity.
  now destruct s.
Qed.

Lemma ltb_neg_infinity_false (y : float) : (y <? neg_infinity)%float = false.
Proof.
  rewrite FloatAxioms.ltb_spec. change (Prim2SF neg_infinity) with (S754_infinity true).
  unfold SFltb. destruct (Prim2SF y) as [s|s| |s m e]; cbn; try reflexivity.
  now destruct s.
Qed.

(** The least of values taken from a strictly increasing list, between the
    positions [lo] and [hi], is the value at [lo] when it is among them. *)
Lemma fold_min_increasing (l : list float) (vs : list float) (lo hi : nat) (a b : float) :
  increasing l -> (lo < hi)%nat ->
  nth_error l lo = Some a -> nth_error l hi = Some b ->
  (forall v, In v vs -> exists i, (lo <= i <= hi)%nat /\ nth_error l i = Some v) ->
  In a vs ->
  fold_left Math_min vs infinity = a.
Proof.
  intros Hinc Hlt Ha Hb Hvs Hin.
  pose proof (Hinc lo hi a b Hlt Ha Hb) as Hab.
  assert (Hnan : Forall (fun v => is_nan v = false) vs).
  { apply List.Forall_forall. intros v Hv. destruct (Hvs v Hv) as (i & Hi & Hv').
    destruct (Nat.eq_dec i lo) as [->|Hne].
    - rewrite Ha in Hv'. injection Hv' as <-. now apply ltb_not_nan in Hab.
    - pose proof (Hinc lo i a v ltac:(lia) Ha Hv') as H. now apply ltb_not_nan in H. }
  destruct (fold_min_spec vs infinity eq_refl Hnan) as (Hr & _ & Hall). cbn zeta in *.
  set (r := fold_left Math_min vs infinity) in *.
  pose proof (Hall a Hin) as Hra.
  destruct Hr as [Hr|Hr].
  - exfalso. rewrite Hr in Hra.
    pose proof (leb_ltb_trans _ _ _ Hra Hab) as C. rewrite ltb_infinity_false in C.
    discriminate.
  - destruct (Hvs r Hr) as (i & Hi & Hri).
    destruct (Nat.eq_dec i lo) as [->|Hne]; [congruence|].
    exfalso. pose proof (Hinc lo i a r ltac:(lia) Ha Hri) as C.
    rewrite (leb_ltb_false _ _ Hra) in C. discriminate.
Qed.

Lemma fold_max_increasing (l : list float) (vs : list float) (lo hi : nat) (a b : float) :
  increasing l -> (lo < hi)%nat ->
  nth_error l lo = Some a -> nth_error l hi = Some b ->
  (forall v, In v vs -> exists i, (lo <= i <= hi)%nat /\ nth_error l i = Some v) ->
  In b vs ->
  fold_left Math_max vs neg_infinity = b.
Proof.
  intros Hinc Hlt Ha Hb Hvs Hin.
  pose proof (Hinc lo hi a b Hlt Ha Hb) as Hab.
  assert (Hnan : Forall (fun v => is_nan v = false) vs).
  { apply List.Forall_forall. intros v Hv. destruct (Hvs v Hv) as (i & Hi & Hv').
    destruct (Nat.eq_dec i lo) as [->|Hne].
    - rewrite Ha in Hv'. injection Hv' as <-. now apply ltb_not_nan in Hab.
    - pose proof (Hinc lo i a v ltac:(lia) Ha Hv') as H. now apply ltb_not_nan in H. }
  destruct (fold_max_spec vs neg_infinity eq_refl Hnan) as (Hr & _ & Hall). cbn zeta in *.
  set (r := fold_left Math_max vs neg_infinity) in *.
  pose proof (Hall b Hin) as Hbr.
  destruct Hr as [Hr|Hr].
  - exfalso. rewrite Hr in Hbr.
    pose proof (ltb_leb_trans _ _ _ Hab Hbr) as C. rewrite ltb_neg_infinity_false in C.
    discriminate.
  - destruct (Hvs r Hr) as (i & Hi & Hri).
    destruct (Nat.eq_dec i hi) as [->|Hne]; [congruence|].
    exfalso. pose proof (Hinc i hi r b ltac:(lia) Hri Hb) as C.
    rewrite (leb_ltb_false _ _ Hbr) in C. discriminate.
Qed.

(** The four variables after the loops, when every plate and node is found. *)
Lemma extent_nodes_fold (nodes : list node) (nd : Z -> node) (nids : list Z) :
  (forall nid, In nid nids -> List.find (fun n => n_id n =? nid) nodes = Some (nd nid)) ->
  forall e,
  fold_left (extent_node nodes) nids e =
  {| minX := fold_left Math_min (map (fun i => n_x (nd i)) nids) (minX e);
     maxX := fold_left Math_max (map (fun i => n_x (nd i)) nids) (maxX e);
     minZ := fold_left Math_min (map (fun i => n_z (nd i)) nids) (minZ e);
     maxZ := fold_left Math_max (map (fun i => n_z (nd i)) nids) (maxZ e) |}.
Proof.
  induction nids as [|nid nids IH]; intros H e; cbn [fold_left map].
  - now destruct e.
  - unfold extent_node at 2. rewrite (H nid) by now left.
    rewrite IH by (intros i Hi; apply H; now right). reflexivity.
Qed.

Lemma extent_plates_fold (plates : list plate) (nodes : list node)
    (plf : Z -> plate) (nd : Z -> node) (pids : list Z) :
  (forall pid, In pid pids ->
     List.find (fun p => pl_id p =? pid) plates = Some (plf pid)) ->
  (forall pid nid, In pid pids -> In nid (pl_nodes (plf pid)) ->
     List.find (fun n => n_id n =? nid) nodes = Some (nd nid)) ->
  forall e,
  let nids := flat_map (fun pid => pl_nodes (plf pid)) pids in
  fold_left (extent_plate plates nodes) pids e =
  {| minX := fold_left Math_min (map (fun i => n_x (nd i)) nids) (minX e);
     maxX := fold_left Math_max (map (fun i => n_x (nd i)) nids) (maxX e);
     minZ := fold_left Math_min (map (fun i => n_z (nd i)) nids) (minZ e);
     maxZ := fold_left Math_max (map (fun i => n_z (nd i)) nids) (maxZ e) |}.
Proof.
  induction pids as [|pid pids IH]; intros Hp Hn e; cbn zeta; cbn [fold_left flat_map].
  - now destruct e.
  - unfold extent_plate at 2. rewrite (Hp pid) by now left.
    rewrite (extent_nodes_fold nodes nd) by (intros i Hi; apply (Hn pid); [now left | exact Hi]).
    rewrite IH; [|intros; apply Hp; now right | intros p i ? ?; apply (Hn p); [now right | assumption]].
    cbn [minX maxX minZ maxZ]. rewrite !map_app, !fold_left_app. reflexivity.
Qed.

Lemma Array_from_Set_In (ids : list Z) (id : Z) : In id (Array_from_Set ids) <-> In id ids.
Proof.
  unfold Array_from_Set.
  assert (H : forall s, In id (fold_left (fun s i => if existsb (Z.eqb i) s then s else s ++ [i])
                                 ids s) <-> In id s \/ In id ids).
  { induction ids as [|i ids IH]; intros s; cbn [fold_left]; [cbn; tauto|].
    rewrite IH. destruct (existsb (Z.eqb i) s) eqn:E.
    - apply existsb_exists in E as (x & Hx & Ex). apply Z.eqb_eq in Ex. subst x.
      cbn. split; [tauto|]. intros [H|[<-|H]]; auto.
    - rewrite in_app_iff. cbn. tauto. }
  rewrite H. cbn. tauto.
Qed.

Lemma Array_from_Set_nil (ids : list Z) : Array_from_Set ids = [] <-> ids = [].
Proof.
  split; [|intros ->; reflexivity]. intros H. destruct ids as [|i ids]; [reflexivity|].
  exfalso. assert (Hin : In i (Array_from_Set (i :: ids))) by (apply Array_from_Set_In; now left).
  rewrite H in Hin. destruct Hin.
Qed.

Lemma nodes_numbered (xL zL : list float) (h : float) (pts : list point) (o : string) :
  let m := synthesize xL zL h pts o in
  map n_id (nodes m) = zseq 1 (List.length (nodes m)).
Proof.
  cbn zeta.
  destruct (synthesize_nodes xL zL h pts o) as (surf & extra & -> & Hs & _ & He & _).
  assert (Hl : List.length surf = (List.length zL * List.length xL)%nat)
    by (rewrite <- (length_map n_id), Hs; apply zseq_length).
  rewrite map_app, length_app, zseq_app, Hs, He, Hl. reflexivity.
Qed.

(** [nodes.find] on the id that [nodeIdAt] gives for a crossing. *)
Lemma find_node_at (xL zL : list float) (h : float) (pts : list point) (o : string)
    (a b : Z) (x z : float) :
  0 <= a -> 0 <= b ->
  nth_error xL (Z.to_nat a) = Some x -> nth_error zL (Z.to_nat b) = Some z ->
  List.find (fun n => n_id n =? nodeIdAt (Z.of_nat (List.length xL)) a b)
            (nodes (synthesize xL zL h pts o))
  = Some {| n_id := nodeIdAt (Z.of_nat (List.length xL)) a b;
            n_x := x; n_y := 0; n_z := z; n_type := surface |}.
Proof.
  intros Ha Hb Hx Hz.
  pose proof (nodes_numbered xL zL h pts o) as Hnum. cbn zeta in Hnum.
  destruct (synthesize_surface_prefix xL zL h pts o) as (extra & Hn & _).
  pose proof (nth_row_major xL zL _ _ x z Hx Hz) as Hc.
  pose proof (surface_fold_nth _ _ _ Hc) as Hnode. cbn [fst snd] in Hnode.
  rewrite <- surface_nodes_flat in Hnode.
  set (j := (Z.to_nat b * List.length xL + Z.to_nat a)%nat) in *.
  assert (E : nodeIdAt (Z.of_nat (List.length xL)) a b = 1 + Z.of_nat j)
    by (unfold nodeIdAt, j; nia).
  rewrite E. apply find_numbered; [exact Hnum|].
  rewrite Hn, nth_error_app1 by (apply nth_error_Some; congruence). exact Hnode.
Qed.

(** [plates.find] on the id of the plate of a cell. *)
Lemma find_plate_of (xL zL : list float) (h : float) (pts : list point) (o : string)
    (xi zi : Z) :
  0 <= xi < Z.of_nat (List.length xL) - 1 -> 0 <= zi < Z.of_nat (List.length zL) - 1 ->
  List.find (fun p => pl_id p =? zi * (Z.of_nat (List.length xL) - 1) + xi + 1)
            (plates (synthesize xL zL h pts o))
  = Some {| pl_id := zi * (Z.of_nat (List.length xL) - 1) + xi + 1;
            pl_nodes := plate_order (Z.of_nat (List.length xL)) o xi zi |}.
Proof.
  intros Hx Hz.
  destruct (synthesize_plates xL zL h pts o) as (Hid & Hnodes & _).
  cbn zeta in Hid, Hnodes.
  set (w := (List.length xL - 1)%nat) in *. set (d := (List.length zL - 1)%nat) in *.
  set (nX := Z.of_nat (List.length xL)) in *.
  assert (Hw : Z.of_nat w = nX - 1) by (unfold w, nX; lia).
  pose proof (nth_cells w d xi zi ltac:(lia) ltac:(unfold d; lia)) as Hc.
  rewrite Hw in Hc.
  set (ps := plates (synthesize xL zL h pts o)) in *.
  set (j := Z.to_nat (zi * (nX - 1) + xi)) in *.
  assert (Hlen : List.length ps = List.length (row_major (zseq 0 w) (zseq 0 d)))
    by (rewrite <- (length_map pl_id), Hid; apply zseq_length).
  assert (Hlt : (j < List.length ps)%nat)
    by (rewrite Hlen; apply nth_error_Some; congruence).
  destruct (nth_error ps j) as [pl|] eqn:Ep; [|apply nth_error_None in Ep; lia].
  pose proof (map_nth_error pl_id _ _ Ep) as I.
  rewrite Hid, nth_zseq in I by lia.
  pose proof (map_nth_error pl_nodes _ _ Ep) as N.
  rewrite Hnodes, nth_error_map, Hc in N. cbn in N.
  replace (zi * (nX - 1) + xi + 1) with (1 + Z.of_nat j) by (unfold j; nia).
  rewrite <- Hlen in Hid. rewrite (find_numbered pl_id ps 1 j pl Hid Ep).
  destruct pl as [i ns]. cbn in I, N. injection I as I. injection N as N.
  now subst.
Qed.

Lemma in_plate_order (nX : Z) (o : string) (xi zi nid : Z) :
  In nid (plate_order nX o xi zi) <->
  exists a b, (a = xi \/ a = xi + 1) /\ (b = zi \/ b = zi + 1) /\ nid = nodeIdAt nX a b.
Proof.
  unfold plate_order. destruct (String.eqb o "up"); cbn; split.
  - intros [<-|[<-|[<-|[<-|[]]]]]; eexists _, _; (split; [|split; [|reflexivity]]); auto.
  - intros (a & b & [-> | ->] & [-> | ->] & ->); auto.
  - intros [<-|[<-|[<-|[<-|[]]]]]; eexists _, _; (split; [|split; [|reflexivity]]); auto.
  - intros (a & b & [-> | ->] & [-> | ->] & ->); auto.
Qed.

Lemma index_range_zseq (count : Z) (s e : intnum) :
  exists lo n, index_range count s e = zseq lo n /\ 0 <= lo
               /\ lo + Z.of_nat n <= Z.max lo count.
Proof.
  unfold index_range.
  destruct s as [| |s|], e as [| |e|];
    try (exists 0, 0%nat; split; [reflexivity | lia]);
    eexists _, _; (split; [reflexivity | lia]).
Qed.

Lemma zseq_first_last (lo : Z) (n : nat) (a b : Z) :
  hd_error (zseq lo n) = Some a -> last (zseq lo n) = Some b ->
  a = lo /\ b = lo + Z.of_nat n - 1 /\ (0 < n)%nat.
Proof.
  destruct n as [|n]; [discriminate|]. intros Ha Hb.
  rewrite zseq_cons in Ha. cbn in Ha. injection Ha as <-.
  rewrite zseq_snoc, last_snoc in Hb. injection Hb as <-. lia.
Qed.

(** The nodes that the loops of [getBoundingBoxForPlates] visit for the
    plates of an index range are the corners of the cells of the range. *)
Lemma visited_corners (xL zL : list float) (h : float) (pts : list point) (o : string)
    (r : ranges) :
  let m := synthesize xL zL h pts o in
  let g := {| xLines := xL; zLines := zL |} in
  let nX := Z.of_nat (List.length xL) in
  let xs := index_range (nX - 1) (start_x r) (end_x r) in
  let zs := index_range (Z.of_nat (List.length zL) - 1) (start_z r) (end_z r) in
  let pids := Array_from_Set (range_plates (plateIds m) g r) in
  exists (plf : Z -> plate) (nd : Z -> node),
    (forall pid, In pid pids ->
       List.find (fun p => pl_id p =? pid) (plates m) = Some (plf pid))
    /\ (forall pid nid, In pid pids -> In nid (pl_nodes (plf pid)) ->
          List.find (fun n => n_id n =? nid) (nodes m) = Some (nd nid))
    /\ (forall nid, In nid (flat_map (fun pid => pl_nodes (plf pid)) pids) ->
          exists xi zi a b x z,
            In xi xs /\ In zi zs /\ (a = xi \/ a = xi + 1) /\ (b = zi \/ b = zi + 1)
            /\ nth_error xL (Z.to_nat a) = Some x /\ nth_error zL (Z.to_nat b) = Some z
            /\ n_x (nd nid) = x /\ n_z (nd nid) = z)
    /\ (forall xi zi a b x z,
          In xi xs -> In zi zs -> (a = xi \/ a = xi + 1) -> (b = zi \/ b = zi + 1) ->
          nth_error xL (Z.to_nat a) = Some x -> nth_error zL (Z.to_nat b) = Some z ->
          exists nid, In nid (flat_map (fun pid => pl_nodes (plf pid)) pids)
                      /\ n_x (nd nid) = x /\ n_z (nd nid) = z).
Proof.
  cbn zeta.
  set (m := synthesize xL zL h pts o). set (g := {| xLines := xL; zLines := zL |}).
  set (nX := Z.of_nat (List.length xL)). set (nZ := Z.of_nat (List.length zL)).
  set (xs := index_range (nX - 1) (start_x r) (end_x r)).
  set (zs := index_range (nZ - 1) (start_z r) (end_z r)).
  set (pids := Array_from_Set (range_plates (plateIds m) g r)).
  set (plf := fun pid => match List.find (fun p => pl_id p =? pid) (plates m) with
                         | Some p => p
                         | None => {| pl_id := 0; pl_nodes := [] |}
                         end).
  set (nd := fun nid => match List.find (fun n => n_id n =? nid) (nodes m) with
                        | Some n => n
                        | None => {| n_id := 0; n_x := 0; n_y := 0; n_z := 0;
                                     n_type := surface |}
                        end).
  assert (Hpid : forall pid, In pid pids <->
            exists xi zi, In xi xs /\ In zi zs /\ pid = zi * (nX - 1) + xi + 1).
  { intros pid. unfold pids. rewrite Array_from_Set_In.
    pose proof (range_plates_cells xL zL h pts o r pid) as H. cbn zeta in H.
    fold m g nX in H. rewrite H. split.
    - intros ([xi zi] & Hc & ->). apply in_range_cells_iff in Hc. cbn [xLines zLines g] in Hc.
      fold nX nZ xs zs in Hc. exists xi, zi. tauto.
    - intros (xi & zi & Hx & Hz & ->). exists (xi, zi). split; [|reflexivity].
      apply in_range_cells_iff. cbn [xLines zLines g]. fold nX nZ xs zs. tauto. }
  assert (Hplate : forall xi zi, In xi xs -> In zi zs ->
            plf (zi * (nX - 1) + xi + 1)
            = {| pl_id := zi * (nX - 1) + xi + 1; pl_nodes := plate_order nX o xi zi |}
            /\ List.find (fun p => pl_id p =? zi * (nX - 1) + xi + 1) (plates m)
               = Some (plf (zi * (nX - 1) + xi + 1))).
  { intros xi zi Hx Hz. apply in_index_range in Hx, Hz.
    pose proof (find_plate_of xL zL h pts o xi zi Hx Hz) as F. fold m nX in F.
    unfold plf. rewrite F. now split. }
  assert (Hnode : forall xi zi a b, In xi xs -> In zi zs ->
            (a = xi \/ a = xi + 1) -> (b = zi \/ b = zi + 1) ->
            exists x z, nth_error xL (Z.to_nat a) = Some x
                        /\ nth_error zL (Z.to_nat b) = Some z
                        /\ List.find (fun n => n_id n =? nodeIdAt nX a b) (nodes m)
                           = Some (nd (nodeIdAt nX a b))
                        /\ n_x (nd (nodeIdAt nX a b)) = x
                        /\ n_z (nd (nodeIdAt nX a b)) = z).
  { intros xi zi a b Hx Hz Ha Hb. apply in_index_range in Hx, Hz.
    destruct (nth_error xL (Z.to_nat a)) as [x|] eqn:Ex;
      [|apply nth_error_None in Ex; unfold nX in *; lia].
    destruct (nth_error zL (Z.to_nat b)) as [z|] eqn:Ez;
      [|apply nth_error_None in Ez; unfold nZ in *; lia].
    pose proof (find_node_at xL zL h pts o a b x z ltac:(lia) ltac:(lia) Ex Ez) as F.
    fold m nX in F. exists x, z. unfold nd. rewrite F. repeat split. }
  exists plf, nd. repeat apply conj.
  - intros pid Hp. apply Hpid in Hp as (xi & zi & Hx & Hz & ->). now apply Hplate.
  - intros pid nid Hp Hn. apply Hpid in Hp as (xi & zi & Hx & Hz & ->).
    destruct (Hplate xi zi Hx Hz) as [E _]. rewrite E in Hn. cbn [pl_nodes] in Hn.
    apply in_plate_order in Hn as (a & b & Ha & Hb & ->).
    destruct (Hnode xi zi a b Hx Hz Ha Hb) as (x & z & _ & _ & F & _). exact F.
  - intros nid Hn. apply in_flat_map in Hn as (pid & Hp & Hn).
    apply Hpid in Hp as (xi & zi & Hx & Hz & ->).
    destruct (Hplate xi zi Hx Hz) as [E _]. rewrite E in Hn. cbn [pl_nodes] in Hn.
    apply in_plate_order in Hn as (a & b & Ha & Hb & ->).
    destruct (Hnode xi zi a b Hx Hz Ha Hb) as (x & z & Ex & Ez & _ & Nx & Nz).
    exists xi, zi, a, b, x, z. repeat apply conj; assumption.
  - intros xi zi a b x z Hx Hz Ha Hb Ex Ez.
    exists (nodeIdAt nX a b).
    destruct (Hnode xi zi a b Hx Hz Ha Hb) as (x' & z' & Ex' & Ez' & _ & Nx & Nz).
    repeat apply conj; [|congruence | congruence].
    apply in_flat_map. exists (zi * (nX - 1) + xi + 1). split.
    + apply Hpid. eauto.
    + destruct (Hplate xi zi Hx Hz) as [E _]. rewrite E. cbn [pl_nodes].
      apply in_plate_order. eauto.
Qed.

(** On strictly increasing grid lines, the box of a group of a pedestal is
    the rectangle between the grid lines that bound its cells: it starts at
    the lines of the first visited indices and its width and height are the
    differences to the lines after the last visited indices. *)
Theorem group_box_spans_the_cells (xL zL : list float) (h : float) (pts : list point)
    (o : string) (r : ranges) (x0 x1 z0 z1 : Z) (ax bx az bz : float) :
  increasing xL -> increasing zL ->
  let m := synthesize xL zL h pts o in
  let g := {| xLines := xL; zLines := zL |} in
  let xs := index_range (Z.of_nat (List.length xL) - 1) (start_x r) (end_x r) in
  let zs := index_range (Z.of_nat (List.length zL) - 1) (start_z r) (end_z r) in
  hd_error xs = Some x0 -> last xs = Some x1 ->
  hd_error zs = Some z0 -> last zs = Some z1 ->
  nth_error xL (Z.to_nat x0) = Some ax -> nth_error xL (Z.to_nat (x1 + 1)) = Some bx ->
  nth_error zL (Z.to_nat z0) = Some az -> nth_error zL (Z.to_nat (z1 + 1)) = Some bz ->
  group_box m g r
  = Some {| box_x := ax; box_y := az; box_width := bx - ax; box_height := bz - az |}.
Proof.
  intros Hix Hiz. cbn zeta. intros Hx0 Hx1 Hz0 Hz1 Eax Ebx Eaz Ebz.
  destruct (visited_corners xL zL h pts o r) as (plf & nd & Hp & Hn & Hall & Hcorner).
  cbn zeta in *.
  set (m := synthesize xL zL h pts o) in *. set (g := {| xLines := xL; zLines := zL |}) in *.
  set (nX := Z.of_nat (List.length xL)) in *. set (nZ := Z.of_nat (List.length zL)) in *.
  set (xs := index_range (nX - 1) (start_x r) (end_x r)) in *.
  set (zs := index_range (nZ - 1) (start_z r) (end_z r)) in *.
  set (pids := Array_from_Set (range_plates (plateIds m) g r)) in *.
  destruct (index_range_zseq (nX - 1) (start_x r) (end_x r)) as (lox & cx & Exs & Hlox & _).
  destruct (index_range_zseq (nZ - 1) (start_z r) (end_z r)) as (loz & cz & Ezs & Hloz & _).
  fold xs in Exs. fold zs in Ezs.
  assert (Rx : x0 = lox /\ x1 = lox + Z.of_nat cx - 1 /\ (0 < cx)%nat)
    by (rewrite Exs in Hx0, Hx1; now apply zseq_first_last).
  assert (Rz : z0 = loz /\ z1 = loz + Z.of_nat cz - 1 /\ (0 < cz)%nat)
    by (rewrite Ezs in Hz0, Hz1; now apply zseq_first_last).
  assert (Inx : forall xi, In xi xs <-> x0 <= xi <= x1) by (intros; rewrite Exs, in_zseq; lia).
  assert (Inz : forall zi, In zi zs <-> z0 <= zi <= z1) by (intros; rewrite Ezs, in_zseq; lia).
  assert (Hx0' : In x0 xs) by (apply Inx; lia). assert (Hx1' : In x1 xs) by (apply Inx; lia).
  assert (Hz0' : In z0 zs) by (apply Inz; lia). assert (Hz1' : In z1 zs) by (apply Inz; lia).
  unfold group_box, getBoundingBoxForPlates. fold pids.
  assert (Hne : pids <> []).
  { intros E. destruct (Hcorner x0 z0 x0 z0 ax az) as (nid & Hin & _); auto.
    rewrite E in Hin. destruct Hin. }
  rewrite (extent_plates_fold _ _ plf nd pids Hp Hn). cbn zeta.
  cbn [minX maxX minZ maxZ extent_init].
  set (nids := flat_map (fun pid => pl_nodes (plf pid)) pids) in *.
  match goal with
  | |- match pids with [] => None | _ :: _ => Some ?b end = _ =>
      transitivity (Some b); [now destruct pids|]
  end.
  assert (Vx : forall v, In v (map (fun i => n_x (nd i)) nids) ->
            exists i, (Z.to_nat x0 <= i <= Z.to_nat (x1 + 1))%nat /\ nth_error xL i = Some v).
  { intros v Hv. apply in_map_iff in Hv as (nid & <- & Hnid).
    destruct (Hall nid Hnid) as (xi & zi & a & b & x & z & Hxi & Hzi & Ha & Hb & Ex & _ & Nx & _).
    apply Inx in Hxi. exists (Z.to_nat a). split; [lia | congruence]. }
  assert (Vz : forall v, In v (map (fun i => n_z (nd i)) nids) ->
            exists i, (Z.to_nat z0 <= i <= Z.to_nat (z1 + 1))%nat /\ nth_error zL i = Some v).
  { intros v Hv. apply in_map_iff in Hv as (nid & <- & Hnid).
    destruct (Hall nid Hnid) as (xi & zi & a & b & x & z & Hxi & Hzi & Ha & Hb & _ & Ez & _ & Nz).
    apply Inz in Hzi. exists (Z.to_nat b). split; [lia | congruence]. }
  assert (Cx : forall a b x z, (a = x0 \/ a = x1 + 1) -> (b = z0 \/ b = z1 + 1) ->
            nth_error xL (Z.to_nat a) = Some x -> nth_error zL (Z.to_nat b) = Some z ->
            In x (map (fun i => n_x (nd i)) nids) /\ In z (map (fun i => n_z (nd i)) nids)).
  { intros a b x z Ha Hb Ex Ez.
    destruct (Hcorner (if Z.eq_dec a x0 then x0 else x1) (if Z.eq_dec b z0 then z0 else z1)
                a b x z) as (nid & Hnid & Nx & Nz); try assumption.
    - now destruct (Z.eq_dec a x0).
    - now destruct (Z.eq_dec b z0).
    - destruct (Z.eq_dec a x0); lia.
    - destruct (Z.eq_dec b z0); lia.
    - split; apply in_map_iff; exists nid; now split. }
  destruct (Cx x0 z0 ax az) as [Iax Iaz]; auto.
  destruct (Cx (x1 + 1) (z1 + 1) bx bz) as [Ibx Ibz]; auto.
  assert (Lx : (Z.to_nat x0 < Z.to_nat (x1 + 1))%nat) by lia.
  assert (Lz : (Z.to_nat z0 < Z.to_nat (z1 + 1))%nat) by lia.
  rewrite (fold_min_increasing xL _ _ _ ax bx Hix Lx Eax Ebx Vx Iax).
  rewrite (fold_max_increasing xL _ _ _ ax bx Hix Lx Eax Ebx Vx Ibx).
  rewrite (fold_min_increasing zL _ _ _ az bz Hiz Lz Eaz Ebz Vz Iaz).
  rewrite (fold_max_increasing zL _ _ _ az bz Hiz Lz Eaz Ebz Vz Ibz).
  reflexivity.
Qed.

Lemma group_box_spans_the_cells_witness :
  let xL := [0; 1; 2; 3]%float in
  let zL := [0; 1; 2]%float in
  let r := {| start_x := IFin 1; end_x := IFin 3; start_z := IFin 0; end_z := IFin 1 |} in
  let xs := index_range (Z.of_nat (List.length xL) - 1) (start_x r) (end_x r) in
  let zs := index_range (Z.of_nat (List.length zL) - 1) (start_z r) (end_z r) in
  hd_error xs = Some 1 /\ last xs = Some 2 /\ hd_error zs = Some 0 /\ last zs = Some 0
  /\ nth_error xL (Z.to_nat 1) = Some 1%float /\ nth_error xL (Z.to_nat (2 + 1)) = Some 3%float
  /\ nth_error zL (Z.to_nat 0) = Some 0%float /\ nth_error zL (Z.to_nat (0 + 1)) = Some 1%float
  /\ increasing xL /\ increasing zL
  /\ group_box (synthesize xL zL 0 [] "down") {| xLines := xL; zLines := zL |} r
     = Some {| box_x := 1; box_y := 0; box_width := 3 - 1; box_height := 1 - 0 |}.
Proof.
  cbv zeta.
  assert (Hx : increasing [0; 1; 2; 3]%float)
    by (refine (StronglySorted_nth (fun a b => (a <? b)%float = true) _ _);
        repeat constructor).
  assert (Hz : increasing [0; 1; 2]%float)
    by (refine (StronglySorted_nth (fun a b => (a <? b)%float = true) _ _);
        repeat constructor).
  do 8 (split; [reflexivity|]). split; [exact Hx|]. split; [exact Hz|].
  apply (group_box_spans_the_cells [0; 1; 2; 3]%float [0; 1; 2]%float 0 [] "down"
           {| start_x := IFin 1; end_x := IFin 3; start_z := IFin 0; end_z := IFin 1 |}
           1 2 0 0 1 3 0 1 Hx Hz); reflexivity.
Defined.

Lemma boxes_fold (m : mesh) (g : grid) (s t : float) (pts : list point) (st : group_boxes) :
  fold_left (boxes_point m g s t) pts st =
  {| moment_boxes :=
       moment_boxes st
       ++ flat_map (fun p => option_list (group_box m g (moment_ranges g s p))) pts;
     oneWayShear_boxes :=
       oneWayShear_boxes st
       ++ flat_map (fun p => option_list (group_box m g (one_way_ranges g s t p))) pts;
     twoWayShear_boxes :=
       twoWayShear_boxes st
       ++ flat_map (fun p => option_list (group_box m g (two_way_ranges g s t p))) pts |}.
Proof.
  revert st. induction pts as [|p pts IH]; intros st; cbn [fold_left flat_map].
  - rewrite !app_nil_r. now destruct st.
  - rewrite IH. unfold boxes_point at 1 2 3.
    cbn [moment_boxes oneWayShear_boxes twoWayShear_boxes].
    f_equal; unfold push_box; destruct (group_box m g _);
      cbn [option_list]; rewrite <- ?app_assoc; reflexivity.
Qed.

(** Each of the three lists of boxes holds, in the order of the pedestals,
    one box for every pedestal whose index range of that group holds a cell
    of the grid, and none for the others. *)
Theorem boxes_follow_the_pedestals (xL zL : list float) (h : float) (pts : list point)
    (o : string) (mesh_size plateThickness : float) :
  let m := synthesize xL zL h pts o in
  let g := {| xLines := xL; zLines := zL |} in
  let b := pedestalGroupBoundingBoxes m g mesh_size plateThickness pts in
  moment_boxes b
  = flat_map (fun p => option_list (group_box m g (moment_ranges g mesh_size p))) pts
  /\ oneWayShear_boxes b
     = flat_map (fun p => option_list
                            (group_box m g (one_way_ranges g mesh_size plateThickness p))) pts
  /\ twoWayShear_boxes b
     = flat_map (fun p => option_list
                            (group_box m g (two_way_ranges g mesh_size plateThickness p))) pts
  /\ forall r, group_box m g r = None <-> range_cells g r = [].
Proof.
  cbn zeta. unfold pedestalGroupBoundingBoxes. rewrite boxes_fold.
  cbn [moment_boxes oneWayShear_boxes twoWayShear_boxes app].
  do 3 (split; [reflexivity|]). intros r.
  unfold group_box, getBoundingBoxForPlates.
  destruct (Array_from_Set _) as [|pid pids] eqn:E.
  - split; [intros _|reflexivity]. apply (proj1 (Array_from_Set_nil _)) in E.
    destruct (range_cells _ r) as [|c cs] eqn:Ec; [reflexivity|]. exfalso.
    assert (Hin : In (snd c * (Z.of_nat (List.length xL) - 1) + fst c + 1)
                     (range_plates (plateIds (synthesize xL zL h pts o))
                                   {| xLines := xL; zLines := zL |} r)).
    { apply range_plates_cells. exists c. rewrite Ec. split; [now left | reflexivity]. }
    rewrite E in Hin. destruct Hin.
  - split; [discriminate|]. intros Ec. exfalso.
    assert (Hin : In pid (Array_from_Set
                            (range_plates (plateIds (synthesize xL zL h pts o))
                                          {| xLines := xL; zLines := zL |} r)))
      by (rewrite E; now left).
    apply (proj1 (Array_from_Set_In _ _)) in Hin.
    apply (proj1 (range_plates_cells xL zL h pts o r pid)) in Hin as (c & Hc & _).
    rewrite Ec in Hc. destruct Hc.
Qed.
